(** * DailyHotApi-go: the cache-aside fetch core

    A shallow embedding of the packages [internal/pool], [internal/routes]
    (retry.go), [internal/cache], [internal/service] and of the warm-up task
    of [main], with the properties the specification states about them.

    Go values are modelled as follows.
    - [int], [int64] and [time.Duration] are [Z]; the operations of the
      modelled code that can leave the 64-bit range (the products in
      [delayDuration] and [initL1Cache]) are wrapped with [wrap64].
    - [[]byte] is [option (list byte)] where the nil slice matters (results
      of the HTTP client and of the retry executor) and [list byte] for
      payloads stored in a cache tier.
    - [error] is the inductive [error], [nil] being Go's nil interface.
    - Calls into the network, the clock and the third-party stores are
      explicit: each function returns, next to its Go result, the trace of
      the calls it made and the new state of the stores. *)

From stdpp Require Import gmap strings list.
From Stdlib Require Import ZArith Lia Strings.Byte.

Local Open Scope Z_scope.

(** ** Errors ([error], [fmt.Errorf], [errors.Unwrap]) *)

Inductive fmt_arg : Type :=
| ArgInt (n : Z)
| ArgString (s : string).

(** An error value keeps its format string and operands unformatted.
    [errorString] is an error without a cause; [wrapError] is what
    [fmt.Errorf] builds around the operand of [%w]. *)
Inductive error : Type :=
| nil
| errorString (format : string) (args : list fmt_arg)
| wrapError (format : string) (args : list fmt_arg) (err : error).

Definition is_nil (e : error) : bool :=
  match e with nil => true | _ => false end.

(** [fmt.Errorf format args..., err] with a single trailing [%w] operand.
    A nil operand is printed as a bad verb and nothing is wrapped. *)
Definition Errorf (format : string) (args : list fmt_arg) (err : error) : error :=
  match err with
  | nil => errorString format args
  | _ => wrapError format args err
  end.

Definition Unwrap (e : error) : error :=
  match e with
  | wrapError _ _ err => err
  | _ => nil
  end.

(** ** Machine integers *)

Definition wrap64 (z : Z) : Z := (z + 2 ^ 63) mod 2 ^ 64 - 2 ^ 63.

Definition int64_range (z : Z) : Prop := - 2 ^ 63 <= z < 2 ^ 63.

(** ** Durations (package [time]), in nanoseconds *)

Definition Second : Z := 1000000000.
Definition Minute : Z := 60 * Second.

(** ** Byte slices *)

Definition len (b : option (list byte)) : Z :=
  match b with
  | None => 0
  | Some l => Z.of_nat (length l)
  end.

(** The bytes of a slice; a nil slice has none. *)
Definition payload (b : option (list byte)) : list byte :=
  match b with
  | None => []
  | Some l => l
  end.

(** ** internal/models/response.go *)

Module Models.

(** [interface{}] as the handlers fill it: nothing, a number or a string. *)
Inductive any : Type :=
| AnyNil
| AnyInt (n : Z)
| AnyString (s : string).

Record HotData : Type := {
  ID : string;
  Title : string;
  Desc : string;
  Cover : string;
  Author : string;
  Hot : any;
  Timestamp : any;
  URL : string;
  MobileURL : string
}.

(** [UpdateTime] holds the instant whose RFC 3339 rendering the Go field
    carries. A nil [Params] map is the empty map. *)
Record Response : Type := {
  Code : Z;
  Message : string;
  Name : string;
  RTitle : string;
  Type_ : string;
  Description : string;
  Params : gmap string any;
  Link : string;
  UpdateTime : Z;
  Total : Z;
  FromCache : bool;
  Data : list HotData
}.

Definition SuccessResponse (getCurrentTime : Z)
    (name title typeStr description link : string) (params : gmap string any)
    (data : list HotData) (fromCache : bool) : Response :=
  {| Code := 200;
     Message := "success";
     Name := name;
     RTitle := title;
     Type_ := typeStr;
     Description := description;
     Link := link;
     Params := params;
     UpdateTime := getCurrentTime;
     Total := Z.of_nat (length data);
     Data := data;
     FromCache := fromCache |}.

Definition SimpleSuccessResponse (getCurrentTime : Z)
    (name typeStr : string) (data : list HotData) (fromCache : bool) : Response :=
  SuccessResponse getCurrentTime name name typeStr "" "" ∅ data fromCache.

End Models.

(** ** internal/pool *)

Module Pool.
Import Models.

(** A slice: its elements and the capacity of its backing array. *)
Record slice (A : Type) : Type := mkSlice {
  elems : list A;
  cap : Z
}.
Arguments mkSlice {A}.
Arguments elems {A}.
Arguments cap {A}.

(** [make([]T, 0, capacity)] and [s[:0]]. *)
Definition make {A} (capacity : Z) : slice A := mkSlice [] capacity.
Definition truncate {A} (s : slice A) : slice A := mkSlice [] (cap s).

(** [sync.Pool]: the items it currently holds and its [New] function. *)
Record SyncPool (T : Type) : Type := mkPool {
  items : list T;
  New : T
}.
Arguments mkPool {T}.
Arguments items {T}.
Arguments New {T}.

(** [Get] removes and returns an item the runtime picks ([pick] names its
    position), or the result of [New] when the runtime treats the pool as
    empty or the position holds nothing. *)
Definition poolGet {T} (pick : option nat) (p : SyncPool T) : T * SyncPool T :=
  match pick with
  | Some i =>
    match items p !! i with
    | Some x => (x, mkPool (delete i (items p)) (New p))
    | None => (New p, p)
    end
  | None => (New p, p)
  end.

Definition poolPut {T} (x : T) (p : SyncPool T) : SyncPool T :=
  mkPool (x :: items p) (New p).

(** The collector may drop a pooled item at any time. *)
Definition poolDrop {T} (i : nat) (p : SyncPool T) : SyncPool T :=
  mkPool (delete i (items p)) (New p).

Record ObjectPool : Type := {
  responseBufferPool : SyncPool (slice byte);
  hotDataListPool : SyncPool (slice HotData)
}.

Definition NewObjectPool : ObjectPool :=
  {| responseBufferPool := mkPool [] (make (256 * 1024));
     hotDataListPool := mkPool [] (make 50) |}.

Definition AcquireResponseBuffer (pick : option nat) (p : ObjectPool)
  : slice byte * ObjectPool :=
  let '(buf, pool) := poolGet pick (responseBufferPool p) in
  (truncate buf,
   {| responseBufferPool := pool; hotDataListPool := hotDataListPool p |}).

Definition ReleaseResponseBuffer (buf : slice byte) (p : ObjectPool) : ObjectPool :=
  if cap buf <=? 512 * 1024 then
    {| responseBufferPool := poolPut buf (responseBufferPool p);
       hotDataListPool := hotDataListPool p |}
  else p.

Definition AcquireHotDataList (pick : option nat) (p : ObjectPool)
  : slice HotData * ObjectPool :=
  let '(list, pool) := poolGet pick (hotDataListPool p) in
  (truncate list,
   {| responseBufferPool := responseBufferPool p; hotDataListPool := pool |}).

Definition ReleaseHotDataList (list : slice HotData) (p : ObjectPool) : ObjectPool :=
  if cap list <=? 200 then
    {| responseBufferPool := responseBufferPool p;
       hotDataListPool := poolPut list (hotDataListPool p) |}
  else p.

(** A history of uses of one pool by its clients and the collector. *)
Inductive Call : Type :=
| CallAcquireBuffer (pick : option nat)
| CallReleaseBuffer (buf : slice byte)
| CallAcquireList (pick : option nat)
| CallReleaseList (list : slice HotData)
| CallDropBuffer (i : nat)
| CallDropList (i : nat).

Inductive Acquired : Type :=
| GotBuffer (buf : slice byte)
| GotList (list : slice HotData).

Definition step (c : Call) (p : ObjectPool) : ObjectPool * list Acquired :=
  match c with
  | CallAcquireBuffer pick =>
    let '(buf, p) := AcquireResponseBuffer pick p in (p, [GotBuffer buf])
  | CallReleaseBuffer buf => (ReleaseResponseBuffer buf p, [])
  | CallAcquireList pick =>
    let '(list, p) := AcquireHotDataList pick p in (p, [GotList list])
  | CallReleaseList list => (ReleaseHotDataList list p, [])
  | CallDropBuffer i =>
    ({| responseBufferPool := poolDrop i (responseBufferPool p);
        hotDataListPool := hotDataListPool p |}, [])
  | CallDropList i =>
    ({| responseBufferPool := responseBufferPool p;
        hotDataListPool := poolDrop i (hotDataListPool p) |}, [])
  end.

Fixpoint run (calls : list Call) (p : ObjectPool) : ObjectPool * list Acquired :=
  match calls with
  | [] => (p, [])
  | c :: calls =>
    let '(p, got) := step c p in
    let '(p, rest) := run calls p in
    (p, got ++ rest)
  end.

(** What the contract promises of an acquired container. *)
Definition acquired_ok (a : Acquired) : Prop :=
  match a with
  | GotBuffer buf => elems buf = [] /\ cap buf <= 512 * 1024
  | GotList list => elems list = [] /\ cap list <= 200
  end.

(** Every pooled container, and every container [New] makes, is within the
    guard threshold of its pool. *)
Definition pool_inv (p : ObjectPool) : Prop :=
  Forall (fun b => cap b <= 512 * 1024) (items (responseBufferPool p)) /\
  cap (New (responseBufferPool p)) <= 512 * 1024 /\
  Forall (fun l => cap l <= 200) (items (hotDataListPool p)) /\
  cap (New (hotDataListPool p)) <= 200.

End Pool.

(** ** internal/routes/retry.go *)

Module Retry.

Record RetryConfig : Type := {
  MaxRetries : Z;
  InitialDelay : Z;
  MaxDelay : Z
}.

Definition DefaultRetryConfig : RetryConfig :=
  {| MaxRetries := 3; InitialDelay := 1 * Second; MaxDelay := 5 * Second |}.

(** The HTTP client as this call sees it: what [client.Get url headers]
    returns at its n-th invocation (from 0). *)
Record Client : Type := {
  Get : nat -> string -> gmap string string -> option (list byte) * error
}.

(** [ctx.Err()] once [ctx.Done()] is closed: one of the two errors of
    package [context]. *)
Inductive CtxErr : Type :=
| Canceled
| DeadlineExceeded.

Definition ctxError (c : CtxErr) : error :=
  match c with
  | Canceled => errorString "context canceled" []
  | DeadlineExceeded => errorString "context deadline exceeded" []
  end.

(** Which branch of the [select] is taken while waiting. *)
Inductive SelectOutcome : Type :=
| TimerFired
| CtxDone (err : CtxErr).

(** The caller's context as this call sees it: for the wait that follows
    the attempt of the given index, with the given duration, whether the
    timer fires or [ctx.Done()] is ready first, with [ctx.Err()]. *)
Record Context : Type := {
  waitOn : Z -> Z -> SelectOutcome
}.

Inductive Event : Type :=
| Invoke (n : nat)
| Sleep (d : Z)
| Interrupted (d : Z).

Fixpoint invocations (tr : list Event) : nat :=
  match tr with
  | [] => O
  | Invoke _ :: tr => S (invocations tr)
  | _ :: tr => invocations tr
  end.

Fixpoint sleeps (tr : list Event) : list Z :=
  match tr with
  | [] => []
  | Sleep d :: tr => d :: sleeps tr
  | _ :: tr => sleeps tr
  end.

(** The wait computed after the failed attempt [attempt] (from 0). *)
Definition delayDuration (config : RetryConfig) (attempt : Z) : Z :=
  let d := wrap64 ((attempt + 1) * InitialDelay config) in
  if MaxDelay config <? d then MaxDelay config else d.

Definition cancelledFormat : string := "请求被取消: %w".
Definition exhaustedFormat : string := "请求失败(已重试 %d 次): %w".

Section Executor.

Variable ctx : Context.
Variable client : Client.
Variable url : string.
Variable headers : gmap string string.
Variable config : RetryConfig.

(** The [for] loop, one iteration per unit of fuel; [calls] counts the
    invocations of [client.Get] made so far. [None] is returned only when
    the fuel runs out before the loop ends. *)
Fixpoint retryLoop (fuel : nat) (attempt : Z) (lastErr : error) (calls : nat)
  : option (option (list byte) * error) * list Event :=
  match fuel with
  | O => (None, [])
  | S fuel =>
    if attempt <? MaxRetries config then
      let '(body, err) := Get client calls url headers in
      if is_nil err && (0 <? len body) then
        (Some (body, nil), [Invoke calls])
      else
        let lastErr := err in
        if attempt <? MaxRetries config - 1 then
          let d := delayDuration config attempt in
          match waitOn ctx attempt d with
          | TimerFired =>
            let '(r, tr) := retryLoop fuel (attempt + 1) lastErr (S calls) in
            (r, Invoke calls :: Sleep d :: tr)
          | CtxDone cause =>
            (Some (None, Errorf cancelledFormat [] (ctxError cause)),
             [Invoke calls; Interrupted d])
          end
        else
          let '(r, tr) := retryLoop fuel (attempt + 1) lastErr (S calls) in
          (r, Invoke calls :: tr)
    else
      (Some (None, Errorf exhaustedFormat [ArgInt (MaxRetries config)] lastErr), [])
  end.

Definition FetchWithRetry : option (option (list byte) * error) * list Event :=
  retryLoop (S (Z.to_nat (MaxRetries config))) 0 nil O.

End Executor.

Definition FetchWithDefaultRetry ctx client url headers :=
  FetchWithRetry ctx client url headers DefaultRetryConfig.

(** An invocation fails when it errors or returns an empty body. *)
Definition failed (r : option (list byte) * error) : Prop :=
  is_nil (snd r) && (0 <? len (fst r)) = false.

(** The part of a trace produced by the failed attempts [a, a + j) that
    are each followed by a full wait. *)
Definition backoffTrace (config : RetryConfig) (a j : nat) : list Event :=
  flat_map (fun k => [Invoke k; Sleep (delayDuration config (Z.of_nat k))]) (seq a j).

(** Sample collaborators: a client that fails twice (an error, then an
    empty body) before it answers, a client that never answers, and
    contexts that are never cancelled or cancelled during the second wait. *)
Definition flakyClient : Client :=
  {| Get := fun n _ _ =>
       match n with
       | O => (None, errorString "GET 请求失败: timeout" [])
       | S O => (Some [], nil)
       | _ => (Some ["o"%byte; "k"%byte], nil)
       end |}.

Definition deadClient : Client :=
  {| Get := fun n _ _ => (None, errorString "HTTP 状态码异常: %d" [ArgInt (500 + Z.of_nat n)]) |}.

Definition background : Context := {| waitOn := fun _ _ => TimerFired |}.

Definition cancelledInSecondWait : Context :=
  {| waitOn := fun attempt _ => if attempt =? 1 then CtxDone Canceled else TimerFired |}.

End Retry.

(** ** internal/config *)

Module Config.

Record CacheConfig : Type := {
  Enabled : bool;
  DefaultExpire : Z;
  CleanupInterval : Z;
  MaxEntries : Z;
  MaxEntrySize : Z;
  HardMaxCacheSize : Z
}.

Record RedisConfig : Type := {
  RedisEnabled : bool;
  Host : string;
  Port : Z;
  Password : string;
  DB : Z;
  PoolSize : Z;
  Timeout : Z
}.

Record Config : Type := {
  Cache : CacheConfig;
  Redis : RedisConfig
}.

(** The values of [setDefaults]. *)
Definition defaults : Config :=
  {| Cache := {| Enabled := true;
                 DefaultExpire := 5 * Minute;
                 CleanupInterval := 10 * Minute;
                 MaxEntries := 10000;
                 MaxEntrySize := 500;
                 HardMaxCacheSize := 256 |};
     Redis := {| RedisEnabled := false;
                 Host := "localhost";
                 Port := 6379;
                 Password := "";
                 DB := 0;
                 PoolSize := 10;
                 Timeout := 5 * Second |} |}.

End Config.

(** ** The two stores behind the cache manager

    [bigcache.BigCache] and [redis.Client] are third-party; they are
    modelled by the contract the manager relies on. An entry of the local
    store is readable until the store's [LifeWindow] has elapsed since it
    was written (the store has no per-entry lifetime; the delay until its
    next cleaning pass and eviction under memory pressure are not
    modelled); [Set] fails on the values the store rejects (entries larger
    than a shard). An entry of the shared store carries the expiration it
    was written with and is readable until it has elapsed, for ever when
    the expiration is 0; a negative expiration is treated like 0, and no
    property below relies on one. Every call on the shared store fails
    while the server is not reachable. *)

Module BigCache.

Record Config : Type := {
  Shards : Z;
  LifeWindow : Z;
  CleanWindow : Z;
  MaxEntriesInWindow : Z;
  MaxEntrySize : Z;
  HardMaxCacheSize : Z;
  Verbose : bool
}.

Record entry : Type := {
  value : list byte;
  written : Z
}.

Record t : Type := {
  config : Config;
  entries : gmap string entry;
  rejects : string -> list byte -> bool
}.

Definition ErrEntryNotFound : error := errorString "Entry not found" [].
Definition ErrEntryTooBig : error := errorString "entry is bigger than max shard size" [].

Definition alive (c : t) (now : Z) (e : entry) : bool :=
  now <? written e + LifeWindow (config c).

Definition Get (c : t) (now : Z) (key : string) : option (list byte) * error :=
  match entries c !! key with
  | Some e => if alive c now e then (Some (value e), nil) else (None, ErrEntryNotFound)
  | None => (None, ErrEntryNotFound)
  end.

Definition Set_ (c : t) (now : Z) (key : string) (v : list byte) : error * t :=
  if rejects c key v then (ErrEntryTooBig, c)
  else (nil, {| config := config c;
                entries := <[key := {| value := v; written := now |}]> (entries c);
                rejects := rejects c |}).

Definition Delete (c : t) (now : Z) (key : string) : error * t :=
  match entries c !! key with
  | Some _ => (nil, {| config := config c;
                       entries := delete key (entries c);
                       rejects := rejects c |})
  | None => (ErrEntryNotFound, c)
  end.

End BigCache.

Module RedisStore.

Record entry : Type := {
  value : list byte;
  written : Z;
  expiration : Z
}.

Record t : Type := {
  entries : gmap string entry;
  reachable : bool
}.

Definition Nil : error := errorString "redis: nil" [].
Definition ErrDial : error := errorString "dial tcp: connection refused" [].

Definition alive (now : Z) (e : entry) : bool :=
  (expiration e <=? 0) || (now <? written e + expiration e).

Definition Get (c : t) (now : Z) (key : string) : option (list byte) * error :=
  if reachable c then
    match entries c !! key with
    | Some e => if alive now e then (Some (value e), nil) else (None, Nil)
    | None => (None, Nil)
    end
  else (None, ErrDial).

Definition Set_ (c : t) (now : Z) (key : string) (v : list byte) (expiration : Z)
  : error * t :=
  if reachable c then
    (nil, {| entries := <[key := {| value := v; written := now;
                                    expiration := expiration |}]> (entries c);
             reachable := reachable c |})
  else (ErrDial, c).

Definition Del (c : t) (now : Z) (key : string) : error * t :=
  if reachable c then
    (nil, {| entries := delete key (entries c); reachable := reachable c |})
  else (ErrDial, c).

End RedisStore.

(** ** internal/cache/cache.go *)

Module CacheManager.
Import Config.

(** The stores and the clock the manager's calls act on. *)
Record World : Type := {
  l1Cache : BigCache.t;
  l2Cache : RedisStore.t;
  clock : Z
}.

(** Calls that leave the process or reach a store, in the order made. *)
Inductive Access : Type :=
| L1Get (key : string)
| L1Set (key : string) (v : list byte)
| L1Delete (key : string)
| L2Get (key : string)
| L2Set (key : string) (v : list byte) (expiration : Z)
| L2Del (key : string)
| DataSource.

(** Computations over the world that log their accesses. *)
Definition M (A : Type) : Type := World -> A * World * list Access.

#[global] Instance M_ret : MRet M := fun A a w => (a, w, []).

#[global] Instance M_bind : MBind M := fun A B k c w =>
  let '(a, w1, t1) := c w in
  let '(b, w2, t2) := k a w1 in
  (b, w2, t1 ++ t2).

Definition value_of {A} (c : M A) (w : World) : A := fst (fst (c w)).
Definition world_of {A} (c : M A) (w : World) : World := snd (fst (c w)).
Definition trace_of {A} (c : M A) (w : World) : list Access := snd (c w).

Definition now : M Z := fun w => (clock w, w, []).

(** Time passing between two calls. *)
Definition tick (dt : Z) (w : World) : World :=
  {| l1Cache := l1Cache w; l2Cache := l2Cache w; clock := clock w + dt |}.

Definition l1Get (key : string) : M (option (list byte) * error) :=
  fun w => (BigCache.Get (l1Cache w) (clock w) key, w, [L1Get key]).

Definition l1Set (key : string) (v : list byte) : M error :=
  fun w =>
    let '(err, c) := BigCache.Set_ (l1Cache w) (clock w) key v in
    (err, {| l1Cache := c; l2Cache := l2Cache w; clock := clock w |}, [L1Set key v]).

Definition l1Delete (key : string) : M error :=
  fun w =>
    let '(err, c) := BigCache.Delete (l1Cache w) (clock w) key in
    (err, {| l1Cache := c; l2Cache := l2Cache w; clock := clock w |}, [L1Delete key]).

Definition l2Get (key : string) : M (option (list byte) * error) :=
  fun w => (RedisStore.Get (l2Cache w) (clock w) key, w, [L2Get key]).

Definition l2Set (key : string) (v : list byte) (expiration : Z) : M error :=
  fun w =>
    let '(err, c) := RedisStore.Set_ (l2Cache w) (clock w) key v expiration in
    (err, {| l1Cache := l1Cache w; l2Cache := c; clock := clock w |},
     [L2Set key v expiration]).

Definition l2Del (key : string) : M error :=
  fun w =>
    let '(err, c) := RedisStore.Del (l2Cache w) (clock w) key in
    (err, {| l1Cache := l1Cache w; l2Cache := c; clock := clock w |}, [L2Del key]).

Record Manager : Type := {
  cfg : Config;
  l1Enabled : bool;
  l2Enabled : bool
}.

(** The configuration [initL1Cache] hands to [bigcache.New]. *)
Definition initL1Cache (cfg : Config) : BigCache.Config :=
  {| BigCache.Shards := 1024;
     BigCache.LifeWindow := DefaultExpire (Cache cfg);
     BigCache.CleanWindow := CleanupInterval (Cache cfg);
     BigCache.MaxEntriesInWindow := wrap64 (MaxEntries (Cache cfg) * 10);
     BigCache.MaxEntrySize := MaxEntrySize (Cache cfg);
     BigCache.HardMaxCacheSize := HardMaxCacheSize (Cache cfg);
     BigCache.Verbose := false |}.

(** [NewManager], given the error of [bigcache.New] and of the ping. *)
Definition NewManager (cfg : Config) (l1Err pingErr : error) : option Manager * error :=
  if Enabled (Cache cfg) && negb (is_nil l1Err) then
    (None, Errorf "初始化 L1 缓存失败: %w" [] l1Err)
  else
    (Some {| cfg := cfg;
             l1Enabled := Enabled (Cache cfg);
             l2Enabled := RedisEnabled (Redis cfg) && is_nil pingErr |}, nil).

(** The world right after start-up: an empty local store built from
    [initL1Cache], the shared store as it is found. *)
Definition startWorld (cfg : Config) (rejects : string -> list byte -> bool)
    (l2 : RedisStore.t) (clock : Z) : World :=
  {| l1Cache := {| BigCache.config := initL1Cache cfg;
                   BigCache.entries := ∅;
                   BigCache.rejects := rejects |};
     l2Cache := l2;
     clock := clock |}.

Definition missError (key : string) : error :=
  errorString "缓存未命中: %s" [ArgString key].

(** Lines 149-167 of [Get]: the shared store, then the miss. *)
Definition getL2 (m : Manager) (key : string) : M (option (list byte) * error) :=
  if l2Enabled m then
    '(data, err) ← l2Get key;
    if is_nil err then
      _ ← (if l1Enabled m then _ ← l1Set key (payload data); mret tt else mret tt);
      mret (data, nil)
    else mret (None, missError key)
  else mret (None, missError key).

Definition Manager_Get (m : Manager) (key : string) : M (option (list byte) * error) :=
  if l1Enabled m then
    '(data, err) ← l1Get key;
    if is_nil err then mret (data, nil)
    else getL2 m key
  else getL2 m key.

Definition Manager_Set (m : Manager) (key : string) (v : list byte) (expiration : Z)
  : M error :=
  let expiration :=
    if expiration =? 0 then DefaultExpire (Cache (cfg m)) else expiration in
  _ ← (if l1Enabled m then _ ← l1Set key v; mret tt else mret tt);
  _ ← (if l2Enabled m then _ ← l2Set key v expiration; mret tt else mret tt);
  mret nil.

Definition Manager_Delete (m : Manager) (key : string) : M error :=
  _ ← (if l1Enabled m then _ ← l1Delete key; mret tt else mret tt);
  _ ← (if l2Enabled m then _ ← l2Del key; mret tt else mret tt);
  mret nil.

(** The writes into a tier a trace shows. *)
Fixpoint cacheWrites (tr : list Access) : nat :=
  match tr with
  | [] => O
  | L1Set _ _ :: tr => S (cacheWrites tr)
  | L2Set _ _ _ :: tr => S (cacheWrites tr)
  | _ :: tr => cacheWrites tr
  end.

(** The calls of the data source a trace shows. *)
Fixpoint sourceCalls (tr : list Access) : nat :=
  match tr with
  | [] => O
  | DataSource :: tr => S (sourceCalls tr)
  | _ :: tr => sourceCalls tr
  end.

(** The world after the promotion of [v] under [key]. *)
Definition promoted (m : Manager) (key : string) (v : list byte) (w : World) : World :=
  if l1Enabled m then world_of (l1Set key v) w else w.

(** A tier misses when it is disabled or its read returns an error. *)
Definition l1Misses (m : Manager) (key : string) (w : World) : Prop :=
  l1Enabled m = false \/ snd (BigCache.Get (l1Cache w) (clock w) key) <> nil.

Definition l2Misses (m : Manager) (key : string) (w : World) : Prop :=
  l2Enabled m = false \/ snd (RedisStore.Get (l2Cache w) (clock w) key) <> nil.

(** The expiration [Manager_Set] hands to the shared store. *)
Definition effectiveExpiration (m : Manager) (ttl : Z) : Z :=
  if ttl =? 0 then DefaultExpire (Cache (cfg m)) else ttl.

(** Some enabled tier took the entry written at [w] and still holds it
    [dt] later: the local one for its life window, the shared one for the
    expiration it was given (for ever when that is 0). *)
Definition retained (m : Manager) (w : World) (key : string) (v : list byte)
    (ttl dt : Z) : Prop :=
  (l1Enabled m = true /\
   BigCache.rejects (l1Cache w) key v = false /\
   dt < BigCache.LifeWindow (BigCache.config (l1Cache w)))
  \/
  (l2Enabled m = true /\
   RedisStore.reachable (l2Cache w) = true /\
   (effectiveExpiration m ttl = 0 \/ dt < effectiveExpiration m ttl)).

(** The default configuration: the local store only, five minutes. *)
Definition demoManager : Manager :=
  {| cfg := defaults; l1Enabled := true; l2Enabled := false |}.

Definition demoWorld : World :=
  startWorld defaults (fun _ _ => false)
    {| RedisStore.entries := ∅; RedisStore.reachable := false |} 0.

(** Both tiers enabled; a world whose shared store alone holds [key]. *)
Definition bothTiers : Manager :=
  {| cfg := defaults; l1Enabled := true; l2Enabled := true |}.

Definition sharedOnly (key : string) (v : list byte) : World :=
  startWorld defaults (fun _ _ => false)
    {| RedisStore.entries :=
         {[ key := {| RedisStore.value := v; RedisStore.written := 0;
                      RedisStore.expiration := 5 * Minute |} ]};
       RedisStore.reachable := true |} (1 * Minute).

End CacheManager.

(** ** internal/service/fetcher.go *)

Module Fetcher.
Import Models Config CacheManager.

(** [encoding/json] on record lists: [json.Marshal] and [json.Unmarshal]. *)
Record Codec : Type := {
  Marshal : list HotData -> option (list byte) * error;
  Unmarshal : option (list byte) -> list HotData * error
}.

Record Fetcher : Type := {
  cache : Manager
}.

Definition NewFetcher (cacheManager : Manager) : Fetcher :=
  {| cache := cacheManager |}.

(** A data source is given by what it returns when it is called. *)
Definition FetchFunc : Type := (list HotData * error)%type.

Definition call (fetchFunc : FetchFunc) : M (list HotData * error) :=
  fun w => (fetchFunc, w, [DataSource]).

Definition fetchFailedFormat : string := "获取 %s 数据失败: %w".

Section GetData.

Variable json : Codec.
Variable f : Fetcher.
Variable cacheKey platformName subtitle : string.
Variable cacheDuration : Z.
Variable fetchFunc : FetchFunc.

(** Lines 80-110: the data source, the cache write, the response. *)
Definition fromSource : M (option Response * error) :=
  '(hotDataList, err) ← call fetchFunc;
  if negb (is_nil err) then
    mret (None, Errorf fetchFailedFormat [ArgString platformName] err)
  else
    _ ← (if 0 <? Z.of_nat (length hotDataList) then
           let '(dataBytes, err) := Marshal json hotDataList in
           if is_nil err then
             _ ← Manager_Set (cache f) cacheKey (payload dataBytes) cacheDuration;
             mret tt
           else mret tt
         else mret tt);
    t ← now;
    mret (Some (SimpleSuccessResponse t platformName subtitle hotDataList false), nil).

Definition GetData : M (option Response * error) :=
  '(cachedData, err) ← Manager_Get (cache f) cacheKey;
  if is_nil err then
    let '(hotDataList, err) := Unmarshal json cachedData in
    if is_nil err then
      t ← now;
      mret (Some (SimpleSuccessResponse t platformName subtitle hotDataList true), nil)
    else fromSource
  else fromSource.

End GetData.

Definition InvalidateCache (f : Fetcher) (cacheKey : string) : M error :=
  Manager_Delete (cache f) cacheKey.

(** The lookup of [GetData] does not end in a decoded hit, so that the
    call goes on to its data source. *)
Definition reachesSource (json : Codec) (m : Manager) (key : string) (w : World) : Prop :=
  snd (value_of (Manager_Get m key) w) <> nil \/
  snd (Unmarshal json (fst (value_of (Manager_Get m key) w))) <> nil.

(** The scenario of the specification: one record under key demo_hot. *)
Definition demoRecord : HotData :=
  {| ID := "1"; Title := "A"; Desc := ""; Cover := ""; Author := "";
     Hot := AnyNil; Timestamp := AnyNil; URL := "http://x/1"; MobileURL := "" |}.

(** JSON text written with single quotes for the double ones. *)
Definition jsonText (s : string) : list byte :=
  map (fun b => match b with "'"%byte => x22 | _ => b end) (String.list_byte_of_string s).

Definition demoBytes : list byte :=
  jsonText "[{'id':'1','title':'A','url':'http://x/1'}]".

Definition isDemo (l : list HotData) : bool :=
  match l with
  | [h] =>
    String.eqb (ID h) "1" && String.eqb (Title h) "A" && String.eqb (URL h) "http://x/1"
    && String.eqb (Desc h) "" && String.eqb (Cover h) "" && String.eqb (Author h) ""
    && String.eqb (MobileURL h) ""
    && match Hot h, Timestamp h with AnyNil, AnyNil => true | _, _ => false end
  | _ => false
  end.

Definition bytes_eqb (a b : list byte) : bool :=
  bool_decide (map Byte.to_N a = map Byte.to_N b).

(** [encoding/json] restricted to the demo list and its encoding; every
    other input is refused. *)
Definition demoCodec : Codec :=
  {| Marshal := fun l =>
       if isDemo l then (Some demoBytes, nil)
       else (None, errorString "json: unsupported value" []);
     Unmarshal := fun b =>
       if bytes_eqb (payload b) demoBytes then ([demoRecord], nil)
       else ([], errorString "invalid character" []) |}.

End Fetcher.

(** ** internal/http/client.go and the warm-up task of main

    The resty client with its settings, the network and the server behind
    it are one [Transport]: what executing a request at a given instant
    yields, and how long it takes. A request carries the context resty
    would watch while executing it. *)

Module Warmup.
Import Config.

(** A context is known by its deadline, if it has one. *)
Record Context : Type := {
  deadline : option Z
}.

Definition Background : Context := {| deadline := None |}.

Definition WithTimeout (parent : Context) (timeout now : Z) : Context :=
  {| deadline :=
       Some (match deadline parent with
             | Some d => Z.min d (now + timeout)
             | None => now + timeout
             end) |}.

Record Request : Type := {
  URL : string;
  Header : gmap string string;
  ctx : Context
}.

Record Exchange : Type := {
  StatusCode : Z;
  Body : option (list byte);
  err : error;
  elapsed : Z
}.

Record Transport : Type := {
  execute : Z -> Request -> Exchange
}.

Record Client : Type := {
  client : Transport
}.

(** [c.client.R()]: a fresh request; its context is the background one
    unless the caller sets another, which [Client.Get] never does. *)
Definition R : Request := {| URL := ""; Header := ∅; ctx := Background |}.

Definition SetHeaders (headers : gmap string string) (req : Request) : Request :=
  {| URL := URL req; Header := headers ∪ Header req; ctx := ctx req |}.

Definition reqGet (t : Transport) (now : Z) (req : Request) (url : string) : Exchange :=
  execute t now {| URL := url; Header := Header req; ctx := ctx req |}.

(** [Client.Get]: the result and the time the call took. *)
Definition Get (c : Client) (now : Z) (url : string)
    (headers : option (gmap string string)) : option (list byte) * error * Z :=
  let req := R in
  let req := match headers with
             | Some h => SetHeaders h req
             | None => req
             end in
  let resp := reqGet (client c) now req url in
  if negb (is_nil (err resp)) then
    (None, Errorf "GET 请求失败: %w" [] (err resp), elapsed resp)
  else if negb (StatusCode resp =? 200) then
    (None, errorString "HTTP 状态码异常: %d" [ArgInt (StatusCode resp)], elapsed resp)
  else (Body resp, nil, elapsed resp).

Inductive TaskLog : Type :=
| ClientMissing
| WarmupFailed (err : error)
| WarmupSucceeded.

(** The body of one warm-up goroutine between taking and returning the
    semaphore, with its timeout as a parameter: what it logs and how long
    its fetch took. The context is built and, as in the source, handed to
    nothing. *)
Definition warmUpTaskWith (timeout : Z) (httpClient : option Client) (now : Z)
    (p : string) : TaskLog * Z :=
  let ctx := WithTimeout Background timeout now in
  match httpClient with
  | None => (ClientMissing, 0)
  | Some c =>
    let url := ("http://127.0.0.1:6688" ++ p)%string in
    let '(_, err, took) :=
      Get c now url (Some {[ "User-Agent" := "DailyHotApi/CacheWarmer" ]}) in
    if negb (is_nil err) then (WarmupFailed err, took)
    else (WarmupSucceeded, took)
  end.

Definition warmUpTask : option Client -> Z -> string -> TaskLog * Z :=
  warmUpTaskWith (15 * Second).

Definition hotPlatforms : list string :=
  ["/weibo"; "/toutiao"; "/baidu"; "/bilibili"; "/douyin"; "/github"; "/csdn";
   "/v2ex"; "/hackernews"; "/zhihu"].

(** A server that never answers, behind the client of [NewClient]: 15
    seconds per attempt and 3 retries, the waits between attempts taken
    as one second each. A request without deadline ends after 4 attempts
    and 3 waits; a request whose context has a deadline ends at the
    deadline if that comes first. *)
Definition hangingTransport : Transport :=
  {| execute := fun now req =>
       let full := 4 * (15 * Second) + 3 * (1 * Second) in
       match deadline (ctx req) with
       | Some d =>
         if d - now <? full then
           {| StatusCode := 0; Body := None;
              err := errorString "context deadline exceeded" [];
              elapsed := Z.max 0 (d - now) |}
         else
           {| StatusCode := 0; Body := None;
              err := errorString "Client.Timeout exceeded while awaiting headers" [];
              elapsed := full |}
       | None =>
         {| StatusCode := 0; Body := None;
            err := errorString "Client.Timeout exceeded while awaiting headers" [];
            elapsed := full |}
       end |}.

End Warmup.

(** ** Further observations on the cache manager *)

Module CacheOps.
Import Config CacheManager.

(** The calls on the shared store a trace shows. *)
Fixpoint l2Accesses (tr : list Access) : nat :=
  match tr with
  | [] => O
  | L2Get _ :: tr => S (l2Accesses tr)
  | L2Set _ _ _ :: tr => S (l2Accesses tr)
  | L2Del _ :: tr => S (l2Accesses tr)
  | _ :: tr => l2Accesses tr
  end.

(** The server of the shared store becomes reachable again. *)
Definition reconnect (w : World) : World :=
  {| l1Cache := l1Cache w;
     l2Cache := {| RedisStore.entries := RedisStore.entries (l2Cache w);
                   RedisStore.reachable := true |};
     clock := clock w |}.

(** The manager [NewManager] builds when the ping fails: the same
    configuration, the shared tier switched off. *)
Definition withoutL2 (m : Manager) : Manager :=
  {| cfg := cfg m; l1Enabled := l1Enabled m; l2Enabled := false |}.

(** A world whose shared store holds [key] while its server is down. *)
Definition unreachableHolding (key : string) (v : list byte) : World :=
  startWorld defaults (fun _ _ => false)
    {| RedisStore.entries :=
         {[ key := {| RedisStore.value := v; RedisStore.written := 0;
                      RedisStore.expiration := 5 * Minute |} ]};
       RedisStore.reachable := false |} (1 * Minute).

End CacheOps.

(** ** Further observations on the retry executor and the pools *)

Module RetryOps.
Import Retry.

(** The time a trace shows as slept through completed waits. *)
Definition totalSleep (tr : list Event) : Z := fold_right Z.add 0 (sleeps tr).

(** A client that answers an empty body with no error, every time. *)
Definition emptyClient : Client := {| Get := fun _ _ _ => (Some [], nil) |}.

End RetryOps.

Module PoolOps.
Import Models Pool.

(** The calls of a history that concern the byte-buffer pool, and the
    buffers among the containers a history acquired. *)
Definition isBufferCall (c : Call) : bool :=
  match c with
  | CallAcquireBuffer _ | CallReleaseBuffer _ | CallDropBuffer _ => true
  | _ => false
  end.

Fixpoint buffersOf (got : list Acquired) : list (slice byte) :=
  match got with
  | [] => []
  | GotBuffer buf :: got => buf :: buffersOf got
  | GotList _ :: got => buffersOf got
  end.

End PoolOps.

(** ** internal/http/client.go: the other requests of the client

    A request of the client is the request of [Warmup] together with its
    method, body and cookies; [asGetTransport] is the transport [Get] sees
    through. *)

Module HTTPClient.
Import Warmup.

Record Cookie : Type := {
  CookieName : string;
  CookieValue : string
}.

Inductive Method : Type := GET | POST.

Record FullRequest : Type := {
  method : Method;
  request : Request;
  body : option (list byte);
  cookies : list Cookie
}.

Record Resty : Type := {
  send : Z -> FullRequest -> Exchange
}.

Definition asGetTransport (r : Resty) : Transport :=
  {| execute := fun now req =>
       send r now {| method := GET; request := req; body := None; cookies := [] |} |}.

(** [convertCookies]: one cookie per entry of the map, in the order the
    runtime walks the map (here, the order of [map_to_list]). *)
Definition convertCookies (cookies : gmap string string) : list Cookie :=
  (fun '(name, value) => {| CookieName := name; CookieValue := value |})
    <$> map_to_list cookies.

Definition statusError (code : Z) : error :=
  errorString "HTTP 状态码异常: %d" [ArgInt code].

(** [Client.Post]: the response body, the error and the time taken. *)
Definition Post (r : Resty) (now : Z) (url : string) (reqBody : option (list byte))
    (headers : option (gmap string string)) : option (list byte) * error * Z :=
  let req := R in
  let req := match headers with
             | Some h => SetHeaders h req
             | None => req
             end in
  let resp := send r now {| method := POST;
                            request := {| URL := url; Header := Header req; ctx := ctx req |};
                            body := reqBody; cookies := [] |} in
  if negb (is_nil (err resp)) then
    (None, Errorf "POST 请求失败: %w" [] (err resp), elapsed resp)
  else if negb (StatusCode resp =? 200) && negb (StatusCode resp =? 201) then
    (None, statusError (StatusCode resp), elapsed resp)
  else (Body resp, nil, elapsed resp).

Definition GetWithCookies (r : Resty) (now : Z) (url : string)
    (cookieMap : option (gmap string string)) (headers : option (gmap string string))
  : option (list byte) * error * Z :=
  let req := R in
  let cs := match cookieMap with
            | Some c => convertCookies c
            | None => []
            end in
  let req := match headers with
             | Some h => SetHeaders h req
             | None => req
             end in
  let resp := send r now {| method := GET;
                            request := {| URL := url; Header := Header req; ctx := ctx req |};
                            body := None; cookies := cs |} in
  if negb (is_nil (err resp)) then
    (None, Errorf "GET 请求失败: %w" [] (err resp), elapsed resp)
  else if negb (StatusCode resp =? 200) then
    (None, statusError (StatusCode resp), elapsed resp)
  else (Body resp, nil, elapsed resp).

(** [Client.GetWithResponse]: the whole response, its status unchecked. *)
Definition GetWithResponse (r : Resty) (now : Z) (url : string)
    (headers : option (gmap string string)) : option Exchange * error :=
  let req := R in
  let req := match headers with
             | Some h => SetHeaders h req
             | None => req
             end in
  let resp := send r now {| method := GET;
                            request := {| URL := url; Header := Header req; ctx := ctx req |};
                            body := None; cookies := [] |} in
  if negb (is_nil (err resp)) then
    (None, Errorf "GET 请求失败: %w" [] (err resp))
  else (Some resp, nil).

(** A server that answers every request with the given status. *)
Definition answering (code : Z) : Resty :=
  {| send := fun _ _ =>
       {| StatusCode := code; Body := Some ["o"%byte; "k"%byte]; err := nil;
          elapsed := 1 * Second |} |}.

End HTTPClient.

(** ** pkg/utils: the request signature helpers

    A string is the list of its bytes: a key is indexed by bytes, as Go
    indexes a string, and [filterValue] walks its argument with [range],
    which decodes UTF-8 and yields U+FFFD for every byte that starts no
    well-formed sequence, and appends [string(char)], the UTF-8 encoding
    of the rune. *)

Module Utils.

Definition mixinKeyEncTab : list nat :=
  [46; 47; 18; 2; 53; 8; 23; 32; 15; 50; 10; 31; 58; 3; 45; 35; 27; 43; 5; 49;
   33; 9; 42; 19; 29; 28; 14; 39; 12; 38; 41; 13; 37; 48; 7; 16; 24; 55; 40;
   61; 26; 17; 0; 1; 60; 51; 30; 4; 22; 25; 54; 21; 56; 59; 6; 63; 57; 62; 11;
   36; 20; 34; 44; 52]%nat.

(** The loop of [GetMixinKey]: for each index of the table that lies
    within [orig], the byte found there. *)
Fixpoint gather (orig : list byte) (tab : list nat) : list byte :=
  match tab with
  | [] => []
  | i :: tab =>
    if (i <? length orig)%nat then
      match orig !! i with
      | Some b => b :: gather orig tab
      | None => gather orig tab
      end
    else gather orig tab
  end.

Definition GetMixinKey (orig : list byte) : list byte :=
  let mixinKey := gather orig mixinKeyEncTab in
  if (32 <? length mixinKey)%nat then take 32 mixinKey else mixinKey.

Definition rune : Type := Z.

(** A string is its bytes. [byteVal] is the value of a byte and [byteOf]
    the byte of a value below 256. *)
Definition byteVal (b : byte) : Z := Z.of_N (Byte.to_N b).

Definition byteOf (z : Z) : byte :=
  match Byte.of_N (Z.to_N z) with
  | Some b => b
  | None => "000"%byte
  end.

#[global] Instance byte_eq_dec : EqDecision byte := Byte.byte_eq_dec.

Definition RuneError : rune := 65533.

(** A continuation byte: [locb <= b && b <= hicb]. *)
Definition isCont (b : byte) : bool := (128 <=? byteVal b) && (byteVal b <=? 191).

(** What [range] reads at the head of a string: the rune and the number
    of bytes it advances by. A byte below 0x80 is its own rune; a
    well-formed sequence of two, three or four bytes gives its code point
    unless that is overlong, a surrogate or above U+10FFFF; anything else
    gives U+FFFD and an advance of one byte. On the ranges tested,
    [c - 192], [c - 224], [c - 240] and [b - 128] are the masked bytes. *)
Definition decoderune (s : list byte) : rune * nat :=
  match s with
  | [] => (RuneError, 1%nat)
  | b0 :: rest =>
    let c := byteVal b0 in
    if c <? 128 then (c, 1%nat)
    else if (192 <=? c) && (c <? 224) then
      match rest with
      | b1 :: _ =>
        if isCont b1 then
          let r := (c - 192) * 64 + (byteVal b1 - 128) in
          if 127 <? r then (r, 2%nat) else (RuneError, 1%nat)
        else (RuneError, 1%nat)
      | _ => (RuneError, 1%nat)
      end
    else if (224 <=? c) && (c <? 240) then
      match rest with
      | b1 :: b2 :: _ =>
        if isCont b1 && isCont b2 then
          let r := (c - 224) * 4096 + (byteVal b1 - 128) * 64 + (byteVal b2 - 128) in
          if (2047 <? r) && negb ((55296 <=? r) && (r <=? 57343)) then (r, 3%nat)
          else (RuneError, 1%nat)
        else (RuneError, 1%nat)
      | _ => (RuneError, 1%nat)
      end
    else if (240 <=? c) && (c <? 248) then
      match rest with
      | b1 :: b2 :: b3 :: _ =>
        if isCont b1 && isCont b2 && isCont b3 then
          let r := (c - 240) * 262144 + (byteVal b1 - 128) * 4096
                   + (byteVal b2 - 128) * 64 + (byteVal b3 - 128) in
          if (65535 <? r) && (r <=? 1114111) then (r, 4%nat) else (RuneError, 1%nat)
        else (RuneError, 1%nat)
      | _ => (RuneError, 1%nat)
      end
    else (RuneError, 1%nat)
  end.

(** [for _, c := range s]: the runes the loop sees, in order. [skip]
    counts the bytes still to pass over of the sequence read last. *)
Fixpoint rangeRunes (skip : nat) (s : list byte) : list rune :=
  match s with
  | [] => []
  | b :: rest =>
    match skip with
    | S k => rangeRunes k rest
    | O => let '(r, width) := decoderune (b :: rest) in r :: rangeRunes (pred width) rest
    end
  end.

Definition runes (s : list byte) : list rune := rangeRunes 0 s.

(** [string(char)]: the UTF-8 encoding of a valid code point, and that of
    U+FFFD for any other value. *)
Definition validRune (r : rune) : bool :=
  (0 <=? r) && (r <=? 1114111) && negb ((55296 <=? r) && (r <=? 57343)).

Definition utf8 (r : rune) : list byte :=
  if r <=? 127 then [byteOf r]
  else if r <=? 2047 then [byteOf (192 + r / 64); byteOf (128 + r mod 64)]
  else if r <=? 65535 then
    [byteOf (224 + r / 4096); byteOf (128 + (r / 64) mod 64); byteOf (128 + r mod 64)]
  else
    [byteOf (240 + r / 262144); byteOf (128 + (r / 4096) mod 64);
     byteOf (128 + (r / 64) mod 64); byteOf (128 + r mod 64)].

Definition runeToString (r : rune) : list byte :=
  if validRune r then utf8 r else utf8 RuneError.

Fixpoint containsLoop (rs : list rune) (char : rune) : bool :=
  match rs with
  | [] => false
  | c :: rs => if c =? char then true else containsLoop rs char
  end.

Definition contains (s : list byte) (char : rune) : bool := containsLoop (runes s) char.

(** The literal "!'()*". *)
Definition unwantedChars : list byte := String.list_byte_of_string "!'()*".

Fixpoint filterLoop (rs : list rune) : list byte :=
  match rs with
  | [] => []
  | char :: rs =>
    if negb (contains unwantedChars char) then runeToString char ++ filterLoop rs
    else filterLoop rs
  end.

Definition filterValue (value : list byte) : list byte := filterLoop (runes value).

(** The string that encodes a sequence of code points. *)
Fixpoint encodeRunes (rs : list rune) : list byte :=
  match rs with
  | [] => []
  | r :: rs => utf8 r ++ encodeRunes rs
  end.

(** [GetNavInfo] returns two fixed keys of 32 bytes each. *)
Definition imgKey : list byte := String.list_byte_of_string "7cd084941338484aae1ad9425b84077c".
Definition subKey : list byte := String.list_byte_of_string "4932caff0ff746eab6f01bf08b70ac45".

Definition GetNavInfo : list byte * list byte * error := (imgKey, subKey, nil).

End Utils.

(** ** pkg/utils/timeutil *)

Module Timeutil.

Definition threshold : Z := 946684800000.

Definition normalizeTimestamp (ts : Z) : Z :=
  if threshold <? ts then ts else wrap64 (ts * 1000).

End Timeutil.

(** ** The warm-up goroutines and their semaphore

    Each goroutine of [warmUpCacheAsync] waits to send on the buffered
    channel, runs its task, and receives from the channel when it returns,
    on every path. A schedule names, step by step, the goroutine that
    moves and the instant; a goroutine blocked on a full channel does not
    move. *)

Module WarmupScheduler.
Import Warmup.

Inductive Phase : Type :=
| Waiting
| Fetching
| Finished (log : TaskLog).

Record Sched : Type := {
  phases : list Phase;
  semaphore : nat
}.

(** [make(chan struct{}, 3)]. *)
Definition capacity : nat := 3.

Definition spawnAll (platforms : list string) : Sched :=
  {| phases := (fun _ => Waiting) <$> platforms; semaphore := 0 |}.

Definition stepTask (httpClient : option Client) (platforms : list string)
    (i : nat) (now : Z) (s : Sched) : option Sched :=
  match phases s !! i, platforms !! i with
  | Some Waiting, Some _ =>
    if (semaphore s <? capacity)%nat then
      Some {| phases := <[i := Fetching]> (phases s); semaphore := S (semaphore s) |}
    else None
  | Some Fetching, Some p =>
    Some {| phases := <[i := Finished (fst (warmUpTask httpClient now p))]> (phases s);
            semaphore := pred (semaphore s) |}
  | _, _ => None
  end.

Fixpoint runSchedule (httpClient : option Client) (platforms : list string)
    (schedule : list (nat * Z)) (s : Sched) : Sched :=
  match schedule with
  | [] => s
  | (i, now) :: schedule =>
    runSchedule httpClient platforms schedule
      (match stepTask httpClient platforms i now s with
       | Some s' => s'
       | None => s
       end)
  end.

Fixpoint inFlight (ps : list Phase) : nat :=
  match ps with
  | [] => O
  | Fetching :: ps => S (inFlight ps)
  | _ :: ps => inFlight ps
  end.

(** What is left to do: two moves for a waiting goroutine, one for a
    fetching one. *)
Fixpoint work (ps : list Phase) : nat :=
  match ps with
  | [] => O
  | Waiting :: ps => S (S (work ps))
  | Fetching :: ps => S (work ps)
  | Finished _ :: ps => work ps
  end.

Definition isFinished (ph : Phase) : bool :=
  match ph with
  | Finished _ => true
  | _ => false
  end.

(** The channel holds one token per goroutine between its send and its
    receive, and there is one goroutine per platform. *)
Definition sched_inv (platforms : list string) (s : Sched) : Prop :=
  semaphore s = inFlight (phases s) /\
  (semaphore s <= capacity)%nat /\
  length (phases s) = length platforms.

End WarmupScheduler.

(** * Properties *)

Lemma Errorf_not_nil format args err : Errorf format args err <> nil.
Proof. destruct err; discriminate. Qed.

Lemma Unwrap_Errorf format args err : Unwrap (Errorf format args err) = err.
Proof. destruct err; reflexivity. Qed.

Lemma is_nil_true e : is_nil e = true <-> e = nil.
Proof. destruct e; simpl; split; congruence. Qed.

Lemma wrap64_id z : int64_range z -> wrap64 z = z.
Proof.
  unfold int64_range, wrap64. intros H.
  rewrite Z.mod_small; lia.
Qed.

Module RetryFacts.
Import Retry.

Lemma delayDuration_min config attempt :
  delayDuration config attempt =
  Z.min (wrap64 ((attempt + 1) * InitialDelay config)) (MaxDelay config).
Proof.
  unfold delayDuration. cbv zeta.
  destruct (Z.ltb_spec (MaxDelay config) (wrap64 ((attempt + 1) * InitialDelay config))); lia.
Qed.

Lemma invocations_app tr1 tr2 :
  invocations (tr1 ++ tr2) = (invocations tr1 + invocations tr2)%nat.
Proof.
  induction tr1 as [|[]]; simpl; auto.
Qed.

Lemma sleeps_app tr1 tr2 : sleeps (tr1 ++ tr2) = sleeps tr1 ++ sleeps tr2.
Proof.
  induction tr1 as [|[]]; simpl; auto. now f_equal.
Qed.

Lemma invocations_backoffTrace config a j :
  invocations (backoffTrace config a j) = j.
Proof.
  unfold backoffTrace. revert a.
  induction j; intros a; simpl; auto.
Qed.

Lemma sleeps_backoffTrace config a j :
  sleeps (backoffTrace config a j) =
  map (fun k => delayDuration config (Z.of_nat k)) (seq a j).
Proof.
  unfold backoffTrace. revert a.
  induction j; intros a; simpl; auto. now f_equal.
Qed.

Section Loop.

Variable ctx : Context.
Variable client : Client.
Variable url : string.
Variable headers : gmap string string.
Variable config : RetryConfig.

#[local] Abbreviation loop := (retryLoop ctx client url headers config).
#[local] Abbreviation get k := (Get client k url headers).

(** One failed attempt followed by a completed wait. *)
Lemma loop_step_retry fuel (a : nat) lastErr :
  Z.of_nat a < MaxRetries config - 1 ->
  failed (get a) ->
  waitOn ctx (Z.of_nat a) (delayDuration config (Z.of_nat a)) = TimerFired ->
  loop (S fuel) (Z.of_nat a) lastErr a =
  (fst (loop fuel (Z.of_nat (S a)) (snd (get a)) (S a)),
   Invoke a :: Sleep (delayDuration config (Z.of_nat a))
     :: snd (loop fuel (Z.of_nat (S a)) (snd (get a)) (S a))).
Proof.
  intros Ha Hf Hw. simpl retryLoop.
  destruct (Z.ltb_spec (Z.of_nat a) (MaxRetries config)); [|lia].
  unfold failed in Hf. destruct (get a) as [body err]. simpl in Hf. rewrite Hf.
  destruct (Z.ltb_spec (Z.of_nat a) (MaxRetries config - 1)); [|lia].
  rewrite Hw. replace (Z.of_nat a + 1) with (Z.of_nat (S a)) by lia.
  simpl. destruct (loop fuel _ _ _). reflexivity.
Qed.

Lemma loop_success (j : nat) : forall (a : nat) fuel lastErr body,
  (j < fuel)%nat ->
  Z.of_nat (a + j) < MaxRetries config ->
  (forall k, (a <= k < a + j)%nat -> failed (get k)) ->
  (forall k, (a <= k < a + j)%nat ->
     waitOn ctx (Z.of_nat k) (delayDuration config (Z.of_nat k)) = TimerFired) ->
  get (a + j)%nat = (Some body, nil) -> body <> [] ->
  loop fuel (Z.of_nat a) lastErr a =
  (Some (Some body, nil), backoffTrace config a j ++ [Invoke (a + j)%nat]).
Proof.
  induction j as [|j IH]; intros a fuel lastErr body Hfuel Hmax Hfail Hwait Hok Hne.
  - destruct fuel as [|fuel]; [lia|].
    replace (a + 0)%nat with a in * by lia.
    simpl retryLoop.
    destruct (Z.ltb_spec (Z.of_nat a) (MaxRetries config)); [|lia].
    rewrite Hok. simpl.
    destruct body as [|b body]; [congruence|]. reflexivity.
  - destruct fuel as [|fuel]; [lia|].
    rewrite loop_step_retry by (try apply Hfail; try apply Hwait; lia).
    rewrite (IH (S a) fuel (snd (get a)) body); try lia; try assumption.
    + simpl. unfold backoffTrace. simpl.
      replace (S (a + j)) with (a + S j)%nat by lia. reflexivity.
    + intros k Hk. apply Hfail. lia.
    + intros k Hk. apply Hwait. lia.
    + replace (S a + j)%nat with (a + S j)%nat by lia. assumption.
Qed.

(** The last attempt fails: no wait follows it and the loop ends. *)
Lemma loop_last_attempt fuel (a : nat) lastErr :
  Z.of_nat a = MaxRetries config - 1 ->
  failed (get a) ->
  loop (S (S fuel)) (Z.of_nat a) lastErr a =
  (Some (None, Errorf exhaustedFormat [ArgInt (MaxRetries config)] (snd (get a))),
   [Invoke a]).
Proof.
  intros Ha Hf. simpl retryLoop.
  destruct (Z.ltb_spec (Z.of_nat a) (MaxRetries config)); [|lia].
  unfold failed in Hf. destruct (get a) as [body err]. simpl in Hf. rewrite Hf.
  destruct (Z.ltb_spec (Z.of_nat a) (MaxRetries config - 1)); [lia|].
  destruct (Z.ltb_spec (Z.of_nat a + 1) (MaxRetries config)); [lia|].
  reflexivity.
Qed.

Lemma loop_exhausted (j : nat) : forall (a : nat) fuel lastErr,
  (S j < fuel)%nat ->
  Z.of_nat (a + j) = MaxRetries config - 1 ->
  (forall k, (a <= k <= a + j)%nat -> failed (get k)) ->
  (forall k, (a <= k < a + j)%nat ->
     waitOn ctx (Z.of_nat k) (delayDuration config (Z.of_nat k)) = TimerFired) ->
  loop fuel (Z.of_nat a) lastErr a =
  (Some (None, Errorf exhaustedFormat [ArgInt (MaxRetries config)]
                 (snd (get (a + j)%nat))),
   backoffTrace config a j ++ [Invoke (a + j)%nat]).
Proof.
  induction j as [|j IH]; intros a fuel lastErr Hfuel Hmax Hfail Hwait.
  - destruct fuel as [|[|fuel]]; try lia.
    replace (a + 0)%nat with a in * by lia.
    apply loop_last_attempt; [assumption|]. apply Hfail. lia.
  - destruct fuel as [|fuel]; [lia|].
    rewrite loop_step_retry by (try apply Hfail; try apply Hwait; lia).
    rewrite (IH (S a) fuel (snd (get a))); try lia.
    + simpl. unfold backoffTrace. simpl.
      replace (S (a + j)) with (a + S j)%nat by lia. reflexivity.
    + intros k Hk. apply Hfail. lia.
    + intros k Hk. apply Hwait. lia.
Qed.

(** The wait after attempt [a] is won by the context. *)
Lemma loop_step_cancel fuel (a : nat) lastErr cause :
  Z.of_nat a < MaxRetries config - 1 ->
  failed (get a) ->
  waitOn ctx (Z.of_nat a) (delayDuration config (Z.of_nat a)) = CtxDone cause ->
  loop (S fuel) (Z.of_nat a) lastErr a =
  (Some (None, Errorf cancelledFormat [] (ctxError cause)),
   [Invoke a; Interrupted (delayDuration config (Z.of_nat a))]).
Proof.
  intros Ha Hf Hw. simpl retryLoop.
  destruct (Z.ltb_spec (Z.of_nat a) (MaxRetries config)); [|lia].
  unfold failed in Hf. destruct (get a) as [body err]. simpl in Hf. rewrite Hf.
  destruct (Z.ltb_spec (Z.of_nat a) (MaxRetries config - 1)); [|lia].
  rewrite Hw. reflexivity.
Qed.

Lemma loop_cancelled (j : nat) : forall (a : nat) fuel lastErr cause,
  (j < fuel)%nat ->
  Z.of_nat (a + j) < MaxRetries config - 1 ->
  (forall k, (a <= k <= a + j)%nat -> failed (get k)) ->
  (forall k, (a <= k < a + j)%nat ->
     waitOn ctx (Z.of_nat k) (delayDuration config (Z.of_nat k)) = TimerFired) ->
  waitOn ctx (Z.of_nat (a + j)) (delayDuration config (Z.of_nat (a + j))) = CtxDone cause ->
  loop fuel (Z.of_nat a) lastErr a =
  (Some (None, Errorf cancelledFormat [] (ctxError cause)),
   backoffTrace config a j ++
   [Invoke (a + j)%nat; Interrupted (delayDuration config (Z.of_nat (a + j)))]).
Proof.
  induction j as [|j IH]; intros a fuel lastErr cause Hfuel Hmax Hfail Hwait Hdone.
  - destruct fuel as [|fuel]; [lia|].
    replace (a + 0)%nat with a in * by lia.
    apply loop_step_cancel; try assumption. apply Hfail. lia.
  - destruct fuel as [|fuel]; [lia|].
    rewrite loop_step_retry by (try apply Hfail; try apply Hwait; lia).
    rewrite (IH (S a) fuel (snd (get a)) cause); try lia.
    + simpl. unfold backoffTrace. simpl.
      replace (S (a + j)) with (a + S j)%nat by lia. reflexivity.
    + intros k Hk. apply Hfail. lia.
    + intros k Hk. apply Hwait. lia.
    + replace (S a + j)%nat with (a + S j)%nat by lia. assumption.
Qed.

(** The fuel given by [FetchWithRetry] is enough: the loop returns. *)
Lemma loop_returns fuel : forall attempt lastErr calls,
  (Z.to_nat (MaxRetries config - attempt) < fuel)%nat ->
  exists r tr, loop fuel attempt lastErr calls = (Some r, tr).
Proof.
  induction fuel as [|fuel IH]; intros attempt lastErr calls Hfuel; [lia|].
  simpl retryLoop.
  destruct (Z.ltb_spec attempt (MaxRetries config)); [|eauto].
  assert (Hnext : (Z.to_nat (MaxRetries config - (attempt + 1)) < fuel)%nat) by lia.
  destruct (Get client calls url headers) as [body err].
  destruct (is_nil err && (0 <? len body)); [eauto|].
  destruct (attempt <? MaxRetries config - 1).
  - destruct (waitOn ctx attempt (delayDuration config attempt)); [|eauto].
    destruct (IH (attempt + 1) err (S calls) Hnext) as (r & tr & ->). eauto.
  - destruct (IH (attempt + 1) err (S calls) Hnext) as (r & tr & ->). eauto.
Qed.

Lemma FetchWithRetry_returns :
  exists r tr, FetchWithRetry ctx client url headers config = (Some r, tr).
Proof.
  unfold FetchWithRetry. apply loop_returns. lia.
Qed.

End Loop.

End RetryFacts.

Module RetryClaims.
Import Retry RetryFacts.

(** C6. Retry executor contract. If the first [N - 1] invocations fail (an
    error or an empty body), the [N]-th returns a non-empty body, [N] is at
    most [MaxRetries] and every wait runs to its end, then [FetchWithRetry]
    invokes the operation exactly [N] times and returns that body; the wait
    before retry number [i] (the one that follows the [i]-th invocation) is
    [min (i * InitialDelay) MaxDelay], the product being the 64-bit one.
    If all [MaxRetries] invocations fail, the result is one error built from
    the attempt count around the error of the last invocation, after the
    same waits. *)
Theorem retry_executor_contract ctx client url headers config :
  (forall (N : nat) body,
     (1 <= N)%nat -> Z.of_nat N <= MaxRetries config ->
     (forall k, (k < N - 1)%nat -> failed (Get client k url headers)) ->
     Get client (N - 1) url headers = (Some body, nil) -> body <> [] ->
     (forall k, (k < N - 1)%nat ->
        waitOn ctx (Z.of_nat k) (delayDuration config (Z.of_nat k)) = TimerFired) ->
     exists tr,
       FetchWithRetry ctx client url headers config = (Some (Some body, nil), tr) /\
       invocations tr = N /\
       sleeps tr =
         map (fun i => Z.min (wrap64 (Z.of_nat i * InitialDelay config)) (MaxDelay config))
             (seq 1 (N - 1)) /\
       ((forall i, (1 <= i < N)%nat -> int64_range (Z.of_nat i * InitialDelay config)) ->
        sleeps tr =
          map (fun i => Z.min (Z.of_nat i * InitialDelay config) (MaxDelay config))
              (seq 1 (N - 1))))
  /\
  (forall (M : nat),
     (1 <= M)%nat -> Z.of_nat M = MaxRetries config ->
     (forall k, (k < M)%nat -> failed (Get client k url headers)) ->
     (forall k, (k < M - 1)%nat ->
        waitOn ctx (Z.of_nat k) (delayDuration config (Z.of_nat k)) = TimerFired) ->
     exists tr err,
       FetchWithRetry ctx client url headers config = (Some (None, err), tr) /\
       err = Errorf exhaustedFormat [ArgInt (MaxRetries config)]
                    (snd (Get client (M - 1) url headers)) /\
       err <> nil /\
       Unwrap err = snd (Get client (M - 1) url headers) /\
       invocations tr = M /\
       sleeps tr =
         map (fun i => Z.min (wrap64 (Z.of_nat i * InitialDelay config)) (MaxDelay config))
             (seq 1 (M - 1))).
Proof.
  assert (Hsl : forall n,
    map (fun k => delayDuration config (Z.of_nat k)) (seq 0 n) =
    map (fun i => Z.min (wrap64 (Z.of_nat i * InitialDelay config)) (MaxDelay config))
        (seq 1 n)).
  { intros n. rewrite <- seq_shift, map_map. apply map_ext. intros k.
    rewrite delayDuration_min. do 2 f_equal. lia. }
  split.
  - intros N body HN Hmax Hfail Hok Hne Hwait.
    unfold FetchWithRetry.
    rewrite (loop_success ctx client url headers config (N - 1) 0 _ nil body);
      try assumption; try lia.
    + eexists. split; [reflexivity|].
      rewrite invocations_app, sleeps_app, invocations_backoffTrace, sleeps_backoffTrace.
      simpl. rewrite app_nil_r, Hsl.
      split; [lia|]. split; [reflexivity|].
      intros Hrange. apply map_ext_in. intros i Hi.
      apply in_seq in Hi. rewrite wrap64_id; [reflexivity|]. apply Hrange. lia.
    + intros k Hk. apply Hfail. lia.
    + intros k Hk. apply Hwait. lia.
  - intros M HM Hmax Hfail Hwait.
    unfold FetchWithRetry.
    rewrite (loop_exhausted ctx client url headers config (M - 1) 0 _ nil);
      try lia.
    + simpl. do 2 eexists. split; [reflexivity|].
      split; [reflexivity|]. split; [apply Errorf_not_nil|].
      split; [apply Unwrap_Errorf|].
      rewrite invocations_app, sleeps_app, invocations_backoffTrace, sleeps_backoffTrace.
      simpl. rewrite app_nil_r, Hsl. split; [lia | reflexivity].
    + intros k Hk. apply Hfail. lia.
    + intros k Hk. apply Hwait. lia.
Qed.

Lemma retry_executor_contract_witness :
  exists tr,
    FetchWithDefaultRetry background flakyClient "http://x/1" ∅ =
      (Some (Some ["o"%byte; "k"%byte], nil), tr) /\
    invocations tr = 3%nat /\
    sleeps tr = [1 * Second; 2 * Second].
Proof.
  destruct (proj1 (retry_executor_contract background flakyClient "http://x/1" ∅
                     DefaultRetryConfig) 3%nat ["o"%byte; "k"%byte])
    as (tr & Hr & Hn & Hs & _).
  - lia.
  - simpl. lia.
  - intros [|[|k]] Hk; [reflexivity | reflexivity | simpl in Hk; lia].
  - reflexivity.
  - discriminate.
  - reflexivity.
  - exists tr. split; [exact Hr|]. split; [exact Hn|]. exact Hs.
Defined.

(** C7. Cancellation during backoff. If the wait that follows the failed
    attempt [k] is ended by the context, [FetchWithRetry] returns at once:
    [k + 1] invocations were made and none follows, the trace ends with the
    interrupted wait, and the error is the cancellation error built around
    [ctx.Err()], whatever the operation's last error was. *)
Theorem cancellation_during_backoff ctx client url headers config (k : nat) cause :
  Z.of_nat k < MaxRetries config - 1 ->
  (forall i, (i <= k)%nat -> failed (Get client i url headers)) ->
  (forall i, (i < k)%nat ->
     waitOn ctx (Z.of_nat i) (delayDuration config (Z.of_nat i)) = TimerFired) ->
  waitOn ctx (Z.of_nat k) (delayDuration config (Z.of_nat k)) = CtxDone cause ->
  exists tr err,
    FetchWithRetry ctx client url headers config = (Some (None, err), tr) /\
    err = Errorf cancelledFormat [] (ctxError cause) /\
    err <> nil /\
    Unwrap err = ctxError cause /\
    invocations tr = S k /\
    last tr = Some (Interrupted (delayDuration config (Z.of_nat k))).
Proof.
  intros Hk Hfail Hwait Hdone.
  unfold FetchWithRetry.
  rewrite (loop_cancelled ctx client url headers config k 0 _ nil cause);
    try assumption; try lia.
  - do 2 eexists. split; [reflexivity|]. split; [reflexivity|].
    split; [apply Errorf_not_nil|]. split; [apply Unwrap_Errorf|].
    rewrite invocations_app, invocations_backoffTrace.
    split; [simpl; lia|].
    rewrite last_app. reflexivity.
  - intros i Hi. apply Hfail. lia.
  - intros i Hi. apply Hwait. lia.
Qed.

Lemma cancellation_during_backoff_witness :
  exists tr err,
    FetchWithDefaultRetry cancelledInSecondWait deadClient "http://x/1" ∅ =
      (Some (None, err), tr) /\
    err = wrapError cancelledFormat [] (ctxError Canceled) /\
    invocations tr = 2%nat.
Proof.
  destruct (cancellation_during_backoff cancelledInSecondWait deadClient "http://x/1" ∅
              DefaultRetryConfig 1%nat Canceled)
    as (tr & err & Hr & He & _ & _ & Hn & _).
  - simpl. lia.
  - intros i Hi. reflexivity.
  - intros [|i] Hi; [reflexivity | lia].
  - reflexivity.
  - exists tr, err. split; [exact Hr|]. split; [exact He|]. exact Hn.
Defined.

(** C10. Degenerate configuration. With [MaxRetries <= 0] the loop body is
    never entered: no invocation is made, the byte slice is nil and the
    error is the aggregated one, which is not nil and has no cause (the
    operand of [%w] is the nil [lastErr]). *)
Theorem degenerate_retry_config ctx client url headers config :
  MaxRetries config <= 0 ->
  FetchWithRetry ctx client url headers config =
    (Some (None, Errorf exhaustedFormat [ArgInt (MaxRetries config)] nil), []) /\
  invocations (snd (FetchWithRetry ctx client url headers config)) = 0%nat /\
  Errorf exhaustedFormat [ArgInt (MaxRetries config)] nil <> nil /\
  Unwrap (Errorf exhaustedFormat [ArgInt (MaxRetries config)] nil) = nil.
Proof.
  intros Hle.
  assert (H : FetchWithRetry ctx client url headers config =
    (Some (None, Errorf exhaustedFormat [ArgInt (MaxRetries config)] nil), [])).
  { unfold FetchWithRetry. simpl retryLoop.
    destruct (Z.ltb_spec 0 (MaxRetries config)); [lia | reflexivity]. }
  rewrite H. repeat split. discriminate.
Qed.

Lemma degenerate_retry_config_witness :
  FetchWithRetry background flakyClient "http://x/1" ∅
    {| MaxRetries := 0; InitialDelay := Second; MaxDelay := 5 * Second |} =
  (Some (None, errorString exhaustedFormat [ArgInt 0]), []).
Proof.
  apply (degenerate_retry_config background flakyClient "http://x/1" ∅
           {| MaxRetries := 0; InitialDelay := Second; MaxDelay := 5 * Second |}).
  simpl. lia.
Defined.

End RetryClaims.

Module PoolClaims.
Import Models Pool.

Lemma NewObjectPool_inv : pool_inv NewObjectPool.
Proof.
  unfold pool_inv, NewObjectPool; simpl. repeat split; try constructor; lia.
Qed.

Lemma poolGet_inv {T} (P : T -> Prop) pick (p : SyncPool T) :
  Forall P (items p) -> P (New p) ->
  P (fst (poolGet pick p)) /\
  Forall P (items (snd (poolGet pick p))) /\
  New (snd (poolGet pick p)) = New p.
Proof.
  intros Hitems Hnew. unfold poolGet.
  destruct pick as [i|]; [|simpl; auto].
  destruct (items p !! i) as [x|] eqn:Hx; simpl; [|auto].
  repeat split.
  - eapply Forall_lookup_1; eassumption.
  - now apply Forall_delete.
Qed.

Lemma step_inv c p :
  pool_inv p -> pool_inv (fst (step c p)) /\ Forall acquired_ok (snd (step c p)).
Proof.
  intros (Hb & Hnb & Hl & Hnl).
  destruct c as [pick|buf|pick|list|i|i]; simpl.
  - unfold AcquireResponseBuffer.
    destruct (poolGet_inv (fun b => cap b <= 512 * 1024) pick (responseBufferPool p) Hb Hnb)
      as (H1 & H2 & H3).
    destruct (poolGet pick (responseBufferPool p)) as [buf pool]; simpl in *.
    split.
    + unfold pool_inv; simpl. rewrite H3. auto.
    + constructor; [|constructor]. simpl. auto.
  - split; [|constructor]. unfold ReleaseResponseBuffer.
    destruct (Z.leb_spec (cap buf) (512 * 1024)).
    + unfold pool_inv; simpl. repeat split; auto.
    + unfold pool_inv; auto.
  - unfold AcquireHotDataList.
    destruct (poolGet_inv (fun l => cap l <= 200) pick (hotDataListPool p) Hl Hnl)
      as (H1 & H2 & H3).
    destruct (poolGet pick (hotDataListPool p)) as [l pool]; simpl in *.
    split.
    + unfold pool_inv; simpl. rewrite H3. auto.
    + constructor; [|constructor]. simpl. auto.
  - split; [|constructor]. unfold ReleaseHotDataList.
    destruct (Z.leb_spec (cap list) 200).
    + unfold pool_inv; simpl. repeat split; auto.
    + unfold pool_inv; auto.
  - split; [|constructor]. unfold pool_inv; simpl.
    repeat split; auto. now apply Forall_delete.
  - split; [|constructor]. unfold pool_inv; simpl.
    repeat split; auto. now apply Forall_delete.
Qed.

Lemma run_inv calls : forall p,
  pool_inv p -> pool_inv (fst (run calls p)) /\ Forall acquired_ok (snd (run calls p)).
Proof.
  induction calls as [|c calls IH]; intros p Hp; simpl.
  - split; [assumption | constructor].
  - destruct (step_inv c p Hp) as [Hp1 Hgot].
    destruct (step c p) as [p1 got]; simpl in *.
    destruct (IH p1 Hp1) as [Hp2 Hrest].
    destruct (run calls p1) as [p2 rest]; simpl in *.
    split; [assumption|]. apply Forall_app. auto.
Qed.

(** C8. Pool acquire and guarded release. An acquired container has length
    zero. Releasing puts the container into its pool exactly when its
    capacity is at most the threshold (512 KiB of bytes, 200 records); an
    oversized container leaves the pool as it was. Hence, over any history
    of acquires, releases of arbitrary containers and drops by the
    collector that starts from [NewObjectPool], every acquired container
    is empty and within the threshold. *)
Theorem pool_acquire_release_contract :
  (forall pick p, elems (fst (AcquireResponseBuffer pick p)) = []) /\
  (forall pick p, elems (fst (AcquireHotDataList pick p)) = []) /\
  (forall buf p,
     items (responseBufferPool (ReleaseResponseBuffer buf p)) =
       buf :: items (responseBufferPool p) <-> cap buf <= 524288) /\
  (forall list p,
     items (hotDataListPool (ReleaseHotDataList list p)) =
       list :: items (hotDataListPool p) <-> cap list <= 200) /\
  (forall buf p, 524288 < cap buf -> ReleaseResponseBuffer buf p = p) /\
  (forall list p, 200 < cap list -> ReleaseHotDataList list p = p) /\
  (forall calls, Forall acquired_ok (snd (run calls NewObjectPool))).
Proof.
  assert (Hcons : forall A (x : A) l, l = x :: l -> False).
  { intros A x l H. apply (f_equal (@length A)) in H. simpl in H. lia. }
  split; [|split; [|split; [|split; [|split; [|split]]]]].
  - intros pick p. unfold AcquireResponseBuffer.
    destruct (poolGet pick (responseBufferPool p)). reflexivity.
  - intros pick p. unfold AcquireHotDataList.
    destruct (poolGet pick (hotDataListPool p)). reflexivity.
  - intros buf p. unfold ReleaseResponseBuffer.
    destruct (Z.leb_spec (cap buf) (512 * 1024)); simpl; split; try lia; try reflexivity.
    intros H'. apply Hcons in H'. contradiction.
  - intros list p. unfold ReleaseHotDataList.
    destruct (Z.leb_spec (cap list) 200); simpl; split; try lia; try reflexivity.
    intros H'. apply Hcons in H'. contradiction.
  - intros buf p Hbig. unfold ReleaseResponseBuffer.
    destruct (Z.leb_spec (cap buf) (512 * 1024)); [lia | reflexivity].
  - intros list p Hbig. unfold ReleaseHotDataList.
    destruct (Z.leb_spec (cap list) 200); [lia | reflexivity].
  - intros calls. apply run_inv, NewObjectPool_inv.
Qed.

(** Releasing a 1 MiB buffer and then acquiring: the pool hands out a
    fresh 256 KiB buffer, not the oversized one. *)
Lemma pool_acquire_release_contract_witness :
  ReleaseResponseBuffer (mkSlice ["x"%byte] 1048576) NewObjectPool = NewObjectPool /\
  Forall acquired_ok
    (snd (run [CallReleaseBuffer (mkSlice ["x"%byte] 1048576);
               CallAcquireBuffer (Some 0%nat)] NewObjectPool)).
Proof.
  destruct pool_acquire_release_contract as (_ & _ & _ & _ & Hbig & _ & Hrun).
  split.
  - apply Hbig. simpl. lia.
  - apply Hrun.
Defined.

End PoolClaims.

Module CacheFacts.
Import Config CacheManager.

(** Unfolds a computation of the manager down to the calls on the stores. *)
Ltac unfold_M :=
  unfold Manager_Get, getL2, Manager_Set, Manager_Delete,
    l1Get, l1Set, l1Delete, l2Get, l2Set, l2Del, now,
    value_of, world_of, trace_of, mbind, M_bind, mret, M_ret in *.

(** [NewManager] on the values of [setDefaults]: the local tier only. *)
Lemma NewManager_defaults : NewManager defaults nil nil = (Some demoManager, nil).
Proof. reflexivity. Qed.

Lemma BigCache_Get_nil c t key data :
  BigCache.Get c t key = (data, nil) ->
  exists e, BigCache.entries c !! key = Some e /\ BigCache.alive c t e = true /\
            data = Some (BigCache.value e).
Proof.
  unfold BigCache.Get. intros H.
  destruct (BigCache.entries c !! key) as [e|]; [|discriminate].
  destruct (BigCache.alive c t e) eqn:Ha; [|discriminate].
  exists e. split; [reflexivity|]. split; [assumption|]. congruence.
Qed.

Lemma RedisStore_Get_nil c t key data :
  RedisStore.Get c t key = (data, nil) ->
  RedisStore.reachable c = true /\
  exists e, RedisStore.entries c !! key = Some e /\ RedisStore.alive t e = true /\
            data = Some (RedisStore.value e).
Proof.
  unfold RedisStore.Get. intros H.
  destruct (RedisStore.reachable c); [|discriminate]. split; [reflexivity|].
  destruct (RedisStore.entries c !! key) as [e|]; [|discriminate].
  destruct (RedisStore.alive t e) eqn:Ha; [|discriminate].
  exists e. split; [reflexivity|]. split; [assumption|]. congruence.
Qed.

(** What a read of the local store finds once an entry was written at
    [t0]: the entry, until the life window has elapsed. *)
Lemma BigCache_Get_after_Set c t0 key v dt :
  BigCache.rejects c key v = false ->
  BigCache.Get (snd (BigCache.Set_ c t0 key v)) (t0 + dt) key =
  if dt <? BigCache.LifeWindow (BigCache.config c)
  then (Some v, nil) else (None, BigCache.ErrEntryNotFound).
Proof.
  intros Hacc. unfold BigCache.Set_, BigCache.Get. rewrite Hacc. simpl.
  rewrite lookup_insert_eq. unfold BigCache.alive. simpl.
  destruct (Z.ltb_spec (t0 + dt) (t0 + BigCache.LifeWindow (BigCache.config c)));
    destruct (Z.ltb_spec dt (BigCache.LifeWindow (BigCache.config c)));
    try lia; reflexivity.
Qed.

(** The same for the shared store: the entry, until the expiration it was
    written with has elapsed (for ever when it is not positive). *)
Lemma RedisStore_Get_after_Set c t0 key v expiration dt :
  RedisStore.reachable c = true ->
  RedisStore.Get (snd (RedisStore.Set_ c t0 key v expiration)) (t0 + dt) key =
  if (expiration <=? 0) || (dt <? expiration)
  then (Some v, nil) else (None, RedisStore.Nil).
Proof.
  intros Hup. unfold RedisStore.Set_, RedisStore.Get. rewrite Hup. simpl.
  rewrite lookup_insert_eq. unfold RedisStore.alive. simpl.
  destruct (Z.leb_spec expiration 0); simpl; [reflexivity|].
  destruct (Z.ltb_spec (t0 + dt) (t0 + expiration));
    destruct (Z.ltb_spec dt expiration); try lia; reflexivity.
Qed.

(** Expired entries stay expired. *)
Lemma BigCache_miss_later c t key dt :
  0 <= dt ->
  snd (BigCache.Get c t key) <> nil ->
  snd (BigCache.Get c (t + dt) key) <> nil.
Proof.
  unfold BigCache.Get, BigCache.alive. intros Hdt.
  destruct (BigCache.entries c !! key) as [e|]; [|auto].
  destruct (Z.ltb_spec t (BigCache.written e + BigCache.LifeWindow (BigCache.config c)));
    destruct (Z.ltb_spec (t + dt) (BigCache.written e + BigCache.LifeWindow (BigCache.config c)));
    simpl; try lia; auto.
Qed.


Lemma World_eta (w : World) :
  {| l1Cache := l1Cache w; l2Cache := l2Cache w; clock := clock w |} = w.
Proof. destruct w; reflexivity. Qed.

Lemma sourceCalls_app tr1 tr2 :
  sourceCalls (tr1 ++ tr2) = (sourceCalls tr1 + sourceCalls tr2)%nat.
Proof. induction tr1 as [|[]]; simpl; auto. Qed.

(** The three ways a read ends. *)
Lemma Manager_Get_cases m key w :
  (exists v,
     l1Enabled m = true /\
     BigCache.Get (l1Cache w) (clock w) key = (Some v, nil) /\
     Manager_Get m key w = ((Some v, nil), w, [L1Get key]))
  \/
  (exists v tr,
     l1Misses m key w /\ l2Enabled m = true /\
     RedisStore.Get (l2Cache w) (clock w) key = (Some v, nil) /\
     Manager_Get m key w = ((Some v, nil), promoted m key v w, tr) /\
     sourceCalls tr = 0%nat)
  \/
  (exists tr,
     l1Misses m key w /\ l2Misses m key w /\
     Manager_Get m key w = ((None, missError key), w, tr) /\
     sourceCalls tr = 0%nat /\ cacheWrites tr = 0%nat).
Proof.
  unfold l1Misses, l2Misses, promoted. unfold_M.
  destruct (l1Enabled m) eqn:H1; simpl.
  - destruct (BigCache.Get (l1Cache w) (clock w) key) as [d1 e1] eqn:Hg1.
    destruct (is_nil e1) eqn:Hn1.
    + apply is_nil_true in Hn1. subst e1.
      destruct (BigCache_Get_nil _ _ _ _ Hg1) as (e & _ & _ & ->).
      left. exists (BigCache.value e). simpl. auto.
    + assert (He1 : e1 <> nil) by (intros ->; discriminate).
      right. simpl. destruct (l2Enabled m) eqn:H2; simpl.
      * destruct (RedisStore.Get (l2Cache w) (clock w) key) as [d2 e2] eqn:Hg2.
        destruct (is_nil e2) eqn:Hn2.
        -- apply is_nil_true in Hn2. subst e2.
           destruct (RedisStore_Get_nil _ _ _ _ Hg2) as (_ & e & _ & _ & ->).
           left. simpl.
           destruct (BigCache.Set_ (l1Cache w) (clock w) key (RedisStore.value e)) eqn:Hs.
           do 2 eexists. rewrite ?Hs. simpl. repeat split; eauto.
        -- assert (He2 : e2 <> nil) by (intros ->; discriminate).
           right. simpl. eexists. repeat split; eauto.
      * right. eexists. repeat split; eauto.
  - right. destruct (l2Enabled m) eqn:H2; simpl.
    + destruct (RedisStore.Get (l2Cache w) (clock w) key) as [d2 e2] eqn:Hg2.
      destruct (is_nil e2) eqn:Hn2.
      * apply is_nil_true in Hn2. subst e2.
        destruct (RedisStore_Get_nil _ _ _ _ Hg2) as (_ & e & _ & _ & ->).
        left. simpl. do 2 eexists. repeat split; eauto.
      * assert (He2 : e2 <> nil) by (intros ->; discriminate).
        right. simpl. eexists. repeat split; eauto.
    + right. eexists. repeat split; eauto.
Qed.

Lemma promoted_frame m key v w :
  clock (promoted m key v w) = clock w /\
  l2Cache (promoted m key v w) = l2Cache w.
Proof.
  unfold promoted. unfold_M. destruct (l1Enabled m); [|auto].
  destruct (BigCache.Set_ (l1Cache w) (clock w) key v). auto.
Qed.

(** The manager never calls a data source and never moves the clock. *)
Lemma Manager_Get_quiet m key w :
  sourceCalls (trace_of (Manager_Get m key) w) = 0%nat /\
  clock (world_of (Manager_Get m key) w) = clock w /\
  l2Cache (world_of (Manager_Get m key) w) = l2Cache w.
Proof.
  unfold trace_of, world_of.
  destruct (Manager_Get_cases m key w)
    as [(v & _ & _ & ->) | [(v & tr & _ & _ & _ & -> & Htr) | (tr & _ & _ & -> & Htr & _)]];
    simpl; auto.
  destruct (promoted_frame m key v w). auto.
Qed.

Lemma Manager_Set_quiet m key v ttl w :
  sourceCalls (trace_of (Manager_Set m key v ttl) w) = 0%nat /\
  clock (world_of (Manager_Set m key v ttl) w) = clock w /\
  value_of (Manager_Set m key v ttl) w = nil.
Proof.
  unfold_M.
  destruct (l1Enabled m); destruct (l2Enabled m); simpl;
    try (destruct (BigCache.Set_ (l1Cache w) (clock w) key v); simpl);
    try (destruct (RedisStore.Set_ _ (clock w) key v _); simpl);
    auto.
Qed.

(** A miss leaves the world as it was, and is a miss of every enabled tier. *)
Lemma Manager_Get_miss m key w :
  snd (value_of (Manager_Get m key) w) <> nil ->
  world_of (Manager_Get m key) w = w /\
  value_of (Manager_Get m key) w = (None, missError key) /\
  cacheWrites (trace_of (Manager_Get m key) w) = 0%nat /\
  l1Misses m key w /\ l2Misses m key w.
Proof.
  unfold value_of, world_of, trace_of.
  destruct (Manager_Get_cases m key w)
    as [(v & _ & _ & ->) | [(v & tr & _ & _ & _ & -> & Htr) | (tr & ? & ? & -> & Htr & ?)]];
    simpl; try congruence. auto.
Qed.

Lemma Manager_Get_misses m key w :
  l1Misses m key w -> l2Misses m key w ->
  exists tr, Manager_Get m key w = ((None, missError key), w, tr) /\
             sourceCalls tr = 0%nat.
Proof.
  intros Hm1 Hm2. unfold l1Misses, l2Misses in *.
  destruct (Manager_Get_cases m key w)
    as [(v & H1 & Hg & _) | [(v & tr & _ & H2 & Hg & _) | (tr & _ & _ & Heq & Htr & _)]].
  - rewrite Hg in Hm1. simpl in Hm1. destruct Hm1; congruence.
  - rewrite Hg in Hm2. simpl in Hm2. destruct Hm2; congruence.
  - eauto.
Qed.


Lemma Manager_Set_world m key v ttl w :
  world_of (Manager_Set m key v ttl) w =
  {| l1Cache := if l1Enabled m
                then snd (BigCache.Set_ (l1Cache w) (clock w) key v)
                else l1Cache w;
     l2Cache := if l2Enabled m
                then snd (RedisStore.Set_ (l2Cache w) (clock w) key v
                            (effectiveExpiration m ttl))
                else l2Cache w;
     clock := clock w |}.
Proof.
  unfold effectiveExpiration. unfold_M.
  destruct (l1Enabled m); destruct (l2Enabled m); simpl;
    try (destruct (BigCache.Set_ (l1Cache w) (clock w) key v); simpl);
    try (destruct (RedisStore.Set_ _ (clock w) key v _); simpl);
    rewrite ?World_eta; reflexivity.
Qed.

Lemma BigCache_Set_rejected c t key v :
  BigCache.rejects c key v = true -> snd (BigCache.Set_ c t key v) = c.
Proof. unfold BigCache.Set_. intros ->. reflexivity. Qed.

Lemma RedisStore_Set_unreachable c t key v e :
  RedisStore.reachable c = false ->
  snd (RedisStore.Set_ c t key v e) = c.
Proof. unfold RedisStore.Set_. intros ->. reflexivity. Qed.

Lemma Manager_Get_after_Set m key v ttl w dt :
  l1Misses m key w -> l2Misses m key w -> 0 <= dt ->
  retained m w key v ttl dt ->
  exists w2 tr,
    Manager_Get m key (tick dt (world_of (Manager_Set m key v ttl) w)) =
      ((Some v, nil), w2, tr) /\
    sourceCalls tr = 0%nat /\ clock w2 = clock w + dt.
Proof.
  intros Hm1 Hm2 Hdt Hret.
  rewrite Manager_Set_world.
  set (W := tick dt _).
  assert (HcW : clock W = clock w + dt) by reflexivity.
  assert (Hl1 : l1Enabled m = true ->
    BigCache.Get (l1Cache W) (clock W) key =
    if BigCache.rejects (l1Cache w) key v
    then BigCache.Get (l1Cache w) (clock w + dt) key
    else if dt <? BigCache.LifeWindow (BigCache.config (l1Cache w))
         then (Some v, nil) else (None, BigCache.ErrEntryNotFound)).
  { intros H1. subst W. simpl. rewrite H1.
    destruct (BigCache.rejects (l1Cache w) key v) eqn:Hrej.
    - rewrite BigCache_Set_rejected by assumption. reflexivity.
    - apply BigCache_Get_after_Set. assumption. }
  assert (Hl2 : l2Enabled m = true ->
    RedisStore.Get (l2Cache W) (clock W) key =
    if RedisStore.reachable (l2Cache w)
    then if (effectiveExpiration m ttl <=? 0) || (dt <? effectiveExpiration m ttl)
         then (Some v, nil) else (None, RedisStore.Nil)
    else (None, RedisStore.ErrDial)).
  { intros H2. subst W. simpl. rewrite H2.
    destruct (RedisStore.reachable (l2Cache w)) eqn:Hup.
    - apply RedisStore_Get_after_Set. assumption.
    - rewrite RedisStore_Set_unreachable by assumption.
      unfold RedisStore.Get. rewrite Hup. reflexivity. }
  assert (Hmiss1 : l1Enabled m = true ->
    snd (BigCache.Get (l1Cache w) (clock w + dt) key) <> nil).
  { intros H1. destruct Hm1 as [Hm1|Hm1]; [congruence|].
    apply BigCache_miss_later; assumption. }
  destruct (Manager_Get_cases m key W)
    as [(v' & H1 & Hg & Heq) | [(v' & tr & _ & H2 & Hg & Heq & Htr) | (tr & Hn1 & Hn2 & _)]].
  - rewrite (Hl1 H1) in Hg.
    destruct (BigCache.rejects (l1Cache w) key v).
    + specialize (Hmiss1 H1). rewrite Hg in Hmiss1. simpl in Hmiss1. congruence.
    + destruct (dt <? _); [|discriminate].
      injection Hg as <-. do 2 eexists. split; [exact Heq|]. auto.
  - rewrite (Hl2 H2) in Hg.
    destruct (RedisStore.reachable (l2Cache w)); [|discriminate].
    destruct (_ || _); [|discriminate].
    injection Hg as <-. do 2 eexists. split; [exact Heq|]. split; [assumption|].
    destruct (promoted_frame m key v W) as [Hc _]. rewrite Hc. assumption.
  - exfalso. destruct Hret as [(H1 & Hacc & Hlt) | (H2 & Hup & Hlt)].
    + destruct Hn1 as [Hn1|Hn1]; [congruence|].
      rewrite (Hl1 H1), Hacc in Hn1.
      destruct (Z.ltb_spec dt (BigCache.LifeWindow (BigCache.config (l1Cache w))));
        [|lia]. simpl in Hn1. congruence.
    + destruct Hn2 as [Hn2|Hn2]; [congruence|].
      rewrite (Hl2 H2), Hup in Hn2.
      destruct (Z.leb_spec (effectiveExpiration m ttl) 0);
        destruct (Z.ltb_spec dt (effectiveExpiration m ttl));
        simpl in Hn2; try congruence; lia.
Qed.


End CacheFacts.

Module CacheClaims.
Import Config CacheManager CacheFacts.

(** C2. Tiered read order and promotion. With the local tier enabled, a
    hit there is returned after the single access [L1Get]: the shared tier
    is not touched and the world is unchanged. On a local miss with the
    shared tier enabled and holding the key, the value is returned after
    [L1Get; L2Get; L1Set]: it is copied into the local tier when that tier
    accepts it, and the read succeeds all the same when it does not. When
    every enabled tier misses, the result is a nil slice and a non-nil
    error, and the world is unchanged. *)
Theorem tiered_read_order_and_promotion m key w :
  (forall v,
     l1Enabled m = true ->
     BigCache.Get (l1Cache w) (clock w) key = (Some v, nil) ->
     Manager_Get m key w = ((Some v, nil), w, [L1Get key]))
  /\
  (forall v,
     l1Enabled m = true ->
     snd (BigCache.Get (l1Cache w) (clock w) key) <> nil ->
     l2Enabled m = true ->
     RedisStore.Get (l2Cache w) (clock w) key = (Some v, nil) ->
     exists w',
       Manager_Get m key w = ((Some v, nil), w', [L1Get key; L2Get key; L1Set key v]) /\
       l2Cache w' = l2Cache w /\ clock w' = clock w /\
       (BigCache.rejects (l1Cache w) key v = false ->
        BigCache.entries (l1Cache w') !! key =
          Some {| BigCache.value := v; BigCache.written := clock w |}) /\
       (BigCache.rejects (l1Cache w) key v = true -> l1Cache w' = l1Cache w))
  /\
  ((l1Enabled m = false \/ snd (BigCache.Get (l1Cache w) (clock w) key) <> nil) ->
   (l2Enabled m = false \/ snd (RedisStore.Get (l2Cache w) (clock w) key) <> nil) ->
   exists tr,
     Manager_Get m key w = ((None, missError key), w, tr) /\
     missError key <> nil).
Proof.
  split; [|split].
  - intros v H1 Hhit. unfold_M. rewrite H1, Hhit. reflexivity.
  - intros v H1 Hmiss H2 Hhit. unfold_M. rewrite H1, H2.
    destruct (BigCache.Get (l1Cache w) (clock w) key) as [d1 e1]. simpl in *.
    destruct e1; [congruence| |]; simpl; rewrite Hhit; simpl;
      unfold BigCache.Set_;
      (destruct (BigCache.rejects (l1Cache w) key v) eqn:Hrej; simpl;
       eexists; (split; [reflexivity|]); simpl; repeat split; try congruence;
       try (intros _; apply lookup_insert_eq);
       try (intros _; destruct (l1Cache w); reflexivity)).
  - intros H1 H2. unfold_M.
    destruct (l1Enabled m); destruct (l2Enabled m); simpl;
      destruct H1 as [H1|H1]; try discriminate;
      destruct H2 as [H2|H2]; try discriminate;
      try (destruct (BigCache.Get (l1Cache w) (clock w) key) as [d1 e1];
           simpl in *; destruct e1; try congruence; simpl);
      try (destruct (RedisStore.Get (l2Cache w) (clock w) key) as [d2 e2];
           simpl in *; destruct e2; try congruence; simpl);
      eexists; (split; [reflexivity | discriminate]).
Qed.

(** C3 (as amended). Expiration of a written entry, tier by tier.
    [Manager_Set] always returns nil. The shared tier, when enabled and
    reachable, stores the entry with the expiration [ttl], or with
    [cfg.Cache.DefaultExpire] when [ttl] is 0 (durations are not
    negative), and a read [dt] later finds it exactly while that
    expiration has not elapsed (always, when it is 0). The local tier is
    given no expiration: what [Manager_Set] leaves in it is the same for
    every [ttl], the entry it stores when it is enabled and accepts the
    value holds the value and the instant of the write and nothing else,
    and, the store being the one [initL1Cache] builds, a read finds the
    entry throughout the life window [cfg.Cache.DefaultExpire], so also
    after a shorter [ttl] has elapsed. Nothing is said of reads after the
    life window: the store drops an entry at a later cleaning pass. *)
Theorem expiration_per_tier m key v ttl w :
  value_of (Manager_Set m key v ttl) w = nil /\
  (l2Enabled m = true -> RedisStore.reachable (l2Cache w) = true ->
   0 <= ttl -> 0 <= DefaultExpire (Cache (cfg m)) ->
   RedisStore.entries (l2Cache (world_of (Manager_Set m key v ttl) w)) !! key =
     Some {| RedisStore.value := v; RedisStore.written := clock w;
             RedisStore.expiration :=
               if ttl =? 0 then DefaultExpire (Cache (cfg m)) else ttl |} /\
   forall dt,
     RedisStore.Get (l2Cache (world_of (Manager_Set m key v ttl) w)) (clock w + dt) key =
     if ((if ttl =? 0 then DefaultExpire (Cache (cfg m)) else ttl) =? 0)
        || (dt <? (if ttl =? 0 then DefaultExpire (Cache (cfg m)) else ttl))
     then (Some v, nil) else (None, RedisStore.Nil)) /\
  (forall ttl',
     l1Cache (world_of (Manager_Set m key v ttl) w) =
     l1Cache (world_of (Manager_Set m key v ttl') w)) /\
  (l1Enabled m = true -> BigCache.rejects (l1Cache w) key v = false ->
   BigCache.config (l1Cache w) = initL1Cache (cfg m) ->
   BigCache.entries (l1Cache (world_of (Manager_Set m key v ttl) w)) !! key =
     Some {| BigCache.value := v; BigCache.written := clock w |} /\
   forall dt, dt < DefaultExpire (Cache (cfg m)) ->
     BigCache.Get (l1Cache (world_of (Manager_Set m key v ttl) w)) (clock w + dt) key =
     (Some v, nil)).
Proof.
  split; [apply Manager_Set_quiet|].
  split; [|split].
  - rewrite Manager_Set_world. unfold effectiveExpiration. simpl.
    intros H2 Hup Httl Hdef. rewrite H2. split.
    + unfold RedisStore.Set_. rewrite Hup. simpl. apply lookup_insert_eq.
    + intros dt. rewrite RedisStore_Get_after_Set by assumption.
      replace ((if ttl =? 0 then DefaultExpire (Cache (cfg m)) else ttl) <=? 0)
        with ((if ttl =? 0 then DefaultExpire (Cache (cfg m)) else ttl) =? 0);
        [reflexivity|].
      destruct (Z.eqb_spec ttl 0); lia.
  - intros ttl'. rewrite !Manager_Set_world. reflexivity.
  - rewrite Manager_Set_world. simpl.
    intros H1 Hacc Hcfg. rewrite H1. split.
    + unfold BigCache.Set_. rewrite Hacc. simpl. apply lookup_insert_eq.
    + intros dt Hdt. rewrite BigCache_Get_after_Set by assumption.
      rewrite Hcfg. simpl.
      destruct (Z.ltb_spec dt (DefaultExpire (Cache (cfg m)))); [reflexivity | lia].
Qed.

Lemma expiration_per_tier_witness :
  BigCache.Get
    (l1Cache (world_of (Manager_Set demoManager "demo_hot" ["v"%byte] (1 * Minute))
                demoWorld))
    (clock demoWorld + 2 * Minute) "demo_hot" = (Some ["v"%byte], nil).
Proof.
  destruct (expiration_per_tier demoManager "demo_hot" ["v"%byte] (1 * Minute) demoWorld)
    as (_ & _ & _ & Hl1).
  destruct Hl1 as [_ Hread]; [reflexivity | reflexivity | reflexivity |].
  apply Hread. reflexivity.
Defined.

(** In the default configuration (local tier only, five minutes) an entry
    written with a one-minute [ttl] is still served by the local tier
    after two minutes: it has not expired after [ttl]. *)
Lemma ttl_not_honored_by_local_tier :
  0 < 1 * Minute /\
  1 * Minute < 2 * Minute /\
  l1Enabled demoManager = true /\
  BigCache.Get
    (l1Cache (world_of (Manager_Set demoManager "demo_hot" ["v"%byte] (1 * Minute))
                demoWorld))
    (clock demoWorld + 2 * Minute) "demo_hot" = (Some ["v"%byte], nil) /\
  value_of (Manager_Get demoManager "demo_hot")
    (tick (2 * Minute)
       (world_of (Manager_Set demoManager "demo_hot" ["v"%byte] (1 * Minute)) demoWorld))
    = (Some ["v"%byte], nil).
Proof.
  split; [reflexivity|]. split; [reflexivity|]. split; [reflexivity|].
  split; vm_compute; reflexivity.
Qed.

Lemma tiered_read_order_and_promotion_witness :
  exists w',
    Manager_Get bothTiers "demo_hot" (sharedOnly "demo_hot" ["v"%byte]) =
      ((Some ["v"%byte], nil), w',
       [L1Get "demo_hot"; L2Get "demo_hot"; L1Set "demo_hot" ["v"%byte]]) /\
    BigCache.entries (l1Cache w') !! "demo_hot" =
      Some {| BigCache.value := ["v"%byte]; BigCache.written := 1 * Minute |}.
Proof.
  destruct (proj1 (proj2 (tiered_read_order_and_promotion bothTiers "demo_hot"
                            (sharedOnly "demo_hot" ["v"%byte]))) ["v"%byte])
    as (w' & Heq & _ & _ & Hcopy & _).
  - reflexivity.
  - vm_compute. discriminate.
  - reflexivity.
  - vm_compute. reflexivity.
  - exists w'. split; [exact Heq|]. apply Hcopy. reflexivity.
Defined.

End CacheClaims.

Module FetcherFacts.
Import Models Config CacheManager CacheFacts Fetcher.

Section GetDataFacts.

Variable json : Codec.
Variable f : Fetcher.
Variable key name sub : string.
Variable ttl : Z.

#[local] Abbreviation getData fetch := (GetData json f key name sub ttl fetch).
#[local] Abbreviation source fetch := (fromSource json f key name sub ttl fetch).

Lemma fromSource_error l e w :
  e <> nil ->
  source (l, e) w = ((None, Errorf fetchFailedFormat [ArgString name] e), w, [DataSource]).
Proof.
  intros He. unfold fromSource, call, mbind, M_bind, mret, M_ret.
  destruct e; [congruence | reflexivity | reflexivity].
Qed.


Lemma fromSource_store l b w :
  l <> [] ->
  Marshal json l = (Some b, nil) ->
  source (l, nil) w =
  ((Some (SimpleSuccessResponse (clock w) name sub l false), nil),
   world_of (Manager_Set (cache f) key b ttl) w,
   DataSource :: trace_of (Manager_Set (cache f) key b ttl) w).
Proof.
  intros Hl Hm. unfold fromSource, call, mbind, M_bind, mret, M_ret, now.
  simpl. destruct l as [|h l]; [congruence|].
  cbn [length Z.of_nat Z.ltb Z.compare]. rewrite Hm. simpl.
  destruct (Manager_Set_quiet (cache f) key b ttl w) as (_ & Hc & _).
  unfold world_of, trace_of in *.
  destruct (Manager_Set (cache f) key b ttl w) as [[r w1] t1]. simpl in *.
  rewrite Hc, !app_nil_r. reflexivity.
Qed.

Lemma GetData_hit fetch d l w w1 t1 :
  Manager_Get (cache f) key w = ((d, nil), w1, t1) ->
  Unmarshal json d = (l, nil) ->
  getData fetch w =
  ((Some (SimpleSuccessResponse (clock w1) name sub l true), nil), w1, t1).
Proof.
  intros Hg Hu. unfold GetData, mbind, M_bind, mret, M_ret, now.
  rewrite Hg. simpl. rewrite Hu. simpl. rewrite !app_nil_r. reflexivity.
Qed.

Lemma GetData_source fetch d e w w1 t1 :
  Manager_Get (cache f) key w = ((d, e), w1, t1) ->
  e <> nil \/ snd (Unmarshal json d) <> nil ->
  getData fetch w =
  (value_of (source fetch) w1, world_of (source fetch) w1,
   t1 ++ trace_of (source fetch) w1).
Proof.
  intros Hg Hor. unfold GetData, mbind, M_bind, value_of, world_of, trace_of.
  rewrite Hg. simpl.
  destruct e; simpl.
  - destruct Hor as [He|Hu]; [congruence|].
    destruct (Unmarshal json d) as [l e']. simpl in Hu.
    destruct e'; [congruence | |]; simpl;
      destruct (fromSource _ _ _ _ _ _ _ w1) as [[r w2] t2]; reflexivity.
  - destruct (fromSource _ _ _ _ _ _ _ w1) as [[r w2] t2]; reflexivity.
  - destruct (fromSource _ _ _ _ _ _ _ w1) as [[r w2] t2]; reflexivity.
Qed.

End GetDataFacts.

End FetcherFacts.

Module FetcherClaims.
Import Models Config CacheManager CacheFacts Fetcher FetcherFacts.

Lemma fromSource_once json f key name sub ttl fetch w :
  sourceCalls (trace_of (fromSource json f key name sub ttl fetch) w) = 1%nat.
Proof.
  destruct fetch as [l e].
  destruct (is_nil e) eqn:Hn.
  - apply is_nil_true in Hn. subst e.
    unfold trace_of, fromSource, call, mbind, M_bind, mret, M_ret, now. simpl.
    destruct (0 <? Z.of_nat (length l)); [|reflexivity].
    destruct (Marshal json l) as [b e]. destruct (is_nil e); [|reflexivity].
    destruct (Manager_Set_quiet (cache f) key (payload b) ttl w) as (Hq & _).
    unfold trace_of in Hq.
    destruct (Manager_Set (cache f) key (payload b) ttl w) as [[r w1] t1].
    simpl in *. rewrite !app_nil_r. rewrite Hq. reflexivity.
  - unfold trace_of. rewrite fromSource_error; [reflexivity|].
    intros ->. discriminate.
Qed.

(** A call that reaches its data source calls it once. *)
Lemma GetData_source_once json m key name sub ttl fetch w :
  reachesSource json m key w ->
  sourceCalls (trace_of (GetData json (NewFetcher m) key name sub ttl fetch) w) = 1%nat.
Proof.
  intros Hr. unfold reachesSource, value_of in Hr.
  destruct (Manager_Get_quiet m key w) as (Hq & _). unfold trace_of in Hq.
  destruct (Manager_Get m key w) as [[[d e] w1] t1] eqn:Hg. simpl in *.
  unfold trace_of at 1.
  rewrite (GetData_source json (NewFetcher m) key name sub ttl fetch d e w w1 t1 Hg Hr).
  simpl. rewrite sourceCalls_app, Hq, fromSource_once. reflexivity.
Qed.





(** C1 (as amended). Cache-aside round trip. On a key both tiers miss,
    a call whose data source returns a non-empty list that serializes
    returns it with [FromCache = false] after one call of the source. A
    second call [dt] later, while an enabled tier retains the entry (the
    local tier: it accepted the value and [dt] is less than its life
    window, whatever [ttl] is; the shared tier: it is reachable and the
    expiration, [ttl] or the default when [ttl] is 0, is 0 or exceeds
    [dt]), reads from the cache exactly the bytes the first call
    serialized, returns their decoding with [FromCache = true] and does
    not call its data source. *)
Theorem cache_aside_round_trip json m key name sub ttl data bytes data' fetch2 w dt :
  snd (value_of (Manager_Get m key) w) <> nil ->
  data <> [] ->
  Marshal json data = (Some bytes, nil) ->
  Unmarshal json (Some bytes) = (data', nil) ->
  0 <= dt ->
  retained m w key bytes ttl dt ->
  exists w1 tr1 w2 tr2,
    GetData json (NewFetcher m) key name sub ttl (data, nil) w =
      ((Some (SimpleSuccessResponse (clock w) name sub data false), nil), w1, tr1) /\
    sourceCalls tr1 = 1%nat /\
    value_of (Manager_Get m key) (tick dt w1) = (Some bytes, nil) /\
    GetData json (NewFetcher m) key name sub ttl fetch2 (tick dt w1) =
      ((Some (SimpleSuccessResponse (clock w + dt) name sub data' true), nil), w2, tr2) /\
    sourceCalls tr2 = 0%nat.
Proof.
  intros Hmiss Hne Hmar Hun Hdt Hret.
  assert (Hr : reachesSource json m key w) by (left; assumption).
  pose proof (GetData_source_once json m key name sub ttl (data, nil) w Hr) as Honce.
  destruct (Manager_Get_miss m key w Hmiss) as (Hw & _ & _ & Hm1 & Hm2).
  unfold value_of, world_of, trace_of in Hmiss, Hw, Honce.
  destruct (Manager_Get m key w) as [[[d e] w0] t0] eqn:Hg. simpl in Hmiss, Hw. subst w0.
  rewrite (GetData_source json (NewFetcher m) key name sub ttl (data, nil) d e w w t0 Hg
             (or_introl Hmiss)) in Honce |- *.
  unfold value_of, world_of, trace_of in Honce |- *.
  rewrite (fromSource_store json (NewFetcher m) key name sub ttl data bytes w Hne Hmar)
    in Honce |- *.
  simpl in Honce |- *.
  destruct (Manager_Get_after_Set m key bytes ttl w dt Hm1 Hm2 Hdt Hret)
    as (w2 & tr2 & Hg2 & Hq2 & Hc2).
  exists (world_of (Manager_Set m key bytes ttl) w).
  eexists. exists w2, tr2.
  split; [reflexivity|]. split; [exact Honce|].
  split; [rewrite Hg2; reflexivity|].
  split; [|assumption].
  rewrite (GetData_hit json (NewFetcher m) key name sub ttl fetch2 (Some bytes) data'
             _ w2 tr2 Hg2 Hun).
  rewrite Hc2. reflexivity.
Qed.

(** The scenario of the specification in the default configuration: the
    second call, four minutes after the first, is served from the cache. *)
Lemma cache_aside_round_trip_witness :
  exists w1 tr1 w2 tr2,
    GetData demoCodec (NewFetcher demoManager) "demo_hot" "demo" "hot" (5 * Minute)
      ([demoRecord], nil) demoWorld =
      ((Some (SimpleSuccessResponse 0 "demo" "hot" [demoRecord] false), nil), w1, tr1) /\
    GetData demoCodec (NewFetcher demoManager) "demo_hot" "demo" "hot" (5 * Minute)
      ([], errorString "unused" []) (tick (4 * Minute) w1) =
      ((Some (SimpleSuccessResponse (4 * Minute) "demo" "hot" [demoRecord] true), nil),
       w2, tr2) /\
    sourceCalls tr2 = 0%nat.
Proof.
  destruct (cache_aside_round_trip demoCodec demoManager "demo_hot" "demo" "hot"
              (5 * Minute) [demoRecord] demoBytes [demoRecord]
              ([], errorString "unused" []) demoWorld (4 * Minute))
    as (w1 & tr1 & w2 & tr2 & H1 & _ & _ & H2 & Hq).
  - vm_compute. discriminate.
  - discriminate.
  - reflexivity.
  - vm_compute. reflexivity.
  - vm_compute. discriminate.
  - left. split; [reflexivity|]. split; [reflexivity|]. vm_compute. reflexivity.
  - exists w1, tr1, w2, tr2. split; [exact H1|]. split; [exact H2 | exact Hq].
Defined.

(** The default configuration (local tier only, five minutes), a key the
    cache does not hold, a [ttl] of one hour: the first call returns the
    record with [FromCache = false]; the second call, thirty minutes
    later and so within the [ttl], calls its data source and returns
    [FromCache = false] again. *)
Lemma round_trip_fails_within_ttl :
  value_of (Manager_Get demoManager "demo_hot") demoWorld =
    (None, missError "demo_hot") /\
  value_of (GetData demoCodec (NewFetcher demoManager) "demo_hot" "demo" "hot"
              (60 * Minute) ([demoRecord], nil)) demoWorld =
    (Some (SimpleSuccessResponse 0 "demo" "hot" [demoRecord] false), nil) /\
  30 * Minute < 60 * Minute /\
  value_of (GetData demoCodec (NewFetcher demoManager) "demo_hot" "demo" "hot"
              (60 * Minute) ([demoRecord], nil))
    (tick (30 * Minute)
       (world_of (GetData demoCodec (NewFetcher demoManager) "demo_hot" "demo" "hot"
                    (60 * Minute) ([demoRecord], nil)) demoWorld)) =
    (Some (SimpleSuccessResponse (30 * Minute) "demo" "hot" [demoRecord] false), nil) /\
  sourceCalls
    (trace_of (GetData demoCodec (NewFetcher demoManager) "demo_hot" "demo" "hot"
                 (60 * Minute) ([demoRecord], nil))
       (tick (30 * Minute)
          (world_of (GetData demoCodec (NewFetcher demoManager) "demo_hot" "demo" "hot"
                       (60 * Minute) ([demoRecord], nil)) demoWorld))) = 1%nat.
Proof.
  repeat split; vm_compute; reflexivity.
Qed.

End FetcherClaims.

Module WarmupClaims.
Import Config Warmup.

(** C9. The fetch of a warm-up task is not governed by the task's
    deadline. Whatever timeout the task's context is built with, the task
    logs the same thing after the same time, because the request it sends
    carries the background context. Against a server that never answers,
    the fetch of the task lasts 63 seconds, although the same request
    under the task's 15-second context would have ended after 15. *)
Theorem warmup_fetch_not_governed_by_task_deadline :
  (forall timeout httpClient now p,
     warmUpTaskWith timeout httpClient now p = warmUpTask httpClient now p) /\
  (forall c now p,
     snd (warmUpTask (Some c) now p) =
     elapsed (execute (client c) now
                {| URL := ("http://127.0.0.1:6688" ++ p)%string;
                   Header := {[ "User-Agent" := "DailyHotApi/CacheWarmer" ]} ∪ ∅;
                   ctx := Background |})) /\
  snd (warmUpTask (Some {| client := hangingTransport |}) 0 "/weibo") = 63 * Second /\
  15 * Second < 63 * Second /\
  elapsed (execute hangingTransport 0
             {| URL := "http://127.0.0.1:6688/weibo";
                Header := {[ "User-Agent" := "DailyHotApi/CacheWarmer" ]};
                ctx := WithTimeout Background (15 * Second) 0 |}) = 15 * Second.
Proof.
  split; [reflexivity|]. split.
  - intros c now p. unfold warmUpTask, warmUpTaskWith, Get, reqGet. simpl.
    destruct (execute (client c) now _) as [st body e took]. simpl.
    destruct e; simpl; try reflexivity.
    destruct (st =? 200); reflexivity.
  - repeat split; vm_compute; reflexivity.
Qed.

End WarmupClaims.

(** * Further properties of the modelled code *)

Module CacheExtras.
Import Config CacheManager CacheFacts CacheOps.

Lemma Manager_Delete_world m key w :
  world_of (Manager_Delete m key) w =
  {| l1Cache := if l1Enabled m
                then snd (BigCache.Delete (l1Cache w) (clock w) key)
                else l1Cache w;
     l2Cache := if l2Enabled m
                then snd (RedisStore.Del (l2Cache w) (clock w) key)
                else l2Cache w;
     clock := clock w |} /\
  value_of (Manager_Delete m key) w = nil.
Proof.
  unfold_M.
  destruct (l1Enabled m); destruct (l2Enabled m); simpl;
    try (destruct (BigCache.Delete (l1Cache w) (clock w) key); simpl);
    try (destruct (RedisStore.Del _ (clock w) key); simpl);
    rewrite ?World_eta; auto.
Qed.

(** What a read returns depends on the world only through what the two
    stores answer for the key. *)
Lemma Manager_Get_value_ext m key w1 w2 :
  BigCache.Get (l1Cache w1) (clock w1) key = BigCache.Get (l1Cache w2) (clock w2) key ->
  RedisStore.Get (l2Cache w1) (clock w1) key = RedisStore.Get (l2Cache w2) (clock w2) key ->
  value_of (Manager_Get m key) w1 = value_of (Manager_Get m key) w2.
Proof.
  intros H1 H2. unfold value_of.
  destruct (Manager_Get_cases m key w1)
    as [(v & E1 & G1 & ->) | [(v & tr & M1 & E2 & G2 & -> & _) | (tr & M1 & M2 & -> & _)]];
  destruct (Manager_Get_cases m key w2)
    as [(v' & E1' & G1' & ->) | [(v' & tr' & M1' & E2' & G2' & -> & _)
                                | (tr' & M1' & M2' & -> & _)]];
  simpl; unfold l1Misses, l2Misses in *; rewrite ?H1, ?H2 in *;
  repeat match goal with
         | H : _ \/ _ |- _ => destruct H
         end;
  repeat match goal with
         | H : snd ?x <> nil, E : ?x = _ |- _ => rewrite E in H; simpl in H
         end;
  congruence.
Qed.

(** A hit of the local tier ends the read there. *)
Lemma Get_when_l1_hits m key v w :
  l1Enabled m = true ->
  BigCache.Get (l1Cache w) (clock w) key = (Some v, nil) ->
  Manager_Get m key w = ((Some v, nil), w, [L1Get key]).
Proof.
  intros H1 Hg.
  destruct (Manager_Get_cases m key w)
    as [(v' & _ & G1 & ->) | [(v' & tr & M1 & _) | (tr & M1 & _)]].
  - congruence.
  - destruct M1 as [M1|M1]; [congruence|]. rewrite Hg in M1. simpl in M1. congruence.
  - destruct M1 as [M1|M1]; [congruence|]. rewrite Hg in M1. simpl in M1. congruence.
Qed.

Lemma BigCache_Get_absent c t key :
  BigCache.entries c !! key = None ->
  BigCache.Get c t key = (None, BigCache.ErrEntryNotFound).
Proof. unfold BigCache.Get. intros ->. reflexivity. Qed.

Lemma BigCache_Delete_absent c t key :
  BigCache.entries (snd (BigCache.Delete c t key)) !! key = None.
Proof.
  unfold BigCache.Delete.
  destruct (BigCache.entries c !! key) eqn:He; simpl; [apply lookup_delete_eq | assumption].
Qed.

(** After a deletion that reached the shared store, every tier misses. *)
Lemma Delete_then_misses m key w dt :
  (l2Enabled m = true -> RedisStore.reachable (l2Cache w) = true) ->
  l1Misses m key (tick dt (world_of (Manager_Delete m key) w)) /\
  l2Misses m key (tick dt (world_of (Manager_Delete m key) w)).
Proof.
  intros Hup. destruct (Manager_Delete_world m key w) as [-> _].
  unfold l1Misses, l2Misses. simpl. split.
  - destruct (l1Enabled m) eqn:E1; [right | left; reflexivity].
    rewrite BigCache_Get_absent by apply BigCache_Delete_absent.
    simpl. discriminate.
  - destruct (l2Enabled m) eqn:E2; [right | left; reflexivity].
    unfold RedisStore.Del, RedisStore.Get. rewrite (Hup eq_refl). simpl.
    rewrite lookup_delete_eq. simpl. discriminate.
Qed.

(** X1. Deleting a key. [Manager_Delete] returns nil. When the shared
    tier, if enabled, is reachable, the key is gone from every enabled
    tier and a read misses at any later time, leaving the world as it
    is. *)
Theorem delete_then_read_misses m key w :
  (l2Enabled m = true -> RedisStore.reachable (l2Cache w) = true) ->
  value_of (Manager_Delete m key) w = nil /\
  (l1Enabled m = true ->
   BigCache.entries (l1Cache (world_of (Manager_Delete m key) w)) !! key = None) /\
  (l2Enabled m = true ->
   RedisStore.entries (l2Cache (world_of (Manager_Delete m key) w)) !! key = None) /\
  forall dt,
    value_of (Manager_Get m key) (tick dt (world_of (Manager_Delete m key) w)) =
      (None, missError key) /\
    world_of (Manager_Get m key) (tick dt (world_of (Manager_Delete m key) w)) =
      tick dt (world_of (Manager_Delete m key) w).
Proof.
  intros Hup.
  destruct (Manager_Delete_world m key w) as [Hw Hv]. rewrite Hw.
  assert (H1 : l1Enabled m = true ->
    BigCache.entries (if l1Enabled m
                      then snd (BigCache.Delete (l1Cache w) (clock w) key)
                      else l1Cache w) !! key = None).
  { intros ->. apply BigCache_Delete_absent. }
  assert (H2 : l2Enabled m = true ->
    RedisStore.entries (if l2Enabled m
                        then snd (RedisStore.Del (l2Cache w) (clock w) key)
                        else l2Cache w) !! key = None /\
    RedisStore.reachable (if l2Enabled m
                          then snd (RedisStore.Del (l2Cache w) (clock w) key)
                          else l2Cache w) = true).
  { intros E2. rewrite E2. unfold RedisStore.Del. rewrite (Hup E2). simpl.
    split; [apply lookup_delete_eq | reflexivity]. }
  split; [assumption|]. simpl. split; [assumption|]. split; [apply H2|].
  intros dt. rewrite <- Hw.
  destruct (Delete_then_misses m key w dt Hup) as [Hm1 Hm2].
  destruct (Manager_Get_misses m key _ Hm1 Hm2) as (tr & Heq & _).
  set (W := tick dt (world_of (Manager_Delete m key) w)) in *.
  unfold value_of, world_of. rewrite Heq. auto.
Qed.

Lemma delete_then_read_misses_witness :
  value_of (Manager_Get bothTiers "demo_hot")
    (tick (1 * Minute)
       (world_of (Manager_Delete bothTiers "demo_hot")
          (sharedOnly "demo_hot" ["v"%byte]))) = (None, missError "demo_hot").
Proof.
  apply (delete_then_read_misses bothTiers "demo_hot" (sharedOnly "demo_hot" ["v"%byte])).
  reflexivity.
Defined.

(** X2. A failed deletion is not reported. While the server of the shared
    tier is unreachable, [Manager_Delete] still returns nil and the shared
    entry survives: once the server is reachable again, a read returns the
    value that was to be deleted. *)
Theorem failed_delete_keeps_shared_entry m key w e :
  l2Enabled m = true ->
  RedisStore.reachable (l2Cache w) = false ->
  RedisStore.entries (l2Cache w) !! key = Some e ->
  RedisStore.alive (clock w) e = true ->
  value_of (Manager_Delete m key) w = nil /\
  value_of (Manager_Get m key) (reconnect (world_of (Manager_Delete m key) w)) =
    (Some (RedisStore.value e), nil).
Proof.
  intros E2 Hdown He Halive.
  destruct (Manager_Delete_world m key w) as [Hw Hv]. rewrite Hw.
  split; [assumption|].
  set (W := reconnect _).
  assert (HgL2 : RedisStore.Get (l2Cache W) (clock W) key = (Some (RedisStore.value e), nil)).
  { subst W. simpl. rewrite E2. unfold RedisStore.Del. rewrite Hdown. simpl.
    unfold RedisStore.Get. simpl. rewrite He, Halive. reflexivity. }
  assert (HgL1 : l1Enabled m = true ->
    BigCache.Get (l1Cache W) (clock W) key = (None, BigCache.ErrEntryNotFound)).
  { intros E1. subst W. simpl. rewrite E1.
    apply BigCache_Get_absent, BigCache_Delete_absent. }
  unfold value_of.
  destruct (Manager_Get_cases m key W)
    as [(v & E1 & G1 & ->) | [(v & tr & _ & _ & G2 & -> & _) | (tr & _ & M2 & _)]].
  - rewrite (HgL1 E1) in G1. discriminate.
  - simpl. congruence.
  - destruct M2 as [M2|M2]; [congruence|]. rewrite HgL2 in M2. simpl in M2. congruence.
Qed.

Lemma failed_delete_keeps_shared_entry_witness :
  value_of (Manager_Get bothTiers "demo_hot")
    (reconnect (world_of (Manager_Delete bothTiers "demo_hot")
                  (unreachableHolding "demo_hot" ["v"%byte]))) = (Some ["v"%byte], nil).
Proof.
  apply (failed_delete_keeps_shared_entry bothTiers "demo_hot"
           (unreachableHolding "demo_hot" ["v"%byte])
           {| RedisStore.value := ["v"%byte]; RedisStore.written := 0;
              RedisStore.expiration := 5 * Minute |});
    reflexivity.
Defined.

(** X3. Write, then read. Whatever the tiers held before, a read that
    follows [Manager_Set] returns the value just written: from the local
    tier alone, in one access, when that tier is enabled, accepts the
    value and has a positive life window; from the shared tier when the
    local one is disabled and the shared one is enabled and reachable. *)
Theorem write_then_read m key v ttl w :
  (l1Enabled m = true ->
   BigCache.rejects (l1Cache w) key v = false ->
   0 < BigCache.LifeWindow (BigCache.config (l1Cache w)) ->
   Manager_Get m key (world_of (Manager_Set m key v ttl) w) =
     ((Some v, nil), world_of (Manager_Set m key v ttl) w, [L1Get key]))
  /\
  (l1Enabled m = false -> l2Enabled m = true ->
   RedisStore.reachable (l2Cache w) = true ->
   Manager_Get m key (world_of (Manager_Set m key v ttl) w) =
     ((Some v, nil), world_of (Manager_Set m key v ttl) w, [L2Get key])).
Proof.
  rewrite Manager_Set_world. split.
  - intros E1 Hacc Hlw. apply Get_when_l1_hits; [assumption|]. simpl. rewrite E1.
    replace (clock w) with (clock w + 0) at 2 by lia.
    rewrite BigCache_Get_after_Set by assumption.
    destruct (Z.ltb_spec 0 (BigCache.LifeWindow (BigCache.config (l1Cache w))));
      [reflexivity | lia].
  - intros E1 E2 Hup.
    assert (Hg : RedisStore.Get
              (snd (RedisStore.Set_ (l2Cache w) (clock w) key v (effectiveExpiration m ttl)))
              (clock w) key = (Some v, nil)).
    { replace (clock w) with (clock w + 0) at 2 by lia.
      rewrite RedisStore_Get_after_Set by assumption.
      destruct (Z.leb_spec (effectiveExpiration m ttl) 0); simpl; [reflexivity|].
      destruct (Z.ltb_spec 0 (effectiveExpiration m ttl)); [reflexivity | lia]. }
    unfold_M. rewrite E1, E2. simpl. rewrite Hg. reflexivity.
Qed.

Lemma write_then_read_witness :
  Manager_Get demoManager "demo_hot"
    (world_of (Manager_Set demoManager "demo_hot" ["v"%byte] 0) demoWorld) =
  ((Some ["v"%byte], nil),
   world_of (Manager_Set demoManager "demo_hot" ["v"%byte] 0) demoWorld,
   [L1Get "demo_hot"]).
Proof.
  apply (write_then_read demoManager "demo_hot" ["v"%byte] 0 demoWorld); reflexivity.
Defined.

Lemma BigCache_Delete_frame c t key key' t' :
  key <> key' ->
  BigCache.Get (snd (BigCache.Delete c t key)) t' key' = BigCache.Get c t' key'.
Proof.
  intros Hne. unfold BigCache.Delete, BigCache.Get, BigCache.alive.
  destruct (BigCache.entries c !! key); simpl; [|reflexivity].
  rewrite lookup_delete_ne by assumption. reflexivity.
Qed.

Lemma RedisStore_Del_frame c t key key' t' :
  key <> key' ->
  RedisStore.Get (snd (RedisStore.Del c t key)) t' key' = RedisStore.Get c t' key'.
Proof.
  intros Hne. unfold RedisStore.Del, RedisStore.Get.
  destruct (RedisStore.reachable c) eqn:Hup; simpl; rewrite ?Hup; [|reflexivity].
  rewrite lookup_delete_ne by assumption. reflexivity.
Qed.

(** X4. A deletion concerns its key alone. [Manager_Delete] of one key
    leaves what each store holds for any other key as it was, so that a
    read of another key, at once or at any later time, returns what it
    would have returned without the deletion. (Nothing of the kind holds
    of [Manager_Set]: the local store may evict other entries to make room
    for a write, which the model of the store leaves out.) *)
Theorem delete_leaves_other_keys m key key' w dt :
  key <> key' ->
  BigCache.entries (l1Cache (world_of (Manager_Delete m key) w)) !! key' =
    BigCache.entries (l1Cache w) !! key' /\
  RedisStore.entries (l2Cache (world_of (Manager_Delete m key) w)) !! key' =
    RedisStore.entries (l2Cache w) !! key' /\
  value_of (Manager_Get m key') (tick dt (world_of (Manager_Delete m key) w)) =
    value_of (Manager_Get m key') (tick dt w).
Proof.
  intros Hne. destruct (Manager_Delete_world m key w) as [-> _]. simpl.
  split; [|split].
  - destruct (l1Enabled m); [|reflexivity]. unfold BigCache.Delete.
    destruct (BigCache.entries (l1Cache w) !! key); simpl; [|reflexivity].
    apply lookup_delete_ne. assumption.
  - destruct (l2Enabled m); [|reflexivity]. unfold RedisStore.Del.
    destruct (RedisStore.reachable (l2Cache w)); simpl; [|reflexivity].
    apply lookup_delete_ne. assumption.
  - apply Manager_Get_value_ext; simpl.
    + destruct (l1Enabled m); [apply BigCache_Delete_frame; assumption | reflexivity].
    + destruct (l2Enabled m); [apply RedisStore_Del_frame; assumption | reflexivity].
Qed.

Lemma delete_leaves_other_keys_witness :
  value_of (Manager_Get bothTiers "demo_hot")
    (tick (1 * Minute)
       (world_of (Manager_Delete bothTiers "other") (sharedOnly "demo_hot" ["v"%byte]))) =
  value_of (Manager_Get bothTiers "demo_hot")
    (tick (1 * Minute) (sharedOnly "demo_hot" ["v"%byte])).
Proof.
  apply (delete_leaves_other_keys bothTiers "other" "demo_hot"
           (sharedOnly "demo_hot" ["v"%byte]) (1 * Minute)).
  discriminate.
Defined.

(** X5. A promotion spares the shared tier the next read. After a read
    that missed the local tier and hit the shared one, with the local
    tier accepting the value and a positive life window, the read that
    follows is answered by the local tier in one access. *)
Theorem promotion_serves_next_read_locally m key v w :
  l1Enabled m = true ->
  snd (BigCache.Get (l1Cache w) (clock w) key) <> nil ->
  l2Enabled m = true ->
  RedisStore.Get (l2Cache w) (clock w) key = (Some v, nil) ->
  BigCache.rejects (l1Cache w) key v = false ->
  0 < BigCache.LifeWindow (BigCache.config (l1Cache w)) ->
  Manager_Get m key (world_of (Manager_Get m key) w) =
    ((Some v, nil), world_of (Manager_Get m key) w, [L1Get key]).
Proof.
  intros E1 Hmiss E2 Hg2 Hacc Hlw.
  unfold world_of at 1 2.
  destruct (Manager_Get_cases m key w)
    as [(v' & _ & G1 & _) | [(v' & tr & _ & _ & G2 & -> & _) | (tr & _ & M2 & _)]].
  - rewrite G1 in Hmiss. simpl in Hmiss. congruence.
  - simpl. assert (v' = v) by congruence. subst v'.
    apply Get_when_l1_hits; [assumption|].
    unfold promoted. rewrite E1. unfold_M.
    destruct (BigCache.Set_ (l1Cache w) (clock w) key v) as [err c] eqn:Hs. simpl.
    replace c with (snd (BigCache.Set_ (l1Cache w) (clock w) key v)) by (rewrite Hs; reflexivity).
    replace (clock w) with (clock w + 0) at 2 by lia.
    rewrite BigCache_Get_after_Set by assumption.
    destruct (Z.ltb_spec 0 (BigCache.LifeWindow (BigCache.config (l1Cache w))));
      [reflexivity | lia].
  - destruct M2 as [M2|M2]; [congruence|]. rewrite Hg2 in M2. simpl in M2. congruence.
Qed.

Lemma promotion_serves_next_read_locally_witness :
  Manager_Get bothTiers "demo_hot"
    (world_of (Manager_Get bothTiers "demo_hot") (sharedOnly "demo_hot" ["v"%byte])) =
  ((Some ["v"%byte], nil),
   world_of (Manager_Get bothTiers "demo_hot") (sharedOnly "demo_hot" ["v"%byte]),
   [L1Get "demo_hot"]).
Proof.
  apply (promotion_serves_next_read_locally bothTiers "demo_hot" ["v"%byte]
           (sharedOnly "demo_hot" ["v"%byte])); try reflexivity.
  vm_compute. discriminate.
Defined.

Lemma l2Accesses_app tr1 tr2 :
  l2Accesses (tr1 ++ tr2) = (l2Accesses tr1 + l2Accesses tr2)%nat.
Proof. induction tr1 as [|[] tr1 IH]; simpl; auto. Qed.

(** A manager whose shared tier is off never calls the shared store. *)
Lemma no_l2_access_when_disabled m key v ttl w :
  l2Enabled m = false ->
  l2Accesses (trace_of (Manager_Get m key) w) = 0%nat /\
  l2Accesses (trace_of (Manager_Set m key v ttl) w) = 0%nat /\
  l2Accesses (trace_of (Manager_Delete m key) w) = 0%nat.
Proof.
  intros E2. unfold_M. rewrite E2.
  destruct (l1Enabled m); simpl;
    try (destruct (BigCache.Get (l1Cache w) (clock w) key) as [d1 e1];
         destruct e1; simpl);
    try (destruct (BigCache.Set_ (l1Cache w) (clock w) key v); simpl);
    try (destruct (BigCache.Delete (l1Cache w) (clock w) key); simpl);
    auto.
Qed.

(** X6. Start-up. [NewManager] fails exactly when the local tier is
    enabled and [bigcache.New] fails, and then wraps that error. A failed
    ping of the shared store is not an error: the manager is built with
    the shared tier off, and no read, write or deletion it performs calls
    the shared store. *)
Theorem NewManager_degrades_without_shared_store cfg0 l1Err pingErr :
  (Enabled (Cache cfg0) = true -> l1Err <> nil ->
   NewManager cfg0 l1Err pingErr = (None, wrapError "初始化 L1 缓存失败: %w" [] l1Err))
  /\
  (Enabled (Cache cfg0) = false \/ l1Err = nil ->
   exists m,
     NewManager cfg0 l1Err pingErr = (Some m, nil) /\
     cfg m = cfg0 /\ l1Enabled m = Enabled (Cache cfg0) /\
     (l2Enabled m = true <-> RedisEnabled (Redis cfg0) = true /\ pingErr = nil) /\
     (pingErr <> nil ->
      forall key v ttl w,
        l2Accesses (trace_of (Manager_Get m key) w) = 0%nat /\
        l2Accesses (trace_of (Manager_Set m key v ttl) w) = 0%nat /\
        l2Accesses (trace_of (Manager_Delete m key) w) = 0%nat)).
Proof.
  unfold NewManager. split.
  - intros -> Hne. destruct l1Err; [congruence | reflexivity | reflexivity].
  - intros Hok.
    assert (Hb : Enabled (Cache cfg0) && negb (is_nil l1Err) = false).
    { destruct Hok as [-> | ->]; [reflexivity|]. simpl. apply andb_false_r. }
    rewrite Hb. eexists. split; [reflexivity|]. simpl.
    split; [reflexivity|]. split; [reflexivity|]. split.
    + rewrite andb_true_iff, is_nil_true. reflexivity.
    + intros Hping key v ttl w. apply no_l2_access_when_disabled. simpl.
      destruct pingErr; [congruence | |]; apply andb_false_r.
Qed.

Lemma NewManager_degrades_without_shared_store_witness :
  exists m,
    NewManager {| Cache := Cache defaults;
                  Redis := {| RedisEnabled := true; Host := "localhost"; Port := 6379;
                              Password := ""; DB := 0; PoolSize := 10;
                              Timeout := 5 * Second |} |}
               nil RedisStore.ErrDial = (Some m, nil) /\
    l2Accesses (trace_of (Manager_Get m "demo_hot") (sharedOnly "demo_hot" ["v"%byte])) = 0%nat.
Proof.
  destruct (proj2 (NewManager_degrades_without_shared_store
                     {| Cache := Cache defaults;
                        Redis := {| RedisEnabled := true; Host := "localhost"; Port := 6379;
                                    Password := ""; DB := 0; PoolSize := 10;
                                    Timeout := 5 * Second |} |}
                     nil RedisStore.ErrDial))
    as (m & Heq & _ & _ & _ & Hno).
  - right. reflexivity.
  - exists m. split; [exact Heq|].
    apply (Hno ltac:(discriminate) "demo_hot" [] 0 (sharedOnly "demo_hot" ["v"%byte])).
Defined.

(** An unreachable shared store is, for results and stores, a disabled
    one. *)
Lemma unreachable_as_disabled m key v ttl w :
  RedisStore.reachable (l2Cache w) = false ->
  (value_of (Manager_Get m key) w = value_of (Manager_Get (withoutL2 m) key) w /\
   world_of (Manager_Get m key) w = world_of (Manager_Get (withoutL2 m) key) w) /\
  world_of (Manager_Set m key v ttl) w = world_of (Manager_Set (withoutL2 m) key v ttl) w /\
  world_of (Manager_Delete m key) w = world_of (Manager_Delete (withoutL2 m) key) w.
Proof.
  intros Hdown.
  assert (Hg2 : RedisStore.Get (l2Cache w) (clock w) key = (None, RedisStore.ErrDial)).
  { unfold RedisStore.Get. rewrite Hdown. reflexivity. }
  split; [|split].
  - unfold value_of, world_of.
    destruct (Manager_Get_cases m key w)
      as [(v' & E1 & G1 & ->) | [(v' & tr & _ & _ & G2 & _) | (tr & M1 & _ & -> & _)]].
    + rewrite (Get_when_l1_hits (withoutL2 m) key v' w E1 G1). auto.
    + congruence.
    + destruct (Manager_Get_misses (withoutL2 m) key w M1 (or_introl eq_refl))
        as (tr' & -> & _). auto.
  - rewrite !Manager_Set_world. simpl. f_equal.
    destruct (l2Enabled m); [|reflexivity].
    apply RedisStore_Set_unreachable. assumption.
  - destruct (Manager_Delete_world m key w) as [-> _].
    destruct (Manager_Delete_world (withoutL2 m) key w) as [-> _]. simpl. f_equal.
    destruct (l2Enabled m); [|reflexivity].
    unfold RedisStore.Del. rewrite Hdown. reflexivity.
Qed.

End CacheExtras.

Module FetcherExtras.
Import Models Config CacheManager CacheFacts CacheOps CacheExtras Fetcher FetcherFacts.

Section Source.

Variable json : Codec.
Variable f : Fetcher.
Variable key name sub : string.
Variable ttl : Z.

(** What the path through the data source does when the source succeeds:
    the response, and a write exactly when the list is not empty and
    serializes. *)
Lemma fromSource_ok l w :
  value_of (fromSource json f key name sub ttl (l, nil)) w =
    (Some (SimpleSuccessResponse (clock w) name sub l false), nil) /\
  world_of (fromSource json f key name sub ttl (l, nil)) w =
    (if (0 <? Z.of_nat (length l)) && is_nil (snd (Marshal json l))
     then world_of (Manager_Set (cache f) key (payload (fst (Marshal json l))) ttl) w
     else w) /\
  trace_of (fromSource json f key name sub ttl (l, nil)) w =
    DataSource ::
    (if (0 <? Z.of_nat (length l)) && is_nil (snd (Marshal json l))
     then trace_of (Manager_Set (cache f) key (payload (fst (Marshal json l))) ttl) w
     else []).
Proof.
  unfold value_of, world_of, trace_of, fromSource, call, mbind, M_bind, mret, M_ret, now.
  simpl.
  destruct (0 <? Z.of_nat (length l)); simpl; [|auto].
  destruct (Marshal json l) as [b e]. simpl.
  destruct (is_nil e); simpl; [|auto].
  destruct (Manager_Set_quiet (cache f) key (payload b) ttl w) as (_ & Hc & _).
  unfold world_of in Hc.
  destruct (Manager_Set (cache f) key (payload b) ttl w) as [[r w1] t1]. simpl in *.
  rewrite Hc, !app_nil_r. auto.
Qed.

End Source.

Section Results.

Variable json : Codec.
Variable m : Manager.
Variable key name sub : string.
Variable ttl : Z.

#[local] Abbreviation getData fetch := (GetData json (NewFetcher m) key name sub ttl fetch).

(** X7. The shape of every result. [GetData] returns an error exactly
    when the call reaches its data source and the source fails, and the
    error is the source's, wrapped with the platform name: no failure of
    a cache tier, of decoding or of serializing is ever returned. Every
    response it returns has code 200, the platform name as name and
    title, the instant of the call as update time and the number of its
    records as total; it is marked as coming from the cache exactly when
    the data source was not reached, and otherwise carries the records
    the source returned. *)
Theorem GetData_result_shape fetch w :
  (fst (value_of (getData fetch) w) = None <->
   reachesSource json m key w /\ snd fetch <> nil) /\
  (fst (value_of (getData fetch) w) = None ->
   snd (value_of (getData fetch) w) =
     Errorf fetchFailedFormat [ArgString name] (snd fetch)) /\
  (forall r, fst (value_of (getData fetch) w) = Some r ->
     snd (value_of (getData fetch) w) = nil /\
     Code r = 200 /\ Name r = name /\ RTitle r = name /\ Type_ r = sub /\
     UpdateTime r = clock w /\
     Total r = Z.of_nat (length (Data r)) /\
     (FromCache r = false <-> reachesSource json m key w) /\
     (FromCache r = false -> Data r = fst fetch)).
Proof.
  destruct (Manager_Get_quiet m key w) as (_ & Hc & _).
  unfold reachesSource, value_of, world_of in *.
  destruct (Manager_Get m key w) as [[[d e] w1] t1] eqn:Hg. simpl in *.
  destruct (Unmarshal json d) as [l ue] eqn:Hu. simpl.
  assert (Hhit : e = nil -> ue = nil ->
    GetData json (NewFetcher m) key name sub ttl fetch w =
    ((Some (SimpleSuccessResponse (clock w1) name sub l true), nil), w1, t1)).
  { intros -> ->. apply (GetData_hit json (NewFetcher m) key name sub ttl fetch d l w w1 t1 Hg Hu). }
  assert (Hsrc : e <> nil \/ ue <> nil ->
    GetData json (NewFetcher m) key name sub ttl fetch w =
    (value_of (fromSource json (NewFetcher m) key name sub ttl fetch) w1,
     world_of (fromSource json (NewFetcher m) key name sub ttl fetch) w1,
     t1 ++ trace_of (fromSource json (NewFetcher m) key name sub ttl fetch) w1)).
  { intros Hor. apply (GetData_source json (NewFetcher m) key name sub ttl fetch d e w w1 t1 Hg).
    rewrite Hu. exact Hor. }
  destruct (is_nil e) eqn:Hne; [destruct (is_nil ue) eqn:Hnu|].
  - apply is_nil_true in Hne, Hnu. rewrite (Hhit Hne Hnu). simpl. subst e ue.
    split; [split; [discriminate | intros [[?|?] _]; congruence]|].
    split; [discriminate|].
    intros r [= <-]. simpl. rewrite Hc.
    repeat split; try discriminate; try congruence.
    intros [?|?]; congruence.
  - assert (Hor : e <> nil \/ ue <> nil) by (right; intros ->; discriminate).
    rewrite (Hsrc Hor). simpl. destruct fetch as [fl fe].
    destruct (is_nil fe) eqn:Hfe.
    + apply is_nil_true in Hfe. subst fe.
      destruct (fromSource_ok json (NewFetcher m) key name sub ttl fl w1) as (-> & _).
      simpl. split; [split; [discriminate | intros [_ ?]; congruence]|].
      split; [discriminate|].
      intros r [= <-]. simpl. rewrite Hc. repeat split; auto.
    + assert (Hfe' : fe <> nil) by (intros ->; discriminate).
      unfold value_of. rewrite fromSource_error by assumption. simpl.
      split; [split; auto|]. split; [reflexivity | discriminate].
  - assert (Hor : e <> nil \/ ue <> nil) by (left; intros ->; discriminate).
    rewrite (Hsrc Hor). simpl. destruct fetch as [fl fe].
    destruct (is_nil fe) eqn:Hfe.
    + apply is_nil_true in Hfe. subst fe.
      destruct (fromSource_ok json (NewFetcher m) key name sub ttl fl w1) as (-> & _).
      simpl. split; [split; [discriminate | intros [_ ?]; congruence]|].
      split; [discriminate|].
      intros r [= <-]. simpl. rewrite Hc. repeat split; auto.
    + assert (Hfe' : fe <> nil) by (intros ->; discriminate).
      unfold value_of. rewrite fromSource_error by assumption. simpl.
      split; [split; auto|]. split; [reflexivity | discriminate].
Qed.

(** X8. A hit does not depend on the data source. When the lookup returns
    bytes that decode, [GetData] returns their decoding marked as cached;
    its world and trace are those of the lookup alone, so the data source
    is not called and nothing is written besides the lookup's own
    promotion, whatever the data source would have returned. *)
Theorem hit_ignores_data_source fetch w :
  snd (value_of (Manager_Get m key) w) = nil ->
  snd (Unmarshal json (fst (value_of (Manager_Get m key) w))) = nil ->
  getData fetch w =
    ((Some (SimpleSuccessResponse (clock w) name sub
              (fst (Unmarshal json (fst (value_of (Manager_Get m key) w)))) true), nil),
     world_of (Manager_Get m key) w,
     trace_of (Manager_Get m key) w) /\
  sourceCalls (trace_of (getData fetch) w) = 0%nat.
Proof.
  intros He Hu.
  destruct (Manager_Get_quiet m key w) as (Hq & Hc & _).
  unfold value_of, world_of, trace_of in *.
  destruct (Manager_Get m key w) as [[[d e] w1] t1] eqn:Hg. simpl in *. subst e.
  destruct (Unmarshal json d) as [l ue] eqn:Hu'. simpl in *. subst ue.
  rewrite (GetData_hit json (NewFetcher m) key name sub ttl fetch d l w w1 t1 Hg Hu').
  simpl. rewrite Hc. auto.
Qed.

(** X9. A list that does not serialize is returned and not cached. When
    the call reaches its data source, the source returns a non-empty list
    and [json.Marshal] fails on it, [GetData] still returns the list as a
    success with [FromCache = false]; the world is the one the lookup
    left and the trace ends with the call of the source. *)
Theorem marshal_failure_is_swallowed l w :
  reachesSource json m key w ->
  l <> [] ->
  snd (Marshal json l) <> nil ->
  getData (l, nil) w =
    ((Some (SimpleSuccessResponse (clock w) name sub l false), nil),
     world_of (Manager_Get m key) w,
     trace_of (Manager_Get m key) w ++ [DataSource]).
Proof.
  intros Hr Hl Hm.
  destruct (Manager_Get_quiet m key w) as (_ & Hc & _).
  unfold reachesSource, value_of, world_of, trace_of in *.
  destruct (Manager_Get m key w) as [[[d e] w1] t1] eqn:Hg. simpl in *.
  rewrite (GetData_source json (NewFetcher m) key name sub ttl (l, nil) d e w w1 t1 Hg Hr).
  destruct (fromSource_ok json (NewFetcher m) key name sub ttl l w1) as (-> & -> & ->).
  assert (Hb : is_nil (snd (Marshal json l)) = false).
  { destruct (snd (Marshal json l)); [congruence | reflexivity | reflexivity]. }
  rewrite Hb, andb_false_r, Hc. reflexivity.
Qed.

(** X10. Invalidation forces a fetch. After [InvalidateCache], when the
    shared tier, if enabled, is reachable, a call of [GetData] at any
    later time calls its data source once. *)
Theorem invalidate_then_fetch fetch w dt :
  (l2Enabled m = true -> RedisStore.reachable (l2Cache w) = true) ->
  value_of (InvalidateCache (NewFetcher m) key) w = nil /\
  sourceCalls
    (trace_of (getData fetch)
       (tick dt (world_of (InvalidateCache (NewFetcher m) key) w))) = 1%nat.
Proof.
  intros Hup. unfold InvalidateCache. simpl cache.
  split; [apply Manager_Delete_world|].
  destruct (Delete_then_misses m key w dt Hup) as [Hm1 Hm2].
  destruct (Manager_Get_misses m key _ Hm1 Hm2) as (tr & Heq & Hq).
  unfold trace_of.
  erewrite GetData_source; [|exact Heq | left; discriminate].
  simpl. rewrite sourceCalls_app, Hq.
  destruct fetch as [l e]. destruct (is_nil e) eqn:Hn.
  - apply is_nil_true in Hn. subst e.
    destruct (fromSource_ok json (NewFetcher m) key name sub ttl l
                (tick dt (world_of (Manager_Delete m key) w))) as (_ & _ & ->).
    simpl. destruct (_ && _); [|reflexivity].
    destruct (Manager_Set_quiet m key (payload (fst (Marshal json l))) ttl
                (tick dt (world_of (Manager_Delete m key) w))) as (-> & _).
    reflexivity.
  - unfold trace_of. rewrite fromSource_error; [reflexivity|]. intros ->. discriminate.
Qed.

(** A read leaves the settings of the local store alone. *)
Lemma Manager_Get_l1_static w :
  BigCache.rejects (l1Cache (world_of (Manager_Get m key) w)) = BigCache.rejects (l1Cache w) /\
  BigCache.config (l1Cache (world_of (Manager_Get m key) w)) = BigCache.config (l1Cache w).
Proof.
  unfold world_of.
  destruct (Manager_Get_cases m key w)
    as [(v & _ & _ & ->) | [(v & tr & _ & _ & _ & -> & _) | (tr & _ & _ & -> & _)]];
    simpl; auto.
  unfold promoted. destruct (l1Enabled m); [|auto].
  unfold_M. unfold BigCache.Set_.
  destruct (BigCache.rejects (l1Cache w) key v); simpl; auto.
Qed.

Lemma Set_then_l1_hit v w :
  l1Enabled m = true ->
  BigCache.rejects (l1Cache w) key v = false ->
  0 < BigCache.LifeWindow (BigCache.config (l1Cache w)) ->
  Manager_Get m key (world_of (Manager_Set m key v ttl) w) =
    ((Some v, nil), world_of (Manager_Set m key v ttl) w, [L1Get key]).
Proof.
  intros E1 Hacc Hlw. apply Get_when_l1_hits; [assumption|].
  rewrite Manager_Set_world. simpl. rewrite E1.
  replace (clock w) with (clock w + 0) at 2 by lia.
  rewrite BigCache_Get_after_Set by assumption.
  destruct (Z.ltb_spec 0 (BigCache.LifeWindow (BigCache.config (l1Cache w))));
    [reflexivity | lia].
Qed.

(** X11. A successful fetch refreshes the cache, also over bytes that do
    not decode. When the call reaches its data source (after a miss or
    after undecodable bytes), the source returns a non-empty list that
    serializes, and the local tier is enabled, accepts the bytes and has a
    positive life window, the call that follows at once is answered from
    the local tier in one access with the decoding of those bytes and
    [FromCache = true]. *)
Theorem successful_fetch_refreshes_cache l b l' fetch2 w :
  reachesSource json m key w ->
  l <> [] ->
  Marshal json l = (Some b, nil) ->
  Unmarshal json (Some b) = (l', nil) ->
  l1Enabled m = true ->
  BigCache.rejects (l1Cache w) key b = false ->
  0 < BigCache.LifeWindow (BigCache.config (l1Cache w)) ->
  getData fetch2 (world_of (getData (l, nil)) w) =
    ((Some (SimpleSuccessResponse (clock w) name sub l' true), nil),
     world_of (getData (l, nil)) w, [L1Get key]).
Proof.
  intros Hr Hl Hm Hu E1 Hacc Hlw.
  destruct (Manager_Get_quiet m key w) as (_ & Hc & _).
  destruct (Manager_Get_l1_static w) as [Hrej Hcfg].
  unfold reachesSource, value_of, world_of in Hr, Hc, Hrej, Hcfg |- *.
  destruct (Manager_Get m key w) as [[[d e] w1] t1] eqn:Hg. simpl in Hr, Hc, Hrej, Hcfg.
  rewrite (GetData_source json (NewFetcher m) key name sub ttl (l, nil) d e w w1 t1 Hg Hr).
  simpl.
  destruct (fromSource_ok json (NewFetcher m) key name sub ttl l w1) as (_ & Hw' & _).
  rewrite Hm in Hw'. simpl in Hw'.
  destruct l as [|h l]; [congruence|]. simpl in Hw'. rewrite Hw'. clear Hw'.
  assert (Hhit : Manager_Get m key (world_of (Manager_Set m key b ttl) w1) =
                 ((Some b, nil), world_of (Manager_Set m key b ttl) w1, [L1Get key])).
  { apply Set_then_l1_hit; [assumption | rewrite Hrej; assumption
                            | rewrite Hcfg; assumption]. }
  rewrite (GetData_hit json (NewFetcher m) key name sub ttl fetch2 (Some b) l' _ _ _ Hhit Hu).
  destruct (Manager_Set_quiet m key b ttl w1) as (_ & -> & _).
  rewrite Hc. reflexivity.
Qed.

(** X12. An unreachable shared store goes unnoticed. While the server of
    the shared tier is unreachable, [GetData] returns the same result and
    leaves the same world as with the shared tier switched off: its
    failures reach neither the caller nor the stores. *)
Theorem unreachable_shared_store_is_transparent fetch w :
  RedisStore.reachable (l2Cache w) = false ->
  value_of (getData fetch) w =
    value_of (GetData json (NewFetcher (withoutL2 m)) key name sub ttl fetch) w /\
  world_of (getData fetch) w =
    world_of (GetData json (NewFetcher (withoutL2 m)) key name sub ttl fetch) w.
Proof.
  intros Hdown.
  destruct (unreachable_as_disabled m key [] ttl w Hdown) as ((Hv & Hw) & _ & _).
  destruct (Manager_Get_quiet m key w) as (_ & _ & Hl2).
  unfold value_of, world_of in Hv, Hw, Hl2 |- *.
  destruct (Manager_Get m key w) as [[[d e] w1] t1] eqn:Hg.
  destruct (Manager_Get (withoutL2 m) key w) as [[[d' e'] w1'] t1'] eqn:Hg'.
  simpl in Hv, Hw, Hl2. injection Hv as <- <-. subst w1'.
  assert (Hdown1 : RedisStore.reachable (l2Cache w1) = false) by (rewrite Hl2; assumption).
  destruct (Unmarshal json d) as [ul ue] eqn:Hu.
  destruct (is_nil e) eqn:Hne; [destruct (is_nil ue) eqn:Hnu|].
  - apply is_nil_true in Hne, Hnu. subst e ue.
    rewrite (GetData_hit json (NewFetcher m) key name sub ttl fetch d ul w w1 t1 Hg Hu).
    rewrite (GetData_hit json (NewFetcher (withoutL2 m)) key name sub ttl fetch d ul w w1 t1'
               Hg' Hu).
    auto.
  - assert (Hor : e <> nil \/ snd (Unmarshal json d) <> nil)
      by (right; rewrite Hu; simpl; intros ->; discriminate).
    rewrite (GetData_source json (NewFetcher m) key name sub ttl fetch d e w w1 t1 Hg Hor).
    rewrite (GetData_source json (NewFetcher (withoutL2 m)) key name sub ttl fetch d e w w1 t1'
               Hg' Hor).
    simpl. destruct fetch as [fl fe]. destruct (is_nil fe) eqn:Hfe.
    + apply is_nil_true in Hfe. subst fe.
      destruct (fromSource_ok json (NewFetcher m) key name sub ttl fl w1) as (-> & -> & _).
      destruct (fromSource_ok json (NewFetcher (withoutL2 m)) key name sub ttl fl w1)
        as (-> & -> & _).
      simpl cache. split; [reflexivity|].
      destruct (_ && _); [|reflexivity].
      apply (unreachable_as_disabled m key _ ttl w1 Hdown1).
    + assert (Hfe' : fe <> nil) by (intros ->; discriminate).
      unfold value_of, world_of. rewrite !fromSource_error by assumption. auto.
  - assert (Hor : e <> nil \/ snd (Unmarshal json d) <> nil)
      by (left; intros ->; discriminate).
    rewrite (GetData_source json (NewFetcher m) key name sub ttl fetch d e w w1 t1 Hg Hor).
    rewrite (GetData_source json (NewFetcher (withoutL2 m)) key name sub ttl fetch d e w w1 t1'
               Hg' Hor).
    simpl. destruct fetch as [fl fe]. destruct (is_nil fe) eqn:Hfe.
    + apply is_nil_true in Hfe. subst fe.
      destruct (fromSource_ok json (NewFetcher m) key name sub ttl fl w1) as (-> & -> & _).
      destruct (fromSource_ok json (NewFetcher (withoutL2 m)) key name sub ttl fl w1)
        as (-> & -> & _).
      simpl cache. split; [reflexivity|].
      destruct (_ && _); [|reflexivity].
      apply (unreachable_as_disabled m key _ ttl w1 Hdown1).
    + assert (Hfe' : fe <> nil) by (intros ->; discriminate).
      unfold value_of, world_of. rewrite !fromSource_error by assumption. auto.
Qed.

End Results.

Lemma GetData_result_shape_witness :
  snd (value_of (GetData demoCodec (NewFetcher demoManager) "demo_hot" "demo" "hot"
                   (5 * Minute) ([], errorString "boom" [])) demoWorld) =
  Errorf fetchFailedFormat [ArgString "demo"] (errorString "boom" []).
Proof.
  apply (GetData_result_shape demoCodec demoManager "demo_hot" "demo" "hot" (5 * Minute)
           ([], errorString "boom" []) demoWorld).
  reflexivity.
Defined.

Lemma hit_ignores_data_source_witness :
  sourceCalls
    (trace_of (GetData demoCodec (NewFetcher demoManager) "demo_hot" "demo" "hot"
                 (5 * Minute) ([], errorString "boom" []))
       (world_of (Manager_Set demoManager "demo_hot" demoBytes 0) demoWorld)) = 0%nat.
Proof.
  apply (hit_ignores_data_source demoCodec demoManager "demo_hot" "demo" "hot" (5 * Minute)
           ([], errorString "boom" [])
           (world_of (Manager_Set demoManager "demo_hot" demoBytes 0) demoWorld));
    vm_compute; reflexivity.
Defined.

Lemma marshal_failure_is_swallowed_witness :
  GetData demoCodec (NewFetcher demoManager) "demo_hot" "demo" "hot" (5 * Minute)
    ([demoRecord; demoRecord], nil) demoWorld =
  ((Some (SimpleSuccessResponse 0 "demo" "hot" [demoRecord; demoRecord] false), nil),
   demoWorld, [L1Get "demo_hot"; DataSource]).
Proof.
  apply (marshal_failure_is_swallowed demoCodec demoManager "demo_hot" "demo" "hot"
           (5 * Minute) [demoRecord; demoRecord] demoWorld).
  - left. vm_compute. discriminate.
  - discriminate.
  - vm_compute. discriminate.
Defined.

Lemma invalidate_then_fetch_witness :
  sourceCalls
    (trace_of (GetData demoCodec (NewFetcher demoManager) "demo_hot" "demo" "hot"
                 (5 * Minute) ([demoRecord], nil))
       (tick (1 * Minute)
          (world_of (InvalidateCache (NewFetcher demoManager) "demo_hot")
             (world_of (Manager_Set demoManager "demo_hot" demoBytes 0) demoWorld)))) = 1%nat.
Proof.
  apply (invalidate_then_fetch demoCodec demoManager "demo_hot" "demo" "hot" (5 * Minute)
           ([demoRecord], nil)
           (world_of (Manager_Set demoManager "demo_hot" demoBytes 0) demoWorld)
           (1 * Minute)).
  discriminate.
Defined.

Lemma successful_fetch_refreshes_cache_witness :
  GetData demoCodec (NewFetcher demoManager) "demo_hot" "demo" "hot" (5 * Minute)
    ([], errorString "boom" [])
    (world_of (GetData demoCodec (NewFetcher demoManager) "demo_hot" "demo" "hot"
                 (5 * Minute) ([demoRecord], nil)) demoWorld) =
  ((Some (SimpleSuccessResponse 0 "demo" "hot" [demoRecord] true), nil),
   world_of (GetData demoCodec (NewFetcher demoManager) "demo_hot" "demo" "hot"
               (5 * Minute) ([demoRecord], nil)) demoWorld,
   [L1Get "demo_hot"]).
Proof.
  apply (successful_fetch_refreshes_cache demoCodec demoManager "demo_hot" "demo" "hot"
           (5 * Minute) [demoRecord] demoBytes [demoRecord] ([], errorString "boom" [])
           demoWorld).
  - left. vm_compute. discriminate.
  - discriminate.
  - reflexivity.
  - vm_compute. reflexivity.
  - reflexivity.
  - reflexivity.
  - vm_compute. reflexivity.
Defined.

Lemma unreachable_shared_store_is_transparent_witness :
  value_of (GetData demoCodec (NewFetcher bothTiers) "demo_hot" "demo" "hot" (5 * Minute)
              ([demoRecord], nil)) (unreachableHolding "demo_hot" demoBytes) =
  value_of (GetData demoCodec (NewFetcher (withoutL2 bothTiers)) "demo_hot" "demo" "hot"
              (5 * Minute) ([demoRecord], nil)) (unreachableHolding "demo_hot" demoBytes).
Proof.
  apply (unreachable_shared_store_is_transparent demoCodec bothTiers "demo_hot" "demo" "hot"
           (5 * Minute) ([demoRecord], nil) (unreachableHolding "demo_hot" demoBytes)).
  reflexivity.
Defined.

End FetcherExtras.

Module RetryExtras.
Import Retry RetryFacts RetryOps.

Lemma delayDuration_le config attempt : delayDuration config attempt <= MaxDelay config.
Proof. rewrite delayDuration_min. lia. Qed.

Lemma fold_sum_bound (l : list Z) (b : Z) :
  0 <= b -> Forall (fun d => d <= b) l ->
  fold_right Z.add 0 l <= Z.of_nat (length l) * b.
Proof.
  intros Hb H. induction H as [|d l Hd _ IH]; simpl fold_right; simpl length; [lia|].
  rewrite Nat2Z.inj_succ. lia.
Qed.

Section Bounds.

Variable ctx : Context.
Variable client : Client.
Variable url : string.
Variable headers : gmap string string.
Variable config : RetryConfig.

#[local] Abbreviation loop := (retryLoop ctx client url headers config).

Lemma loop_bounds fuel : forall attempt lastErr calls,
  Z.of_nat (invocations (snd (loop fuel attempt lastErr calls)))
    <= Z.max 0 (MaxRetries config - attempt) /\
  Z.of_nat (length (sleeps (snd (loop fuel attempt lastErr calls))))
    <= Z.max 0 (MaxRetries config - 1 - attempt) /\
  Forall (fun d => d <= MaxDelay config) (sleeps (snd (loop fuel attempt lastErr calls))).
Proof.
  induction fuel as [|fuel IH]; intros attempt lastErr calls.
  - simpl. repeat split; try lia. constructor.
  - simpl retryLoop.
    destruct (Z.ltb_spec attempt (MaxRetries config));
      [|simpl; repeat split; try lia; constructor].
    destruct (Get client calls url headers) as [body err].
    destruct (is_nil err && (0 <? len body));
      [simpl; repeat split; try lia; constructor|].
    destruct (Z.ltb_spec attempt (MaxRetries config - 1)).
    + destruct (waitOn ctx attempt (delayDuration config attempt));
        [|simpl; repeat split; try lia; constructor].
      specialize (IH (attempt + 1) err (S calls)).
      destruct (loop fuel (attempt + 1) err (S calls)) as [r tr]. simpl in *.
      destruct IH as (Hi & Hs & Hf). repeat split; try lia.
      constructor; [apply delayDuration_le | assumption].
    + specialize (IH (attempt + 1) err (S calls)).
      destruct (loop fuel (attempt + 1) err (S calls)) as [r tr]. simpl in *.
      destruct IH as (Hi & Hs & Hf). repeat split; try lia. assumption.
Qed.

(** X13. Bounds of a run, whatever the client and the context do.
    [FetchWithRetry] invokes the operation at most [MaxRetries] times (not
    at all when that is not positive), completes at most [MaxRetries - 1]
    waits, each of at most [MaxDelay], so that with a non-negative
    [MaxDelay] the time slept is at most [(MaxRetries - 1) * MaxDelay]. *)
Theorem retry_bounds :
  Z.of_nat (invocations (snd (FetchWithRetry ctx client url headers config)))
    <= Z.max 0 (MaxRetries config) /\
  Z.of_nat (length (sleeps (snd (FetchWithRetry ctx client url headers config))))
    <= Z.max 0 (MaxRetries config - 1) /\
  Forall (fun d => d <= MaxDelay config)
    (sleeps (snd (FetchWithRetry ctx client url headers config))) /\
  (0 <= MaxDelay config ->
   totalSleep (snd (FetchWithRetry ctx client url headers config))
     <= Z.max 0 (MaxRetries config - 1) * MaxDelay config).
Proof.
  unfold FetchWithRetry.
  destruct (loop_bounds (S (Z.to_nat (MaxRetries config))) 0 nil 0) as (Hi & Hs & Hf).
  replace (MaxRetries config - 0) with (MaxRetries config) in Hi by lia.
  replace (MaxRetries config - 1 - 0) with (MaxRetries config - 1) in Hs by lia.
  repeat split; try assumption.
  intros Hb. unfold totalSleep.
  pose proof (fold_sum_bound _ _ Hb Hf). nia.
Qed.

Lemma loop_result fuel : forall attempt lastErr calls body err tr,
  loop fuel attempt lastErr calls = (Some (body, err), tr) ->
  (err = nil ->
   0 < len body /\
   exists n, last tr = Some (Invoke n) /\ Get client n url headers = (body, nil)) /\
  (err <> nil ->
   body = None /\
   ((exists cause, err = Errorf cancelledFormat [] (ctxError cause)) \/
    (exists e, err = Errorf exhaustedFormat [ArgInt (MaxRetries config)] e))).
Proof.
  induction fuel as [|fuel IH]; intros attempt lastErr calls body err tr; [discriminate|].
  simpl retryLoop.
  destruct (Z.ltb_spec attempt (MaxRetries config)).
  - destruct (Get client calls url headers) as [b e] eqn:Hg.
    destruct (is_nil e && (0 <? len b)) eqn:Hok.
    + intros [= <- <- <-]. split; [|congruence]. intros _.
      apply andb_true_iff in Hok. destruct Hok as [He Hb].
      apply is_nil_true in He. subst e. split; [lia|].
      exists calls. split; [reflexivity | assumption].
    + destruct (attempt <? MaxRetries config - 1).
      * destruct (waitOn ctx attempt (delayDuration config attempt)) as [|cause].
        -- destruct (loop fuel (attempt + 1) e (S calls)) as [r tr'] eqn:Hrec.
           intros [= -> <-]. specialize (IH _ _ _ _ _ _ Hrec).
           destruct IH as [IH1 IH2]. split; [|assumption].
           intros Hn. destruct (IH1 Hn) as (Hb & n & Hl & Hgn).
           split; [assumption|]. exists n. split; [|assumption].
           change (Invoke calls :: Sleep (delayDuration config attempt) :: tr')
             with ([Invoke calls; Sleep (delayDuration config attempt)] ++ tr').
           rewrite last_app, Hl. reflexivity.
        -- intros [= <- <- <-]. split.
           ++ intros Hn. exfalso. revert Hn. apply Errorf_not_nil.
           ++ intros _. split; [reflexivity|]. left. eauto.
      * destruct (loop fuel (attempt + 1) e (S calls)) as [r tr'] eqn:Hrec.
        intros [= -> <-]. specialize (IH _ _ _ _ _ _ Hrec).
        destruct IH as [IH1 IH2]. split; [|assumption].
        intros Hn. destruct (IH1 Hn) as (Hb & n & Hl & Hgn).
        split; [assumption|]. exists n. split; [|assumption].
        change (Invoke calls :: tr') with ([Invoke calls] ++ tr').
        rewrite last_app, Hl. reflexivity.
  - intros [= <- <- <-]. split.
    + intros Hn. exfalso. revert Hn. apply Errorf_not_nil.
    + intros _. split; [reflexivity|]. right. eauto.
Qed.

(** X14. The two shapes of a result. When [FetchWithRetry] returns a nil
    error, the body is not empty and is what the last invocation of the
    operation returned, with no error. When it returns an error, the body
    is nil and the error is one of the executor's own two, the
    cancellation error or the aggregated one: an error of the operation
    is never returned as it is. *)
Theorem retry_result_shape body err tr :
  FetchWithRetry ctx client url headers config = (Some (body, err), tr) ->
  (err = nil ->
   0 < len body /\
   exists n, last tr = Some (Invoke n) /\ Get client n url headers = (body, nil)) /\
  (err <> nil ->
   body = None /\
   ((exists cause, err = Errorf cancelledFormat [] (ctxError cause)) \/
    (exists e, err = Errorf exhaustedFormat [ArgInt (MaxRetries config)] e))).
Proof. unfold FetchWithRetry. apply loop_result. Qed.

End Bounds.

Lemma retry_bounds_witness :
  totalSleep (snd (FetchWithDefaultRetry background deadClient "http://x/1" ∅))
    <= Z.max 0 (3 - 1) * (5 * Second).
Proof.
  apply (retry_bounds background deadClient "http://x/1" ∅ DefaultRetryConfig).
  vm_compute. discriminate.
Defined.

Lemma retry_result_shape_witness :
  0 < len (Some ["o"%byte; "k"%byte]) /\
  exists n,
    last [Invoke 0; Sleep (1 * Second); Invoke 1; Sleep (2 * Second); Invoke 2]
      = Some (Invoke n) /\
    Get flakyClient n "http://x/1" ∅ = (Some ["o"%byte; "k"%byte], nil).
Proof.
  apply (retry_result_shape background flakyClient "http://x/1" ∅ DefaultRetryConfig
           (Some ["o"%byte; "k"%byte]) nil
           [Invoke 0; Sleep (1 * Second); Invoke 1; Sleep (2 * Second); Invoke 2]);
    reflexivity.
Defined.

End RetryExtras.

Module PoolExtras.
Import Models Pool PoolOps.

Lemma poolGet_New {T} pick (p : SyncPool T) : New (poolGet pick p).2 = New p.
Proof.
  unfold poolGet. destruct pick as [i|]; [|reflexivity].
  destruct (items p !! i); reflexivity.
Qed.

Lemma poolGet_from {T} pick (p : SyncPool T) :
  (poolGet pick p).1 = New p \/ (poolGet pick p).1 ∈ items p.
Proof.
  unfold poolGet. destruct pick as [i|]; [|left; reflexivity].
  destruct (items p !! i) eqn:E; [|left; reflexivity].
  right. simpl. eapply list_elem_of_lookup_2, E.
Qed.

Lemma poolGet_items {T} pick (p : SyncPool T) x :
  x ∈ items (poolGet pick p).2 -> x ∈ items p.
Proof.
  unfold poolGet. destruct pick as [i|]; [|auto].
  destruct (items p !! i); [|auto]. simpl. intros H.
  eapply elem_of_sublist; [exact H | apply sublist_delete].
Qed.

(** One call keeps [New], hands out only what [New] makes or the pool
    held, and adds to the pool only a released buffer that passed the
    guard. *)
Lemma step_buffers c p :
  New (responseBufferPool (step c p).1) = New (responseBufferPool p) /\
  (forall buf, buf ∈ buffersOf (step c p).2 ->
     buf = truncate (New (responseBufferPool p)) \/
     exists b, b ∈ items (responseBufferPool p) /\ buf = truncate b) /\
  (forall b, b ∈ items (responseBufferPool (step c p).1) ->
     b ∈ items (responseBufferPool p) \/
     c = CallReleaseBuffer b /\ cap b <= 512 * 1024).
Proof.
  destruct c as [pick|buf|pick|list|i|i]; simpl.
  - unfold AcquireResponseBuffer.
    pose proof (poolGet_New pick (responseBufferPool p)) as HN.
    pose proof (poolGet_from pick (responseBufferPool p)) as HF.
    pose proof (poolGet_items pick (responseBufferPool p)) as HI.
    destruct (poolGet pick (responseBufferPool p)) as [x q]. simpl in *.
    split; [assumption|]. split.
    + intros buf Hin. apply list_elem_of_singleton in Hin. subst buf.
      destruct HF as [-> | HF]; [left; reflexivity | right; eauto].
    + intros b Hb. left. auto.
  - unfold ReleaseResponseBuffer. destruct (Z.leb_spec (cap buf) (512 * 1024)); simpl.
    + split; [reflexivity|]. split; [intros ? H'; inversion H'|].
      intros b Hb. apply elem_of_cons in Hb. destruct Hb as [-> | Hb]; auto.
    + split; [reflexivity|]. split; [intros ? H'; inversion H'|]. auto.
  - unfold AcquireHotDataList.
    destruct (poolGet pick (hotDataListPool p)) as [x q]. simpl.
    split; [reflexivity|]. split; [intros ? H'; inversion H'|]. auto.
  - unfold ReleaseHotDataList. destruct (cap list <=? 200); simpl;
      (split; [reflexivity|]; split; [intros ? H'; inversion H'|]; auto).
  - split; [reflexivity|]. split; [intros ? H'; inversion H'|].
    intros b Hb. left. eapply elem_of_sublist; [exact Hb | apply sublist_delete].
  - split; [reflexivity|]. split; [intros ? H'; inversion H'|]. auto.
Qed.

Lemma buffersOf_app g1 g2 : buffersOf (g1 ++ g2) = buffersOf g1 ++ buffersOf g2.
Proof.
  induction g1 as [|[b|l] g1 IH]; simpl; [reflexivity | f_equal; exact IH | exact IH].
Qed.

Lemma run_cons c calls p :
  run (c :: calls) p =
  ((run calls (step c p).1).1, (step c p).2 ++ (run calls (step c p).1).2).
Proof.
  simpl. destruct (step c p) as [q got]. simpl.
  destruct (run calls q) as [r rest]. reflexivity.
Qed.

Lemma run_buffers calls : forall p buf,
  buf ∈ buffersOf (run calls p).2 ->
  buf = truncate (New (responseBufferPool p)) \/
  (exists b, b ∈ items (responseBufferPool p) /\ buf = truncate b) \/
  (exists b, CallReleaseBuffer b ∈ calls /\ cap b <= 512 * 1024 /\ buf = truncate b).
Proof.
  induction calls as [|c calls IH]; intros p buf Hin; [inversion Hin|].
  rewrite run_cons in Hin. simpl in Hin. rewrite buffersOf_app in Hin.
  destruct (step_buffers c p) as (HN & HG & HI).
  apply elem_of_app in Hin. destruct Hin as [Hin | Hin].
  - destruct (HG _ Hin) as [-> | Hb]; auto.
  - destruct (IH _ _ Hin) as [-> | [(b & Hb & ->) | (b & Hb & Hc & ->)]].
    + left. rewrite HN. reflexivity.
    + destruct (HI _ Hb) as [Hb' | [-> Hc]].
      * right. left. eauto.
      * right. right. exists b. split; [left | auto].
    + right. right. exists b. split; [right; assumption | auto].
Qed.

(** X15. Where an acquired buffer comes from. Over any history of
    acquisitions, releases and drops by the collector that starts from
    [NewObjectPool], a byte buffer handed out by
    [AcquireResponseBuffer] is either a fresh one of capacity 256 KiB or
    the emptied backing array of a buffer that the history released with
    a capacity within 512 KiB: a buffer released above the guard is
    never handed out again. *)
Theorem acquired_buffer_provenance calls buf :
  buf ∈ buffersOf (run calls NewObjectPool).2 ->
  buf = make (256 * 1024) \/
  exists b, CallReleaseBuffer b ∈ calls /\ cap b <= 512 * 1024 /\ buf = truncate b.
Proof.
  intros Hin. destruct (run_buffers _ _ _ Hin) as [-> | [(b & Hb & _) | H]].
  - left. reflexivity.
  - inversion Hb.
  - right. exact H.
Qed.

Lemma acquired_buffer_provenance_witness :
  @mkSlice byte [] 1000 = make (256 * 1024) \/
  exists b : slice byte,
    CallReleaseBuffer b ∈
      [CallReleaseBuffer (mkSlice ["a"%byte] 1000); CallAcquireBuffer (Some 0%nat)] /\
    cap b <= 512 * 1024 /\ mkSlice [] 1000 = truncate b.
Proof.
  apply (acquired_buffer_provenance
           [CallReleaseBuffer (mkSlice ["a"%byte] 1000); CallAcquireBuffer (Some 0%nat)]
           (mkSlice [] 1000)).
  vm_compute. left.
Defined.

Lemma step_other_pool c p p' :
  responseBufferPool p = responseBufferPool p' ->
  isBufferCall c = false ->
  responseBufferPool (step c p).1 = responseBufferPool p' /\ buffersOf (step c p).2 = [].
Proof.
  intros Hp Hc. destruct c as [pick|buf|pick|list|i|i]; try discriminate; simpl.
  - unfold AcquireHotDataList. destruct (poolGet pick (hotDataListPool p)). simpl. auto.
  - unfold ReleaseHotDataList. destruct (cap list <=? 200); simpl; auto.
  - auto.
Qed.

Lemma step_same_pool c p p' :
  responseBufferPool p = responseBufferPool p' ->
  isBufferCall c = true ->
  responseBufferPool (step c p).1 = responseBufferPool (step c p').1 /\
  buffersOf (step c p).2 = buffersOf (step c p').2.
Proof.
  intros Hp Hc. destruct c as [pick|buf|pick|list|i|i]; try discriminate; simpl.
  - unfold AcquireResponseBuffer. rewrite Hp.
    destruct (poolGet pick (responseBufferPool p')). simpl. auto.
  - unfold ReleaseResponseBuffer. destruct (cap buf <=? 512 * 1024); simpl; rewrite ?Hp; auto.
  - rewrite Hp. auto.
Qed.

(** X16. The two pools do not interfere. The buffers a history of calls
    acquires, and the byte-buffer pool it leaves, are those of the
    history restricted to the calls on the byte-buffer pool, run from any
    state with the same byte-buffer pool: acquiring, releasing or
    dropping record lists never changes what [AcquireResponseBuffer]
    returns. *)
Theorem buffer_pool_independent_of_list_pool calls : forall p p',
  responseBufferPool p = responseBufferPool p' ->
  buffersOf (run calls p).2 = buffersOf (run (List.filter isBufferCall calls) p').2 /\
  responseBufferPool (run calls p).1
    = responseBufferPool (run (List.filter isBufferCall calls) p').1.
Proof.
  induction calls as [|c calls IH]; intros p p' Hp; [simpl; auto|].
  rewrite run_cons. simpl List.filter. simpl fst. simpl snd. rewrite buffersOf_app.
  destruct (isBufferCall c) eqn:Hc.
  - rewrite run_cons. simpl fst. simpl snd. rewrite buffersOf_app.
    destruct (step_same_pool c p p' Hp Hc) as [Hq Hg].
    destruct (IH _ _ Hq) as [IH1 IH2]. rewrite Hg, IH1, IH2. auto.
  - destruct (step_other_pool c p p' Hp Hc) as [Hq Hg].
    destruct (IH _ _ Hq) as [IH1 IH2]. rewrite Hg, IH1, IH2. auto.
Qed.

Lemma buffer_pool_independent_of_list_pool_witness :
  buffersOf (run [CallReleaseList (make 10); CallReleaseBuffer (make 7);
                  CallAcquireList None; CallAcquireBuffer (Some 0%nat)]
               NewObjectPool).2 =
  buffersOf (run [CallReleaseBuffer (make 7); CallAcquireBuffer (Some 0%nat)]
               NewObjectPool).2.
Proof.
  apply (buffer_pool_independent_of_list_pool
           [CallReleaseList (make 10); CallReleaseBuffer (make 7);
            CallAcquireList None; CallAcquireBuffer (Some 0%nat)]
           NewObjectPool NewObjectPool).
  reflexivity.
Defined.

End PoolExtras.

Module HTTPClientExtras.
Import Warmup HTTPClient.

Lemma Unwrap_Errorf_any format args e : Unwrap (Errorf format args e) = e.
Proof. destruct e; reflexivity. Qed.

Lemma is_nil_false e : is_nil e = false <-> e <> nil.
Proof. destruct e; simpl; split; congruence. Qed.

(** X17. [Get] is [GetWithCookies] without cookies: over the same
    transport, at the same instant, [Client.Get] returns what
    [GetWithCookies] returns for a nil cookie map and for an empty one,
    whatever the headers and the server's answer. *)
Theorem Get_is_GetWithCookies_without_cookies r now url headers :
  Get {| client := asGetTransport r |} now url headers
    = GetWithCookies r now url None headers /\
  Get {| client := asGetTransport r |} now url headers
    = GetWithCookies r now url (Some ∅) headers.
Proof.
  unfold Get, GetWithCookies, reqGet, asGetTransport, convertCookies, statusError.
  rewrite map_to_list_empty. simpl. split; reflexivity.
Qed.

(** X18. [convertCookies] loses nothing and invents nothing: the list has
    one cookie per entry of the map, no two cookies share a name, a
    cookie is in the list exactly when the map binds its name to its
    value, and the map is recovered from the list. *)
Theorem convertCookies_round_trip (cookies : gmap string string) :
  length (convertCookies cookies) = size cookies /\
  NoDup (CookieName <$> convertCookies cookies) /\
  (forall c, c ∈ convertCookies cookies <->
             cookies !! CookieName c = Some (CookieValue c)) /\
  list_to_map ((fun c => (CookieName c, CookieValue c)) <$> convertCookies cookies)
    = cookies.
Proof.
  unfold convertCookies.
  assert (Hfst : CookieName <$>
            ((fun '(name, value) => {| CookieName := name; CookieValue := value |})
               <$> map_to_list cookies) = (map_to_list cookies).*1).
  { rewrite <- list_fmap_compose. apply list_fmap_ext. intros i [n v] _. reflexivity. }
  assert (Hid : (fun c => (CookieName c, CookieValue c)) <$>
            ((fun '(name, value) => {| CookieName := name; CookieValue := value |})
               <$> map_to_list cookies) = map_to_list cookies).
  { rewrite <- list_fmap_compose. rewrite <- (list_fmap_id (map_to_list cookies)) at 2.
    apply list_fmap_ext. intros i [n v] _. reflexivity. }
  split; [|split; [|split]].
  - rewrite length_fmap. apply length_map_to_list.
  - rewrite Hfst. apply NoDup_fst_map_to_list.
  - intros [n v]. simpl. rewrite list_elem_of_fmap. split.
    + intros ([n' v'] & [= -> ->] & Hin). apply elem_of_map_to_list in Hin. exact Hin.
    + intros Hl. exists (n, v). split; [reflexivity|].
      apply elem_of_map_to_list. exact Hl.
  - rewrite Hid. apply list_to_map_to_list.
Qed.

(** X19. [Get] and [GetWithResponse] agree: when [GetWithResponse]
    returns a response, [Get] returns its body if the status is 200 and a
    status error without cause otherwise; when [GetWithResponse] returns
    an error, [Get] returns the same error and no body. So
    [GetWithResponse] fails only when the transport does, and a status
    other than 200 is an error for [Get] alone. *)
Theorem Get_agrees_with_GetWithResponse r now url headers :
  match GetWithResponse r now url headers with
  | (Some resp, e) =>
    e = nil /\ err resp = nil /\
    Get {| client := asGetTransport r |} now url headers =
      if StatusCode resp =? 200 then (Body resp, nil, elapsed resp)
      else (None, statusError (StatusCode resp), elapsed resp)
  | (None, e) =>
    e <> nil /\ Unwrap e <> nil /\
    fst (Get {| client := asGetTransport r |} now url headers) = (None, e)
  end.
Proof.
  unfold Get, GetWithResponse, reqGet, asGetTransport, statusError. simpl.
  match goal with |- context [send r now ?fr] => destruct (send r now fr) as [code b e t] end.
  simpl. destruct e; simpl.
  - split; [reflexivity|]. split; [reflexivity|]. destruct (code =? 200); reflexivity.
  - repeat split; discriminate.
  - repeat split; discriminate.
Qed.

(** X20. The outcomes of [Post]. The error of the result is nil exactly
    when the transport reported none and the status is 200 or 201, and
    then the body is the response's; otherwise the body is nil. The cause
    of the error ([errors.Unwrap]) is always the transport's error: a
    status error has none. The request sent is a POST to the given URL
    with the given body, under the background context. *)
Theorem Post_outcomes r now url reqBody headers :
  exists fr,
    method fr = POST /\ URL (request fr) = url /\ body fr = reqBody /\
    ctx (request fr) = Background /\
    (forall h, headers = Some h -> forall k v, h !! k = Some v ->
       Header (request fr) !! k = Some v) /\
    let resp := send r now fr in
    let '(b, e, t) := Post r now url reqBody headers in
    (e = nil <-> err resp = nil /\ (StatusCode resp = 200 \/ StatusCode resp = 201)) /\
    (e = nil -> b = Body resp) /\
    (e <> nil -> b = None) /\
    Unwrap e = err resp /\
    t = elapsed resp.
Proof.
  unfold Post.
  match goal with |- context [send r now ?fr] => exists fr end.
  simpl. split; [reflexivity|]. split; [reflexivity|]. split; [reflexivity|].
  split; [destruct headers; reflexivity|]. split.
  { intros h -> k v Hk. simpl. apply lookup_union_Some_l. exact Hk. }
  match goal with |- context [send r now ?fr] => destruct (send r now fr) as [code b e t] end.
  simpl. destruct (is_nil e) eqn:He; simpl.
  - apply is_nil_true in He. subst e.
    destruct (Z.eqb_spec code 200) as [->|H200]; simpl.
    + repeat split; try reflexivity; try congruence. auto.
    + destruct (Z.eqb_spec code 201) as [->|H201]; simpl.
      * repeat split; try reflexivity; try congruence. auto.
      * unfold statusError. repeat split; try reflexivity; try congruence.
        intros [_ [?|?]]; contradiction.
  - apply is_nil_false in He. split; [|split; [|split; [|split]]].
    + split.
      * intros Hn. exfalso. revert Hn. apply Errorf_not_nil.
      * intros [Hn _]. contradiction.
    + intros Hn. exfalso. revert Hn. apply Errorf_not_nil.
    + reflexivity.
    + apply Unwrap_Errorf_any.
    + reflexivity.
Qed.

End HTTPClientExtras.

Module UtilsExtras.
Import Utils.

Lemma gather_omap orig tab : gather orig tab = omap (fun i => orig !! i) tab.
Proof.
  induction tab as [|i tab IH]; [reflexivity|]. simpl.
  destruct (Nat.ltb_spec i (length orig)) as [Hlt|Hge].
  - destruct (orig !! i); rewrite IH; reflexivity.
  - rewrite (lookup_ge_None_2 orig i) by lia. exact IH.
Qed.

Lemma gather_elem_of orig tab b : b ∈ gather orig tab -> b ∈ orig.
Proof.
  rewrite gather_omap, list_elem_of_omap. intros (i & _ & Hi).
  eapply list_elem_of_lookup_2, Hi.
Qed.

Lemma gather_take orig tab n :
  Forall (fun i => (i < n)%nat) tab -> gather (take n orig) tab = gather orig tab.
Proof.
  intros H. induction H as [|i tab Hi _ IH]; [reflexivity|].
  simpl. rewrite IH, lookup_take_lt by exact Hi. rewrite length_take.
  destruct (Nat.ltb_spec i (n `min` length orig)), (Nat.ltb_spec i (length orig));
    try lia; reflexivity.
Qed.

Lemma gather_total orig tab :
  Forall (fun i => (i < length orig)%nat) tab ->
  length (gather orig tab) = length tab /\
  forall k i, tab !! k = Some i -> gather orig tab !! k = orig !! i.
Proof.
  intros H. induction H as [|i tab Hi _ [IHl IHk]]; [split; [reflexivity | intros ? ? [=]]|].
  rewrite gather_omap in *. simpl.
  destruct (lookup_lt_is_Some_2 orig i Hi) as [b Hb]. rewrite Hb. simpl. split.
  - f_equal. exact IHl.
  - intros [|k] j; simpl.
    + intros [= <-]. symmetry. exact Hb.
    + apply IHk.
Qed.

Lemma mixinKeyEncTab_bound : Forall (fun i => (i < 64)%nat) mixinKeyEncTab.
Proof. unfold mixinKeyEncTab. repeat (constructor; [lia|]). constructor. Qed.

Lemma mixinKeyEncTab_NoDup : NoDup mixinKeyEncTab.
Proof. apply (bool_decide_unpack _). vm_compute. reflexivity. Qed.

(** X22. What [GetMixinKey] returns for any key: at most 32 bytes, each
    of them a byte of the key, and a result that depends on the first 64
    bytes of the key only. *)
Theorem GetMixinKey_bounds orig :
  (length (GetMixinKey orig) <= 32)%nat /\
  (forall b, b ∈ GetMixinKey orig -> b ∈ orig) /\
  GetMixinKey (take 64 orig) = GetMixinKey orig.
Proof.
  split; [|split].
  - unfold GetMixinKey.
    destruct (Nat.ltb_spec 32 (length (gather orig mixinKeyEncTab))).
    + rewrite length_take. lia.
    + assumption.
  - intros b. unfold GetMixinKey.
    destruct (32 <? length (gather orig mixinKeyEncTab))%nat; intros Hb.
    + apply (gather_elem_of orig mixinKeyEncTab).
      eapply elem_of_sublist; [exact Hb | apply sublist_take].
    + apply (gather_elem_of orig mixinKeyEncTab), Hb.
  - unfold GetMixinKey. rewrite (gather_take orig mixinKeyEncTab 64 mixinKeyEncTab_bound).
    reflexivity.
Qed.

(** X23. [GetMixinKey] on a key of at least 64 bytes, such as the
    concatenation of the two keys of [GetNavInfo]: the result has exactly
    32 bytes, its byte at position [k] is the byte of the key at the
    position the table gives for [k], and no position of the key is used
    twice. *)
Theorem GetMixinKey_selects_by_table orig :
  (64 <= length orig)%nat ->
  length (GetMixinKey orig) = 32%nat /\
  (forall k i, (k < 32)%nat -> mixinKeyEncTab !! k = Some i ->
     GetMixinKey orig !! k = orig !! i) /\
  (forall k k' i, mixinKeyEncTab !! k = Some i -> mixinKeyEncTab !! k' = Some i -> k = k').
Proof.
  intros Hlen.
  assert (Hall : Forall (fun i => (i < length orig)%nat) mixinKeyEncTab).
  { eapply Forall_impl; [apply mixinKeyEncTab_bound|]. simpl. intros. lia. }
  destruct (gather_total orig mixinKeyEncTab Hall) as [Hl Hk].
  assert (Hg : length (gather orig mixinKeyEncTab) = 64%nat) by (rewrite Hl; reflexivity).
  unfold GetMixinKey. rewrite Hg. change (32 <? 64)%nat with true. cbv iota.
  split; [|split].
  - rewrite length_take, Hg. reflexivity.
  - intros k i Hlt Hi. rewrite lookup_take_lt by exact Hlt. apply Hk, Hi.
  - intros k k' i H1 H2. eapply NoDup_lookup; [apply mixinKeyEncTab_NoDup | exact H1 | exact H2].
Qed.

Lemma GetMixinKey_selects_by_table_witness :
  length (GetMixinKey (imgKey ++ subKey)) = 32%nat.
Proof.
  apply (GetMixinKey_selects_by_table (imgKey ++ subKey)).
  vm_compute. lia.
Defined.

Lemma byteVal_range b : 0 <= byteVal b <= 255.
Proof.
  unfold byteVal. pose proof (Byte.to_N_bounded b). lia.
Qed.

Lemma byteVal_byteOf z : 0 <= z <= 255 -> byteVal (byteOf z) = z.
Proof.
  intros H. unfold byteVal, byteOf.
  destruct (Byte.of_N (Z.to_N z)) as [b|] eqn:E.
  - apply Byte.to_of_N in E. rewrite E. lia.
  - apply Byte.of_N_None_iff in E. lia.
Qed.

Lemma byteOf_byteVal b : byteOf (byteVal b) = b.
Proof.
  unfold byteVal, byteOf. rewrite N2Z.id, Byte.of_to_N. reflexivity.
Qed.


Lemma runes_unwantedChars : runes unwantedChars = [33; 39; 40; 41; 42].
Proof. vm_compute. reflexivity. Qed.

Lemma containsLoop_spec rs char : containsLoop rs char = true <-> char ∈ rs.
Proof.
  induction rs as [|c rs IH]; simpl.
  - split; [discriminate | intros H; inversion H].
  - destruct (Z.eqb_spec c char) as [->|Hne].
    + split; [intros _; left | reflexivity].
    + rewrite IH. split; [intros H; right; exact H|].
      intros H. apply elem_of_cons in H. destruct H as [->|H]; [contradiction | exact H].
Qed.

Lemma contains_unwanted r :
  contains unwantedChars r = true <-> r ∈ [33; 39; 40; 41; 42].
Proof.
  unfold contains. rewrite runes_unwantedChars. apply containsLoop_spec.
Qed.

Ltac zcases :=
  repeat match goal with
         | |- context [?a <? ?b] => destruct (Z.ltb_spec a b)
         | |- context [?a <=? ?b] => destruct (Z.leb_spec a b)
         end.

Lemma utf8_bytes r c :
  validRune r = true -> c ∈ utf8 r ->
  (r <= 127 /\ byteVal c = r) \/ 128 <= byteVal c.
Proof.
  unfold validRune, utf8. intros Hv.
  apply andb_true_iff in Hv. destruct Hv as [Hv _].
  apply andb_true_iff in Hv. destruct Hv as [H0 H1].
  apply Z.leb_le in H0, H1.
  zcases; rewrite ?elem_of_cons, elem_of_nil; intros Hc;
    repeat match goal with H : _ \/ _ |- _ => destruct H end; try contradiction; subst c;
    rewrite byteVal_byteOf by (Z.to_euclidean_division_equations; lia);
    first [left; split; [assumption | reflexivity]
          | right; Z.to_euclidean_division_equations; lia].
Qed.

Lemma validRune_iff r :
  validRune r = true <-> 0 <= r <= 1114111 /\ ~ (55296 <= r <= 57343).
Proof.
  unfold validRune.
  rewrite !andb_true_iff, negb_true_iff, andb_false_iff, !Z.leb_le, !Z.leb_gt. lia.
Qed.

Ltac to_props :=
  repeat match goal with
         | H : (_ && _) = true |- _ => apply andb_true_iff in H; destruct H
         | H : (_ && _) = false |- _ => apply andb_false_iff in H
         | H : negb _ = true |- _ => apply negb_true_iff in H
         | H : negb _ = false |- _ => apply negb_false_iff in H
         | H : (_ <=? _) = true |- _ => apply Z.leb_le in H
         | H : (_ <=? _) = false |- _ => apply Z.leb_gt in H
         | H : (_ <? _) = true |- _ => apply Z.ltb_lt in H
         | H : (_ <? _) = false |- _ => apply Z.ltb_ge in H
         end.

Ltac step_if :=
  match goal with
  | |- context [if ?c then _ else _] =>
    lazymatch c with
    | context [if _ then _ else _] => fail
    | _ => let E := fresh "E" in destruct c eqn:E; simpl
    end
  end.

Lemma decoderune_valid s :
  validRune (decoderune s).1 = true /\ (1 <= (decoderune s).2 <= 4)%nat.
Proof.
  unfold decoderune, isCont.
  destruct s as [|b0 s]; [split; [reflexivity | simpl; lia]|].
  pose proof (byteVal_range b0).
  step_if; [to_props; split; [apply validRune_iff; lia | lia]|].
  step_if.
  { destruct s as [|b1 s]; simpl; [split; [reflexivity | lia]|].
    pose proof (byteVal_range b1).
    repeat step_if; to_props; (split; [try reflexivity; apply validRune_iff; lia | lia]). }
  step_if.
  { destruct s as [|b1 [|b2 s]]; simpl; try (split; [reflexivity | lia]).
    pose proof (byteVal_range b1). pose proof (byteVal_range b2).
    repeat step_if; to_props; (split; [try reflexivity; apply validRune_iff; lia | lia]). }
  step_if.
  { destruct s as [|b1 [|b2 [|b3 s]]]; simpl; try (split; [reflexivity | lia]).
    pose proof (byteVal_range b1). pose proof (byteVal_range b2).
    pose proof (byteVal_range b3).
    repeat step_if; to_props; (split; [try reflexivity; apply validRune_iff; lia | lia]). }
  split; [reflexivity | lia].
Qed.

Lemma split2 r : 0 <= r ->
  r = 64 * (r / 64) + r mod 64 /\ 0 <= r mod 64 < 64 /\ 0 <= r / 64.
Proof. intros. Z.to_euclidean_division_equations. lia. Qed.

Lemma split3 r : 0 <= r ->
  r = 4096 * (r / 4096) + 64 * ((r / 64) mod 64) + r mod 64 /\
  0 <= (r / 64) mod 64 < 64 /\ 0 <= r mod 64 < 64 /\ 0 <= r / 4096.
Proof. intros. Z.to_euclidean_division_equations. lia. Qed.

Lemma split4 r : 0 <= r ->
  r = 262144 * (r / 262144) + 4096 * ((r / 4096) mod 64)
      + 64 * ((r / 64) mod 64) + r mod 64 /\
  0 <= (r / 4096) mod 64 < 64 /\ 0 <= (r / 64) mod 64 < 64 /\
  0 <= r mod 64 < 64 /\ 0 <= r / 262144.
Proof. intros. Z.to_euclidean_division_equations. lia. Qed.

Lemma decoderune_utf8 r rest :
  validRune r = true -> decoderune (utf8 r ++ rest) = (r, length (utf8 r)).
Proof.
  intros Hv. apply validRune_iff in Hv. destruct Hv as [Hr Hs]. unfold utf8.
  destruct (Z.leb_spec r 127); [|destruct (Z.leb_spec r 2047); [|destruct (Z.leb_spec r 65535)]].
  - simpl app. unfold decoderune. rewrite byteVal_byteOf by lia.
    destruct (Z.ltb_spec r 128); [reflexivity | lia].
  - destruct (split2 r) as (Heq & Hm & Hq); [lia|].
    generalize dependent (r / 64). generalize dependent (r mod 64). intros m Hm q Heq Hq.
    simpl app. unfold decoderune, isCont. rewrite !byteVal_byteOf by lia.
    repeat step_if; to_props; try lia. f_equal. lia.
  - destruct (split3 r) as (Heq & Hb & Hc & Ha); [lia|].
    generalize dependent (r / 4096). generalize dependent ((r / 64) mod 64).
    generalize dependent (r mod 64). intros c Hc b Hb a Heq Ha.
    simpl app. unfold decoderune, isCont. rewrite !byteVal_byteOf by lia.
    repeat step_if; to_props; try lia. f_equal. lia.
  - destruct (split4 r) as (Heq & Hb & Hc & Hd & Ha); [lia|].
    generalize dependent (r / 262144). generalize dependent ((r / 4096) mod 64).
    generalize dependent ((r / 64) mod 64). generalize dependent (r mod 64).
    intros d Hd c Hc b Hb a Heq Ha.
    simpl app. unfold decoderune, isCont. rewrite !byteVal_byteOf by lia.
    repeat step_if; to_props; try lia. f_equal. lia.
Qed.

Lemma rangeRunes_skip pre rest :
  rangeRunes (length pre) (pre ++ rest) = rangeRunes 0 rest.
Proof. induction pre as [|b pre IH]; [reflexivity | exact IH]. Qed.

Lemma rangeRunes_0 b rest :
  rangeRunes 0 (b :: rest) =
  (decoderune (b :: rest)).1 :: rangeRunes (pred (decoderune (b :: rest)).2) rest.
Proof. cbn [rangeRunes]. destruct (decoderune (b :: rest)). reflexivity. Qed.

Lemma runes_utf8 r rest :
  validRune r = true -> runes (utf8 r ++ rest) = r :: runes rest.
Proof.
  intros Hv. pose proof (decoderune_utf8 r rest Hv) as Hd. unfold runes.
  destruct (utf8 r) as [|b tl] eqn:E.
  - exfalso. revert E. unfold utf8. repeat step_if; discriminate.
  - simpl app in *. rewrite rangeRunes_0, Hd. simpl. f_equal.
    apply rangeRunes_skip.
Qed.

Lemma runes_encodeRunes rs rest :
  Forall (fun r => validRune r = true) rs ->
  runes (encodeRunes rs ++ rest) = rs ++ runes rest.
Proof.
  intros H. induction H as [|r rs Hr _ IH]; [reflexivity|].
  simpl. rewrite <- app_assoc, runes_utf8 by exact Hr. f_equal. exact IH.
Qed.

Lemma rangeRunes_valid s : forall k,
  Forall (fun r => validRune r = true) (rangeRunes k s).
Proof.
  induction s as [|b s IH]; intros k; [constructor|].
  destruct k as [|k]; [|apply IH].
  rewrite rangeRunes_0. constructor; [apply decoderune_valid | apply IH].
Qed.

Lemma filterLoop_valid rs :
  Forall (fun r => validRune r = true) rs ->
  filterLoop rs = encodeRunes (filter (fun r => r ∉ [33; 39; 40; 41; 42]) rs).
Proof.
  intros H. induction H as [|r rs Hr _ IH]; [reflexivity|].
  simpl filterLoop. destruct (contains unwantedChars r) eqn:E; simpl negb; cbv iota.
  - apply contains_unwanted in E.
    rewrite filter_cons_False by (intros Hn; exact (Hn E)). exact IH.
  - rewrite filter_cons_True.
    + simpl. unfold runeToString. rewrite Hr, IH. reflexivity.
    + intros Hn. apply contains_unwanted in Hn. congruence.
Qed.

Lemma filterValue_runes value :
  filterValue value =
  encodeRunes (filter (fun r => r ∉ [33; 39; 40; 41; 42]) (runes value)).
Proof. apply filterLoop_valid, rangeRunes_valid. Qed.

Lemma elem_of_encodeRunes c rs : c ∈ encodeRunes rs -> exists r, r ∈ rs /\ c ∈ utf8 r.
Proof.
  induction rs as [|r rs IH]; simpl; [intros H; inversion H|].
  rewrite elem_of_app. intros [H|H].
  - exists r. split; [left | exact H].
  - destruct (IH H) as (r' & Hr & Hc). exists r'. split; [right; exact Hr | exact Hc].
Qed.

Lemma unwantedChars_bytes :
  unwantedChars = [byteOf 33; byteOf 39; byteOf 40; byteOf 41; byteOf 42].
Proof. vm_compute. reflexivity. Qed.

Lemma unwanted_byte b : b ∈ unwantedChars <-> byteVal b ∈ [33; 39; 40; 41; 42].
Proof.
  rewrite unwantedChars_bytes, !elem_of_cons, !elem_of_nil. split; intros H.
  - repeat destruct H as [H|H]; try contradiction; subst b;
      rewrite byteVal_byteOf by lia; tauto.
  - rewrite <- (byteOf_byteVal b).
    repeat destruct H as [H|H]; try contradiction; rewrite H; tauto.
Qed.

Lemma decoderune_ascii b rest :
  byteVal b < 128 -> decoderune (b :: rest) = (byteVal b, 1%nat).
Proof. intros H. unfold decoderune. step_if; [reflexivity | to_props; lia]. Qed.

Lemma decoderune_stray b rest :
  128 <= byteVal b < 192 \/ 248 <= byteVal b ->
  decoderune (b :: rest) = (RuneError, 1%nat).
Proof.
  intros H. unfold decoderune.
  repeat step_if; to_props; try lia; try reflexivity.
Qed.

(** X24. [filterValue] on strings. The result never contains one of the
    five bytes of "!'()*", and filtering it again changes nothing. On a
    string that starts with the UTF-8 encoding of a sequence of code
    points, these are copied unchanged except for the five characters,
    which are dropped, and the rest of the string is filtered in the same
    way: so a string of valid UTF-8 loses these characters and nothing
    else, and on ASCII the result is the string without the five bytes.
    A byte that cannot start a sequence (a stray continuation byte, or a
    byte from 0xF8) is not copied: the encoding of U+FFFD takes its
    place. *)
Theorem filterValue_on_strings value :
  (forall c, c ∈ filterValue value -> c ∉ unwantedChars) /\
  filterValue (filterValue value) = filterValue value /\
  (forall rs rest,
     Forall (fun r => validRune r = true) rs ->
     value = encodeRunes rs ++ rest ->
     filterValue value =
       encodeRunes (filter (fun r => r ∉ [33; 39; 40; 41; 42]) rs) ++ filterValue rest) /\
  (Forall (fun b => byteVal b < 128) value ->
   filterValue value = filter (fun b => b ∉ unwantedChars) value) /\
  (forall b rest,
     value = b :: rest -> 128 <= byteVal b < 192 \/ 248 <= byteVal b ->
     filterValue value = utf8 RuneError ++ filterValue rest).
Proof.
  split; [|split; [|split; [|split]]].
  - intros c Hc Hu. rewrite filterValue_runes in Hc.
    apply elem_of_encodeRunes in Hc. destruct Hc as (r & Hr & Hc).
    apply list_elem_of_filter in Hr. destruct Hr as [Hkeep Hr].
    assert (Hv : validRune r = true).
    { pose proof (rangeRunes_valid value 0) as Hall.
      rewrite Forall_forall in Hall. apply Hall, Hr. }
    apply unwanted_byte in Hu.
    destruct (utf8_bytes r c Hv Hc) as [[_ Heq] | Hge].
    + rewrite Heq in Hu. contradiction.
    + rewrite !elem_of_cons, elem_of_nil in Hu. lia.
  - rewrite (filterValue_runes (filterValue value)), (filterValue_runes value).
    assert (Hk : runes (encodeRunes (filter (fun r => r ∉ [33; 39; 40; 41; 42])
                                        (runes value)))
                 = filter (fun r => r ∉ [33; 39; 40; 41; 42]) (runes value)).
    { rewrite <- (app_nil_r (encodeRunes _)), runes_encodeRunes; [apply app_nil_r|].
      apply Forall_forall. intros r Hr. apply list_elem_of_filter in Hr.
      destruct Hr as [_ Hr]. pose proof (rangeRunes_valid value 0) as Hall.
      rewrite Forall_forall in Hall. apply Hall, Hr. }
    rewrite Hk, list_filter_filter. f_equal.
    apply list_filter_iff. intros r. tauto.
  - intros rs rest Hrs ->. rewrite !filterValue_runes, runes_encodeRunes by exact Hrs.
    rewrite filter_app. clear Hrs. induction rs as [|r rs IH]; [reflexivity|].
    simpl. destruct (decide (r ∉ [33; 39; 40; 41; 42])).
    + rewrite !filter_cons_True by assumption. simpl. rewrite <- app_assoc.
      f_equal. exact IH.
    + rewrite !filter_cons_False by assumption. exact IH.
  - intros H. induction H as [|b v Hb _ IH]; [reflexivity|].
    unfold filterValue, runes in *.
    rewrite rangeRunes_0, decoderune_ascii by exact Hb. cbn [fst snd pred filterLoop].
    destruct (contains unwantedChars (byteVal b)) eqn:E; simpl negb; cbv iota.
    + apply contains_unwanted, unwanted_byte in E.
      rewrite filter_cons_False by (intros Hn; exact (Hn E)). exact IH.
    + rewrite filter_cons_True.
      * rewrite IH. unfold runeToString.
        assert (Hv : validRune (byteVal b) = true)
          by (apply validRune_iff; pose proof (byteVal_range b); lia).
        rewrite Hv. unfold utf8.
        destruct (Z.leb_spec (byteVal b) 127); [|lia].
        rewrite byteOf_byteVal. reflexivity.
      * intros Hn. apply unwanted_byte, contains_unwanted in Hn. congruence.
  - intros b rest -> Hb. unfold filterValue, runes.
    rewrite rangeRunes_0, decoderune_stray by exact Hb. reflexivity.
Qed.

(** The cut matters: the two bytes of U+00E9 are kept together and
    replaced one by one when they are filtered apart. *)
Lemma filterValue_cut_inside_rune :
  filterValue ["195"%byte; "169"%byte] = ["195"%byte; "169"%byte] /\
  filterValue ["195"%byte] ++ filterValue ["169"%byte] =
    utf8 RuneError ++ utf8 RuneError.
Proof. split; vm_compute; reflexivity. Qed.

End UtilsExtras.

Module TimeutilExtras.
Import Timeutil.

(** X25. [normalizeTimestamp] on a timestamp later than 2000-01-01 in
    seconds: up to the threshold it is taken for seconds and multiplied
    by 1000 without overflow, above the threshold it is returned as it
    is; either way the result is above the threshold, so normalizing it
    again changes nothing. *)
Theorem normalizeTimestamp_after_2000 ts :
  946684800 < ts ->
  (ts <= threshold -> normalizeTimestamp ts = ts * 1000) /\
  (threshold < ts -> normalizeTimestamp ts = ts) /\
  threshold < normalizeTimestamp ts /\
  normalizeTimestamp (normalizeTimestamp ts) = normalizeTimestamp ts.
Proof.
  intros H. unfold normalizeTimestamp, threshold in *.
  destruct (Z.ltb_spec 946684800000 ts) as [Hgt|Hle].
  - rewrite (proj2 (Z.ltb_lt _ _) Hgt). repeat split; auto; lia.
  - assert (Hw : wrap64 (ts * 1000) = ts * 1000)
      by (apply wrap64_id; unfold int64_range; lia).
    rewrite Hw. assert (Hlt : 946684800000 < ts * 1000) by lia.
    rewrite (proj2 (Z.ltb_lt _ _) Hlt). repeat split; auto; lia.
Qed.

Lemma normalizeTimestamp_after_2000_witness :
  threshold < normalizeTimestamp 1700000000 /\
  normalizeTimestamp (normalizeTimestamp 1700000000) = normalizeTimestamp 1700000000.
Proof.
  apply (normalizeTimestamp_after_2000 1700000000). reflexivity.
Defined.

(** X26. [normalizeTimestamp] is not idempotent below that: a positive
    timestamp of at most 946684800, seconds before 2000-01-01 or
    milliseconds of the first days of 1970, is multiplied by 1000 and the
    result, still at most the threshold, would be multiplied again. *)
Theorem normalizeTimestamp_before_2000 ts :
  0 < ts <= 946684800 ->
  normalizeTimestamp ts = ts * 1000 /\
  normalizeTimestamp (normalizeTimestamp ts) = ts * 1000000 /\
  normalizeTimestamp (normalizeTimestamp ts) <> normalizeTimestamp ts.
Proof.
  intros H. unfold normalizeTimestamp, threshold.
  assert (H1 : (946684800000 <? ts) = false) by (apply Z.ltb_ge; lia).
  rewrite H1.
  assert (Hw : wrap64 (ts * 1000) = ts * 1000)
    by (apply wrap64_id; unfold int64_range; lia).
  rewrite Hw.
  assert (H2 : (946684800000 <? ts * 1000) = false) by (apply Z.ltb_ge; lia).
  rewrite H2.
  assert (Hw2 : wrap64 (ts * 1000 * 1000) = ts * 1000 * 1000)
    by (apply wrap64_id; unfold int64_range; lia).
  rewrite Hw2. repeat split; lia.
Qed.

Lemma normalizeTimestamp_before_2000_witness :
  normalizeTimestamp 86400 = 86400 * 1000 /\
  normalizeTimestamp (normalizeTimestamp 86400) = 86400 * 1000000 /\
  normalizeTimestamp (normalizeTimestamp 86400) <> normalizeTimestamp 86400.
Proof.
  apply (normalizeTimestamp_before_2000 86400). lia.
Defined.

End TimeutilExtras.

Module WarmupSchedulerExtras.
Import Warmup WarmupScheduler.

Lemma inFlight_spawn (platforms : list string) :
  inFlight ((fun _ => Waiting) <$> platforms) = O.
Proof. induction platforms; simpl; auto. Qed.

Lemma start_fetching ps : forall i,
  ps !! i = Some Waiting ->
  inFlight (<[i := Fetching]> ps) = S (inFlight ps) /\
  S (work (<[i := Fetching]> ps)) = work ps.
Proof.
  induction ps as [|ph ps IH]; intros [|i] H; try discriminate; simpl in *.
  - injection H as ->. auto.
  - destruct (IH i H) as [H1 H2]. destruct ph; simpl; rewrite ?H1, <- ?H2; auto.
Qed.

Lemma finish_fetching ps log : forall i,
  ps !! i = Some Fetching ->
  S (inFlight (<[i := Finished log]> ps)) = inFlight ps /\
  S (work (<[i := Finished log]> ps)) = work ps.
Proof.
  induction ps as [|ph ps IH]; intros [|i] H; try discriminate; simpl in *.
  - injection H as ->. auto.
  - destruct (IH i H) as [H1 H2]. destruct ph; simpl; rewrite <- ?H1, <- ?H2; auto.
Qed.

Lemma some_fetching ps : (0 < inFlight ps)%nat -> exists i, ps !! i = Some Fetching.
Proof.
  induction ps as [|ph ps IH]; simpl; [lia|]. intros H.
  destruct ph; try (destruct (IH H) as [i Hi]; exists (S i); exact Hi).
  exists O. reflexivity.
Qed.

Lemma some_waiting ps :
  inFlight ps = O -> (0 < work ps)%nat -> exists i, ps !! i = Some Waiting.
Proof.
  induction ps as [|ph ps IH]; simpl; [lia|]. intros H0 H.
  destruct ph; try discriminate.
  - exists O. reflexivity.
  - destruct (IH H0 H) as [i Hi]. exists (S i). exact Hi.
Qed.

Lemma work_done ps :
  work ps = O -> Forall (fun ph => isFinished ph = true) ps /\ inFlight ps = O.
Proof.
  induction ps as [|ph ps IH]; simpl; [auto|].
  destruct ph; try discriminate. intros H. destruct (IH H). auto.
Qed.

Section Schedules.

Variable httpClient : option Client.
Variable platforms : list string.

#[local] Abbreviation stepOf := (stepTask httpClient platforms).
#[local] Abbreviation runOf := (runSchedule httpClient platforms).

Lemma spawnAll_inv : sched_inv platforms (spawnAll platforms).
Proof.
  unfold sched_inv, spawnAll, capacity. simpl.
  rewrite inFlight_spawn, length_fmap. repeat split; lia.
Qed.

Lemma stepTask_inv i now s s' :
  sched_inv platforms s -> stepOf i now s = Some s' ->
  sched_inv platforms s' /\ S (work (phases s')) = work (phases s).
Proof.
  unfold sched_inv, stepTask. intros (Hs & Hc & Hl).
  destruct (phases s !! i) as [[| |log]|] eqn:Hi; try discriminate;
    destruct (platforms !! i) as [p|] eqn:Hp; try discriminate.
  - destruct (Nat.ltb_spec (semaphore s) capacity); [|discriminate].
    intros [= <-]. simpl. destruct (start_fetching _ _ Hi) as [H1 H2].
    rewrite H1, length_insert. repeat split; auto; lia.
  - intros [= <-]. simpl. destruct (finish_fetching _ (warmUpTask httpClient now p).1 _ Hi)
      as [H1 H2].
    rewrite length_insert. repeat split; auto; lia.
Qed.

Lemma runSchedule_inv schedule : forall s,
  sched_inv platforms s -> sched_inv platforms (runOf schedule s).
Proof.
  induction schedule as [|[i now] schedule IH]; intros s Hs; [exact Hs|].
  simpl. apply IH. destruct (stepOf i now s) as [s'|] eqn:E; [|exact Hs].
  apply (stepTask_inv _ _ _ _ Hs E).
Qed.

Lemma runSchedule_app a b s : runOf (a ++ b) s = runOf b (runOf a s).
Proof.
  revert s. induction a as [|[i now] a IH]; intros s; [reflexivity|].
  simpl. apply IH.
Qed.

(** X27. The bound on concurrent warm-up fetches. In every state that a
    schedule of the goroutines of [warmUpCacheAsync] reaches, the
    semaphore holds as many tokens as goroutines are fetching, at most
    three, there is one goroutine per platform, and a goroutine that
    cannot move while it waits is waiting because three others are
    fetching. *)
Theorem warmup_concurrency_bound schedule :
  let s := runOf schedule (spawnAll platforms) in
  semaphore s = inFlight (phases s) /\
  (inFlight (phases s) <= 3)%nat /\
  length (phases s) = length platforms /\
  (forall i now, phases s !! i = Some Waiting -> stepOf i now s = None ->
     inFlight (phases s) = 3%nat).
Proof.
  intros s. destruct (runSchedule_inv schedule _ spawnAll_inv) as (Hs & Hc & Hl).
  fold s in Hs, Hc, Hl. unfold capacity in Hc.
  split; [exact Hs|]. split; [lia|]. split; [exact Hl|].
  intros i now Hi. unfold stepTask. rewrite Hi.
  destruct (platforms !! i) as [p|] eqn:Hp.
  - unfold capacity. destruct (Nat.ltb_spec (semaphore s) 3); [discriminate|]. lia.
  - apply lookup_lt_Some in Hi. apply lookup_ge_None in Hp. lia.
Qed.

Lemma progress s :
  sched_inv platforms s -> (0 < work (phases s))%nat ->
  exists i, forall now, exists s', stepOf i now s = Some s'.
Proof.
  intros (Hs & Hc & Hl) Hw.
  destruct (Nat.eq_dec (inFlight (phases s)) O) as [H0|Hn].
  - destruct (some_waiting _ H0 Hw) as [i Hi]. exists i. intros now.
    unfold stepTask. rewrite Hi.
    destruct (platforms !! i) as [p|] eqn:Hp.
    + rewrite Hs, H0. simpl. eauto.
    + apply lookup_lt_Some in Hi. apply lookup_ge_None in Hp. lia.
  - destruct (some_fetching (phases s)) as [i Hi]; [lia|]. exists i. intros now.
    unfold stepTask. rewrite Hi.
    destruct (platforms !! i) as [p|] eqn:Hp; [eauto|].
    apply lookup_lt_Some in Hi. apply lookup_ge_None in Hp. lia.
Qed.

Lemma completes n : forall s,
  sched_inv platforms s -> work (phases s) = n ->
  forall now : Z, exists rest : list (nat * Z),
    length rest = n /\
    Forall (fun ph => isFinished ph = true) (phases (runOf rest s)) /\
    semaphore (runOf rest s) = O.
Proof.
  induction n as [|n IH]; intros s Hinv Hw now.
  - exists []. simpl. destruct (work_done _ Hw) as [Hf H0].
    destruct Hinv as (Hs & _). rewrite Hs. auto.
  - destruct (progress s Hinv) as [i Hi]; [lia|].
    destruct (Hi now) as [s' Hs'].
    destruct (stepTask_inv _ _ _ _ Hinv Hs') as [Hinv' Hw'].
    destruct (IH s' Hinv' ltac:(lia) now) as (rest & Hlen & Hf & H0).
    exists ((i, now) :: rest). simpl. rewrite Hs'. split; [lia | auto].
Qed.

(** X28. The warm-up cannot get stuck. From every state that a schedule
    reaches, some goroutine can move as long as one has not finished, and
    a continuation of as many steps as there is work left (two for a
    waiting goroutine, one for a fetching one) brings every goroutine to
    its end with the semaphore empty, whatever the fetches log: the
    semaphore is returned on the failure paths too, so [wg.Wait] returns. *)
Theorem warmup_completes schedule :
  let s := runOf schedule (spawnAll platforms) in
  ((0 < work (phases s))%nat -> exists i, forall t, exists s', stepOf i t s = Some s') /\
  exists rest,
    length rest = work (phases s) /\
    Forall (fun ph => isFinished ph = true)
      (phases (runOf (schedule ++ rest) (spawnAll platforms))) /\
    semaphore (runOf (schedule ++ rest) (spawnAll platforms)) = O.
Proof.
  intros s. pose proof (runSchedule_inv schedule _ spawnAll_inv) as Hinv. fold s in Hinv.
  split; [apply progress, Hinv|].
  destruct (completes _ s Hinv eq_refl 0) as (rest & Hlen & Hf & H0).
  exists rest. rewrite runSchedule_app. auto.
Qed.

Lemma stepTask_finished i now s s' j log :
  stepOf i now s = Some s' ->
  phases s !! j = Some (Finished log) -> phases s' !! j = Some (Finished log).
Proof.
  unfold stepTask. intros Hstep Hj.
  destruct (Nat.eq_dec i j) as [->|Hne].
  - rewrite Hj in Hstep. discriminate.
  - destruct (phases s !! i) as [[| |l]|]; try discriminate;
      destruct (platforms !! i); try discriminate.
    + destruct (semaphore s <? capacity)%nat; [|discriminate].
      injection Hstep as <-. simpl. rewrite list_lookup_insert_ne by exact Hne. exact Hj.
    + injection Hstep as <-. simpl. rewrite list_lookup_insert_ne by exact Hne. exact Hj.
Qed.

Lemma stepTask_log i now s s' j log :
  stepOf i now s = Some s' ->
  phases s' !! j = Some (Finished log) ->
  phases s !! j = Some (Finished log) \/
  exists p, i = j /\ platforms !! j = Some p /\ log = (warmUpTask httpClient now p).1.
Proof.
  unfold stepTask. intros Hstep Hj.
  destruct (phases s !! i) as [[| |l]|] eqn:Hi; try discriminate;
    destruct (platforms !! i) as [p|] eqn:Hp; try discriminate.
  - destruct (semaphore s <? capacity)%nat; [|discriminate].
    injection Hstep as <-. simpl in Hj.
    destruct (Nat.eq_dec i j) as [->|Hne].
    + rewrite list_lookup_insert_eq in Hj by (eapply lookup_lt_Some, Hi). discriminate.
    + rewrite list_lookup_insert_ne in Hj by exact Hne. auto.
  - injection Hstep as <-. simpl in Hj.
    destruct (Nat.eq_dec i j) as [->|Hne].
    + rewrite list_lookup_insert_eq in Hj by (eapply lookup_lt_Some, Hi).
      injection Hj as <-. right. exists p. auto.
    + rewrite list_lookup_insert_ne in Hj by exact Hne. auto.
Qed.

Lemma runSchedule_finished schedule : forall s j log,
  phases s !! j = Some (Finished log) ->
  phases (runOf schedule s) !! j = Some (Finished log).
Proof.
  induction schedule as [|[i now] schedule IH]; intros s j log Hj; [exact Hj|].
  simpl. apply IH. destruct (stepOf i now s) as [s'|] eqn:E; [|exact Hj].
  eapply stepTask_finished; eauto.
Qed.

Lemma runSchedule_log schedule : forall s j log,
  phases (runOf schedule s) !! j = Some (Finished log) ->
  phases s !! j = Some (Finished log) \/
  exists p now, (j, now) ∈ schedule /\ platforms !! j = Some p /\
                log = (warmUpTask httpClient now p).1.
Proof.
  induction schedule as [|[i now] schedule IH]; intros s j log Hj; [left; exact Hj|].
  simpl in Hj. destruct (IH _ _ _ Hj) as [Hs' | (p & t & Hin & Hp & Hl)].
  - destruct (stepOf i now s) as [s'|] eqn:E; [|left; exact Hs'].
    destruct (stepTask_log _ _ _ _ _ _ E Hs') as [H | (p & -> & Hp & Hl)]; [left; exact H|].
    right. exists p, now. split; [left | auto].
  - right. exists p, t. split; [right; exact Hin | auto].
Qed.

(** X29. Each goroutine warms its own platform, once. In every state a
    schedule reaches, the line a finished goroutine logged is the
    outcome of the task for the platform at its own position, at an
    instant at which the schedule moved it; and once a goroutine has
    finished, no continuation of the schedule changes what it logged. *)
Theorem warmup_logs_own_platform_once schedule j log :
  phases (runOf schedule (spawnAll platforms)) !! j = Some (Finished log) ->
  (exists p now, (j, now) ∈ schedule /\ platforms !! j = Some p /\
                 log = (warmUpTask httpClient now p).1) /\
  (forall more,
     phases (runOf (schedule ++ more) (spawnAll platforms)) !! j = Some (Finished log)).
Proof.
  intros Hj. split.
  - destruct (runSchedule_log _ _ _ _ Hj) as [H | H]; [|exact H].
    unfold spawnAll in H. simpl in H. rewrite list_lookup_fmap in H.
    destruct (platforms !! j); discriminate.
  - intros more. rewrite runSchedule_app. apply runSchedule_finished, Hj.
Qed.

End Schedules.

Lemma warmup_logs_own_platform_once_witness :
  exists p now, (0%nat, now) ∈ [(0%nat, 0); (0%nat, 5)] /\
                hotPlatforms !! 0%nat = Some p /\
                ClientMissing = (warmUpTask None now p).1.
Proof.
  apply (warmup_logs_own_platform_once None hotPlatforms [(0%nat, 0); (0%nat, 5)]
           0%nat ClientMissing).
  reflexivity.
Defined.

End WarmupSchedulerExtras.
